(** * A shallow embedding of the Go package [diff] (Myers' O(ND) difference
      algorithm, linear-space variant) and the properties of its
      specification.

    The embedding follows [diff.go] function by function.  Go's [int] is
    modelled by [Z]: every integer the program computes is bounded in
    absolute value by [2*(N+M+1)], the length of a slice the program
    allocates, so no 64-bit wrap-around can take place before the
    allocation itself fails.  A Go slice is a [list]; indexing outside of
    it panics, as in Go.  The receiver [*context] is mutated in place by
    the source; here it is threaded through explicitly. *)

From Stdlib Require Import ZArith List Lia Bool String.
Import ListNotations.
Local Open Scope Z_scope.

(** ** Outcomes of a Go computation *)

(** The value carried by a Go panic: the run-time error of an index
    expression ("index out of range [i] with length n"), the run-time error
    of [make] with a negative length, or the argument of an explicit
    [panic(...)]. *)
Inductive panic : Type :=
| BoundsError (i n : Z)
| MakeSliceError
| Explicit (msg : string).

Inductive outcome (T : Type) : Type :=
| Ok (v : T)
| Panic (p : panic)
| OutOfFuel.                 (* the recursion budget of the model ran out *)

Arguments Ok {T} v.
Arguments Panic {T} p.
Arguments OutOfFuel {T}.

Definition bind {S T : Type} (r : outcome S) (f : S -> outcome T) : outcome T :=
  match r with
  | Ok v => f v
  | Panic p => Panic p
  | OutOfFuel => OutOfFuel
  end.

Notation "x <- e ;; k" := (bind e (fun x => k))
  (at level 61, e at next level, right associativity).
Notation "' p <- e ;; k" := (bind e (fun p => k))
  (at level 61, p pattern, e at next level, right associativity).

(** ** Slices *)

Definition len {T : Type} (l : list T) : Z := Z.of_nat (List.length l).

Definition in_range {T : Type} (l : list T) (i : Z) : bool :=
  (0 <=? i) && (i <? len l).

Definition rd (l : list Z) (i : Z) : Z := nth (Z.to_nat i) l 0.

(** [l[i]] *)
Definition index (l : list Z) (i : Z) : outcome Z :=
  if in_range l i then Ok (rd l i)
  else Panic (BoundsError i (len l)).

Fixpoint update (l : list Z) (i : nat) (v : Z) : list Z :=
  match l, i with
  | [], _ => []
  | _ :: t, O => v :: t
  | h :: t, S i' => h :: update t i' v
  end.

(** [l[i] = v] *)
Definition store (l : list Z) (i : Z) (v : Z) : outcome (list Z) :=
  if in_range l i then Ok (update l (Z.to_nat i) v)
  else Panic (BoundsError i (len l)).

(** [make([]T, n)] *)
Definition make (n : Z) : outcome (list Z) :=
  if n <? 0 then Panic MakeSliceError
  else Ok (repeat 0 (Z.to_nat n)).

(** ** The data model *)

Record Interface : Type := {
  N : Z;
  M : Z;
  Equal : Z -> Z -> outcome bool
}.

(** [type Ints [2][]int] with its three methods. *)
Definition Ints (a b : list Z) : Interface := {|
  N := len a;
  M := len b;
  Equal := fun i j => x <- index a i ;; y <- index b j ;; Ok (x =? y)
|}.

Record Change : Type := mkChange {
  A : Z;
  B : Z;
  Del : Z;
  Ins : Z
}.

(** The field [data] of the Go struct is the section variable of the
    functions below; a nil slice is [None]. *)
Record context : Type := mkContext {
  flags : list Z;
  max : Z;
  forward : option (list Z);
  reverse : option (list Z)
}.

Definition slice (o : option (list Z)) : list Z :=
  match o with Some l => l | None => [] end.

Definition set_flags (c : context) (l : list Z) : context :=
  mkContext l (max c) (forward c) (reverse c).
Definition set_forward (c : context) (l : list Z) : context :=
  mkContext (flags c) (max c) (Some l) (reverse c).
Definition set_reverse (c : context) (l : list Z) : context :=
  mkContext (flags c) (max c) (forward c) (Some l).

Section Diff.

Variable data : Interface.

(** *** The loops of [compare] and [findMiddleSnake]

    Each loop is a [Fixpoint] over a budget; it gives [OutOfFuel] only when
    the budget is used up while the loop condition still holds. *)

(** [for x < alimit && y < blimit && c.data.Equal(x, y) { x++; y++ }] *)
Fixpoint snake_down (fuel : nat) (alimit blimit x y : Z) : outcome (Z * Z) :=
  if (x <? alimit) && (y <? blimit) then
    e <- Equal data x y ;;
    if e : bool then
      match fuel with
      | O => OutOfFuel
      | S f => snake_down f alimit blimit (x + 1) (y + 1)
      end
    else Ok (x, y)
  else Ok (x, y).

(** [for x > aoffset && y > boffset && c.data.Equal(x-1, y-1) { x--; y-- }] *)
Fixpoint snake_up (fuel : nat) (aoffset boffset x y : Z) : outcome (Z * Z) :=
  if (x >? aoffset) && (y >? boffset) then
    e <- Equal data (x - 1) (y - 1) ;;
    if e : bool then
      match fuel with
      | O => OutOfFuel
      | S f => snake_up f aoffset boffset (x - 1) (y - 1)
      end
    else Ok (x, y)
  else Ok (x, y).

(** [for boffset < blimit { c.flags[boffset] |= bit; boffset++ }] *)
Fixpoint mark (fuel : nat) (bit : Z) (fl : list Z) (i limit : Z)
  : outcome (list Z) :=
  if i <? limit then
    v <- index fl i ;;
    fl' <- store fl i (Z.lor v bit) ;;
    match fuel with
    | O => OutOfFuel
    | S f => mark f bit fl' (i + 1) limit
    end
  else Ok fl.

(** *** [findMiddleSnake] *)

Section MiddleSnake.

Variables aoffset boffset alimit blimit : Z.

Let fmid := aoffset - boffset.
Let rmid := alimit - blimit.
Let isodd := negb (Z.land (rmid - fmid) 1 =? 0).
Let maxd := Z.quot (alimit - aoffset + blimit - boffset + 2) 2.

(** One turn of the forward loop over [k], up to its [return]. *)
Definition forward_step (c : context) (d k : Z)
  : outcome (context * option (Z * Z)) :=
  let foff := max c - fmid in
  let roff := max c - rmid in
  down <-
    (if k =? fmid - d then Ok true
     else if negb (k =? fmid + d) then
       p <- index (slice (forward c)) (foff + k + 1) ;;
       q <- index (slice (forward c)) (foff + k - 1) ;;
       Ok (p <? q)
     else Ok false) ;;
  x <-
    (if down : bool then index (slice (forward c)) (foff + k + 1)
     else p <- index (slice (forward c)) (foff + k - 1) ;; Ok (p + 1)) ;;
  let y := x - k in
  '(x, y) <- snake_down (Z.to_nat (alimit - x)) alimit blimit x y ;;
  fw <- store (slice (forward c)) (foff + k) x ;;
  let c := set_forward c fw in
  if isodd && (k >? rmid - d) && (k <? rmid + d) then
    r <- index (slice (reverse c)) (roff + k) ;;
    f <- index (slice (forward c)) (foff + k) ;;
    if r <=? f then Ok (c, Some (x, x - k)) else Ok (c, None)
  else Ok (c, None).

(** One turn of the reverse loop over [k], up to its [return]. *)
Definition reverse_step (c : context) (d k : Z)
  : outcome (context * option (Z * Z)) :=
  let foff := max c - fmid in
  let roff := max c - rmid in
  up <-
    (if k =? rmid + d then Ok true
     else if negb (k =? rmid - d) then
       p <- index (slice (reverse c)) (roff + k - 1) ;;
       q <- index (slice (reverse c)) (roff + k + 1) ;;
       Ok (p <? q)
     else Ok false) ;;
  x <-
    (if up : bool then index (slice (reverse c)) (roff + k - 1)
     else p <- index (slice (reverse c)) (roff + k + 1) ;; Ok (p - 1)) ;;
  let y := x - k in
  '(x, y) <- snake_up (Z.to_nat (x - aoffset)) aoffset boffset x y ;;
  rv <- store (slice (reverse c)) (roff + k) x ;;
  let c := set_reverse c rv in
  if negb isodd && (k >=? fmid - d) && (k <=? fmid + d) then
    r <- index (slice (reverse c)) (roff + k) ;;
    f <- index (slice (forward c)) (foff + k) ;;
    if r <=? f then
      x <- index (slice (forward c)) (foff + k) ;;
      Ok (c, Some (x, x - k))
    else Ok (c, None)
  else Ok (c, None).

(** [for k := mid - d; k <= mid+d; k += 2 { step }] *)
Fixpoint k_loop (step : context -> Z -> Z -> outcome (context * option (Z * Z)))
    (fuel : nat) (mid : Z) (c : context) (d k : Z)
  : outcome (context * option (Z * Z)) :=
  if k <=? mid + d then
    '(c, r) <- step c d k ;;
    match r with
    | Some p => Ok (c, Some p)
    | None =>
        match fuel with
        | O => OutOfFuel
        | S f => k_loop step f mid c d (k + 2)
        end
    end
  else Ok (c, None).

(** [for d := 0; d <= maxd; d++ { ... }; panic(...)] *)
Fixpoint d_loop (fuel : nat) (c : context) (d : Z) : outcome (context * (Z * Z)) :=
  if d <=? maxd then
    '(c, r) <- k_loop forward_step (Z.to_nat (d + 1)) fmid c d (fmid - d) ;;
    match r with
    | Some p => Ok (c, p)
    | None =>
        '(c, r) <- k_loop reverse_step (Z.to_nat (d + 1)) rmid c d (rmid - d) ;;
        match r with
        | Some p => Ok (c, p)
        | None =>
            match fuel with
            | O => OutOfFuel
            | S f => d_loop f c (d + 1)
            end
        end
    end
  else Panic (Explicit "should never be reached").

Definition findMiddleSnake (c : context) : outcome (context * (Z * Z)) :=
  c <-
    (match forward c with
     | None =>
         f <- make (2 * max c) ;;
         r <- make (2 * max c) ;;
         Ok (mkContext (flags c) (max c) (Some f) (Some r))
     | Some _ => Ok c
     end) ;;
  fw <- store (slice (forward c)) (max c + 1) aoffset ;;
  let c := set_forward c fw in
  rv <- store (slice (reverse c)) (max c - 1) alimit ;;
  let c := set_reverse c rv in
  d_loop (Z.to_nat (maxd + 1)) c 0.

End MiddleSnake.

(** *** [compare] *)

Fixpoint compare (fuel : nat) (c : context) (aoffset boffset alimit blimit : Z)
  : outcome context :=
  match fuel with
  | O => OutOfFuel
  | S fuel =>
      '(aoffset, boffset) <-
        snake_down (Z.to_nat (alimit - aoffset)) alimit blimit aoffset boffset ;;
      '(alimit, blimit) <-
        snake_up (Z.to_nat (alimit - aoffset)) aoffset boffset alimit blimit ;;
      if aoffset =? alimit then
        fl <- mark (Z.to_nat (blimit - boffset)) 2 (flags c) boffset blimit ;;
        Ok (set_flags c fl)
      else if boffset =? blimit then
        fl <- mark (Z.to_nat (alimit - aoffset)) 1 (flags c) aoffset alimit ;;
        Ok (set_flags c fl)
      else
        '(c, (x, y)) <- findMiddleSnake aoffset boffset alimit blimit c ;;
        c <- compare fuel c aoffset boffset x y ;;
        compare fuel c x y alimit blimit
  end.

(** *** [result] *)

(** [for x < n && (y >= m || c.flags[x]&1 != 0) { x++ }] *)
Fixpoint skip_del (fuel : nat) (fl : list Z) (n m x y : Z) : outcome Z :=
  if x <? n then
    go <- (if y >=? m then Ok true
           else v <- index fl x ;; Ok (negb (Z.land v 1 =? 0))) ;;
    if go : bool then
      match fuel with
      | O => OutOfFuel
      | S f => skip_del f fl n m (x + 1) y
      end
    else Ok x
  else Ok x.

(** [for y < m && (x >= n || c.flags[y]&2 != 0) { y++ }] *)
Fixpoint skip_ins (fuel : nat) (fl : list Z) (n m x y : Z) : outcome Z :=
  if y <? m then
    go <- (if x >=? n then Ok true
           else v <- index fl y ;; Ok (negb (Z.land v 2 =? 0))) ;;
    if go : bool then
      match fuel with
      | O => OutOfFuel
      | S f => skip_ins f fl n m x (y + 1)
      end
    else Ok y
  else Ok y.

(** The outer loop of [result]; [res] is the slice built so far. *)
Fixpoint result_loop (fuel : nat) (fl : list Z) (n m x y : Z)
    (res : list Change) : outcome (list Change) :=
  if (x <? n) || (y <? m) then
    same <-
      (if (x <? n) && (y <? m) then
         v <- index fl x ;;
         if Z.land v 1 =? 0 then
           w <- index fl y ;; Ok (Z.land w 2 =? 0)
         else Ok false
       else Ok false) ;;
    match fuel with
    | O => OutOfFuel
    | S f =>
        if same : bool then result_loop f fl n m (x + 1) (y + 1) res
        else
          let a := x in
          let b := y in
          x <- skip_del (Z.to_nat (n - x)) fl n m x y ;;
          y <- skip_ins (Z.to_nat (m - y)) fl n m x y ;;
          if (a <? x) || (b <? y) then
            result_loop f fl n m x y (res ++ [mkChange a b (x - a) (y - b)])
          else result_loop f fl n m x y res
    end
  else Ok res.

Definition result (c : context) (n m : Z) : outcome (list Change) :=
  result_loop (Z.to_nat (n + m)) (flags c) n m 0 0 [].

(** *** [Diff]

    The budget of [compare] is its recursion depth; [N + M + 1] levels are
    enough, as the theorems that [Diff] returns [Ok] show. *)
Definition Diff : outcome (list Change) :=
  let n := N data in
  let m := M data in
  fl <- (if n >? m then make n else make m) ;;
  let c := mkContext fl (n + m + 1) None None in
  c <- compare (Z.to_nat (n + m + 1)) c 0 0 n m ;;
  result c n m.

End Diff.


(** ** The earlier version of the package

    [diff.go] also holds the earlier version of the package, whose
    [Diff(a, b []int)] works on two int slices kept in the context instead
    of on an [Interface].  Its fields [a] and [b] are set once and never
    assigned again; they are the variables of the section below, and the
    rest of the context is the record [context].  The loops over the flags
    ([mark], [skip_del], [skip_ins], [result_loop]) and the loop over [k]
    are the same text as in the later version and are the same
    definitions. *)

Module V1.
Section Diff.

Variables a b : list Z.

(** [for x < alimit && y < blimit && c.a[x] == c.b[y] { x++; y++ }] *)
Fixpoint snake_down (fuel : nat) (alimit blimit x y : Z) : outcome (Z * Z) :=
  if (x <? alimit) && (y <? blimit) then
    p <- index a x ;;
    q <- index b y ;;
    if p =? q then
      match fuel with
      | O => OutOfFuel
      | S f => snake_down f alimit blimit (x + 1) (y + 1)
      end
    else Ok (x, y)
  else Ok (x, y).

(** [for x > aoffset && y > boffset && c.a[x-1] == c.b[y-1] { x--; y-- }] *)
Fixpoint snake_up (fuel : nat) (aoffset boffset x y : Z) : outcome (Z * Z) :=
  if (x >? aoffset) && (y >? boffset) then
    p <- index a (x - 1) ;;
    q <- index b (y - 1) ;;
    if p =? q then
      match fuel with
      | O => OutOfFuel
      | S f => snake_up f aoffset boffset (x - 1) (y - 1)
      end
    else Ok (x, y)
  else Ok (x, y).

Section MiddleSnake.

Variables aoffset boffset alimit blimit : Z.

Let fmid := aoffset - boffset.
Let rmid := alimit - blimit.
Let isodd := negb (Z.land (rmid - fmid) 1 =? 0).
Let maxd := Z.quot (alimit - aoffset + blimit - boffset + 2) 2.

Definition forward_step (c : context) (d k : Z)
  : outcome (context * option (Z * Z)) :=
  let foff := max c - fmid in
  let roff := max c - rmid in
  down <-
    (if k =? fmid - d then Ok true
     else if negb (k =? fmid + d) then
       p <- index (slice (forward c)) (foff + k + 1) ;;
       q <- index (slice (forward c)) (foff + k - 1) ;;
       Ok (p <? q)
     else Ok false) ;;
  x <-
    (if down : bool then index (slice (forward c)) (foff + k + 1)
     else p <- index (slice (forward c)) (foff + k - 1) ;; Ok (p + 1)) ;;
  let y := x - k in
  '(x, y) <- snake_down (Z.to_nat (alimit - x)) alimit blimit x y ;;
  fw <- store (slice (forward c)) (foff + k) x ;;
  let c := set_forward c fw in
  if isodd && (k >? rmid - d) && (k <? rmid + d) then
    r <- index (slice (reverse c)) (roff + k) ;;
    f <- index (slice (forward c)) (foff + k) ;;
    if r <=? f then Ok (c, Some (x, x - k)) else Ok (c, None)
  else Ok (c, None).

Definition reverse_step (c : context) (d k : Z)
  : outcome (context * option (Z * Z)) :=
  let foff := max c - fmid in
  let roff := max c - rmid in
  up <-
    (if k =? rmid + d then Ok true
     else if negb (k =? rmid - d) then
       p <- index (slice (reverse c)) (roff + k - 1) ;;
       q <- index (slice (reverse c)) (roff + k + 1) ;;
       Ok (p <? q)
     else Ok false) ;;
  x <-
    (if up : bool then index (slice (reverse c)) (roff + k - 1)
     else p <- index (slice (reverse c)) (roff + k + 1) ;; Ok (p - 1)) ;;
  let y := x - k in
  '(x, y) <- snake_up (Z.to_nat (x - aoffset)) aoffset boffset x y ;;
  rv <- store (slice (reverse c)) (roff + k) x ;;
  let c := set_reverse c rv in
  if negb isodd && (k >=? fmid - d) && (k <=? fmid + d) then
    r <- index (slice (reverse c)) (roff + k) ;;
    f <- index (slice (forward c)) (foff + k) ;;
    if r <=? f then
      x <- index (slice (forward c)) (foff + k) ;;
      Ok (c, Some (x, x - k))
    else Ok (c, None)
  else Ok (c, None).

Fixpoint d_loop (fuel : nat) (c : context) (d : Z) : outcome (context * (Z * Z)) :=
  if d <=? maxd then
    '(c, r) <- k_loop forward_step (Z.to_nat (d + 1)) fmid c d (fmid - d) ;;
    match r with
    | Some p => Ok (c, p)
    | None =>
        '(c, r) <- k_loop reverse_step (Z.to_nat (d + 1)) rmid c d (rmid - d) ;;
        match r with
        | Some p => Ok (c, p)
        | None =>
            match fuel with
            | O => OutOfFuel
            | S f => d_loop f c (d + 1)
            end
        end
    end
  else Panic (Explicit "should never be reached").

Definition findMiddleSnake (c : context) : outcome (context * (Z * Z)) :=
  c <-
    (match forward c with
     | None =>
         f <- make (2 * max c) ;;
         r <- make (2 * max c) ;;
         Ok (mkContext (flags c) (max c) (Some f) (Some r))
     | Some _ => Ok c
     end) ;;
  fw <- store (slice (forward c)) (max c + 1) aoffset ;;
  let c := set_forward c fw in
  rv <- store (slice (reverse c)) (max c - 1) alimit ;;
  let c := set_reverse c rv in
  d_loop (Z.to_nat (maxd + 1)) c 0.

End MiddleSnake.

Fixpoint compare (fuel : nat) (c : context) (aoffset boffset alimit blimit : Z)
  : outcome context :=
  match fuel with
  | O => OutOfFuel
  | S fuel =>
      '(aoffset, boffset) <-
        snake_down (Z.to_nat (alimit - aoffset)) alimit blimit aoffset boffset ;;
      '(alimit, blimit) <-
        snake_up (Z.to_nat (alimit - aoffset)) aoffset boffset alimit blimit ;;
      if aoffset =? alimit then
        fl <- mark (Z.to_nat (blimit - boffset)) 2 (flags c) boffset blimit ;;
        Ok (set_flags c fl)
      else if boffset =? blimit then
        fl <- mark (Z.to_nat (alimit - aoffset)) 1 (flags c) aoffset alimit ;;
        Ok (set_flags c fl)
      else
        '(c, (x, y)) <- findMiddleSnake aoffset boffset alimit blimit c ;;
        c <- compare fuel c aoffset boffset x y ;;
        compare fuel c x y alimit blimit
  end.

(** [func (c *context) result() (res []Change)], with [n := len(c.a)] and
    [m := len(c.b)]. *)
Definition result (c : context) : outcome (list Change) :=
  let n := len a in
  let m := len b in
  result_loop (Z.to_nat (n + m)) (flags c) n m 0 0 [].

(** [func Diff(a, b []int) []Change] *)
Definition Diff : outcome (list Change) :=
  let n := len a in
  let m := len b in
  fl <- (if n >? m then make n else make m) ;;
  let c := mkContext fl (n + m + 1) None None in
  c <- compare (Z.to_nat (n + m + 1)) c 0 0 n m ;;
  result c.

End Diff.
End V1.

(** ** The tests of the package

    [diff_test.go] keeps its test cases in the package variable [tests],
    which [TestDiffBA] assigns to; the table is passed through the two test
    functions here.  [t.Error] records a failure and the test goes on; a
    panic of [Diff] ends it. *)

Module Tests.

Record testcase : Type := mkTest {
  name : string;
  data : list Z * list Z;
  res : list Change
}.

Definition tests : list testcase := [
  mkTest "shift" ([1; 2; 3], [0; 1; 2; 3]) [mkChange 0 0 0 1];
  mkTest "push" ([1; 2; 3], [1; 2; 3; 4]) [mkChange 3 3 0 1];
  mkTest "unshift" ([0; 1; 2; 3], [1; 2; 3]) [mkChange 0 0 1 0];
  mkTest "pop" ([1; 2; 3; 4], [1; 2; 3]) [mkChange 3 3 1 0];
  mkTest "all changed"
    ([0; 1; 2; 3; 4; 5; 6; 7; 8; 9], [10; 11; 12; 13; 14])
    [mkChange 0 0 10 5];
  mkTest "all same"
    ([0; 1; 2; 3; 4; 5; 6; 7; 8; 9], [0; 1; 2; 3; 4; 5; 6; 7; 8; 9]) [];
  mkTest "wrap" ([1], [0; 1; 2; 3]) [mkChange 0 0 0 1; mkChange 1 2 0 2];
  mkTest "snake" ([0; 1; 2; 3; 4; 5], [1; 2; 3; 4; 5; 6])
    [mkChange 0 0 1 0; mkChange 6 5 0 1];
  mkTest "paper fig. 1" ([1; 2; 3; 1; 2; 2; 1], [3; 2; 1; 2; 1; 3])
    [mkChange 0 0 1 1; mkChange 2 2 1 0; mkChange 5 4 1 0; mkChange 7 5 0 1]
].

(** What a call of [t.Error] reports. *)
Inductive failure : Type :=
  | WrongLength (test : string) (expected : Z) (got : list Change)
  | WrongChange (test : string) (expected got : Change).

(** [c != res[i]] on two [Change] values. *)
Definition differ (c c' : Change) : bool :=
  negb ((A c =? A c') && (B c =? B c') && (Del c =? Del c')
        && (Ins c =? Ins c')).

(** [for i, c := range expected { if c != got[i] { t.Error(...) } }], for
    two slices of the same length; [f] is the flip of [TestDiffBA] or the
    identity. *)
Fixpoint changes (test : string) (f : Change -> Change)
    (expected got : list Change) : list failure :=
  match expected, got with
  | c :: expected', g :: got' =>
      (if differ (f c) g then [WrongChange test (f c) g] else [])
      ++ changes test f expected' got'
  | _, _ => []
  end.

(** The body of the loop over [tests]. *)
Definition check (f : Change -> Change) (t : testcase) (got : list Change)
  : list failure :=
  if negb (len got =? len (res t))
  then [WrongLength (name t) (len (res t)) got]
  else changes (name t) f (res t) got.

Fixpoint TestDiffAB_loop (tbl : list testcase) : outcome (list failure) :=
  match tbl with
  | [] => Ok []
  | t :: tbl' =>
      got <- Diff (Ints (fst (data t)) (snd (data t))) ;;
      rest <- TestDiffAB_loop tbl' ;;
      Ok (check (fun c => c) t got ++ rest)
  end.

Definition TestDiffAB (tbl : list testcase)
  : outcome (list testcase * list failure) :=
  fs <- TestDiffAB_loop tbl ;;
  Ok (tbl, fs).

Fixpoint TestDiffBA_loop (tbl : list testcase) : outcome (list failure) :=
  match tbl with
  | [] => Ok []
  | t :: tbl' =>
      got <- Diff (Ints (snd (data t)) (fst (data t))) ;;
      rest <- TestDiffBA_loop tbl' ;;
      Ok (check (fun c => mkChange (B c) (A c) (Ins c) (Del c)) t got ++ rest)
  end.

(** [tests[len(tests)-1].res = r] *)
Definition set_last_res (tbl : list testcase) (r : list Change)
  : outcome (list testcase) :=
  match rev tbl with
  | [] => Panic (BoundsError (-1) 0)
  | t :: before => Ok (rev before ++ [mkTest (name t) (data t) r])
  end.

Definition TestDiffBA (tbl : list testcase)
  : outcome (list testcase * list failure) :=
  tbl <- set_last_res tbl
           [mkChange 0 0 2 0; mkChange 3 1 1 0; mkChange 5 2 0 1;
            mkChange 7 5 0 1] ;;
  fs <- TestDiffBA_loop tbl ;;
  Ok (tbl, fs).

End Tests.

(** ** The vocabulary of the specification *)

(** Applying a change list to [a] in one pass from left to right: the
    elements of [a] from [pos] up to the next change are kept, then [Ins]
    elements of [b] from offset [B] are inserted and [Del] elements of [a]
    from offset [A] are dropped. *)
Fixpoint apply_from (pos : Z) (cs : list Change) (a b : list Z) : list Z :=
  match cs with
  | [] => skipn (Z.to_nat pos) a
  | c :: cs' =>
      firstn (Z.to_nat (A c - pos)) (skipn (Z.to_nat pos) a)
      ++ firstn (Z.to_nat (Ins c)) (skipn (Z.to_nat (B c)) b)
      ++ apply_from (A c + Del c) cs' a b
  end.

Definition apply_changes (cs : list Change) (a b : list Z) : list Z :=
  apply_from 0 cs a b.

(** The number of single-element deletions and insertions of a script. *)
Definition cost (cs : list Change) : Z :=
  fold_right (fun c s => Del c + Ins c + s) 0 cs.

(** The order of the changes of a script: strictly increasing [A] and [B],
    and no overlap of consecutive changes. *)
Fixpoint ordered (cs : list Change) : Prop :=
  match cs with
  | c :: ((c' :: _) as rest) =>
      A c < A c' /\ B c < B c' /\
      A c + Del c <= A c' /\ B c + Ins c <= B c' /\ ordered rest
  | _ => True
  end.

(** A change with its two sides exchanged. *)
Definition flip (c : Change) : Change :=
  mkChange (B c) (A c) (Ins c) (Del c).

(** The context [Diff] starts [compare] from. *)
Definition initial (data : Interface) (fl : list Z) : context :=
  mkContext fl (N data + M data + 1) None None.

(** The two buffers are both nil, or both allocated with [2*max] entries. *)
Definition sized (c : context) : Prop :=
  (forward c = None /\ reverse c = None) \/
  (exists f r, forward c = Some f /\ reverse c = Some r /\
               len f = 2 * max c /\ len r = 2 * max c).

(** The example of figure 1 of Myers' paper, as in the package's tests. *)
Definition fig1_a : list Z := [1; 2; 3; 1; 2; 2; 1].
Definition fig1_b : list Z := [3; 2; 1; 2; 1; 3].

(** A context whose buffers are allocated, with fixed [max] and [flags]. *)
Definition allocated (mx : Z) (fl : list Z) (c : context) : Prop :=
  max c = mx /\ flags c = fl /\
  exists f r, forward c = Some f /\ reverse c = Some r /\
              len f = 2 * mx /\ len r = 2 * mx.

(** [Equal] made total: what a run sees as long as no call of [Equal]
    fails, with [false] where a call would fail. *)
Definition eqb_of (data : Interface) (i j : Z) : bool :=
  match Equal data i j with Ok e => e | _ => false end.

Definition total (data : Interface) : Interface := {|
  N := N data;
  M := M data;
  Equal := fun i j => Ok (eqb_of data i j)
|}.

(** [r] ends the way the failing call [e] does. *)
Definition fails_as {T U : Type} (e : outcome U) (r : outcome T) : Prop :=
  match e with
  | Ok _ => False
  | Panic p => r = Panic p
  | OutOfFuel => r = OutOfFuel
  end.

(** [r], a run over [data], follows [r'], the same run over [total data]:
    the two agree, or [r] ends where a call of [Equal] fails. *)
Definition follows (data : Interface) {T : Type} (r r' : outcome T) : Prop :=
  r = r' \/ exists i j, fails_as (Equal data i j) r.

(** A run whose only panics are index panics on a slice of [L] entries. *)
Definition panics_within (L : Z) {T : Type} (r : outcome T) : Prop :=
  forall p, r = Panic p -> exists q, p = BoundsError q L.

(** *** What [result] reads off the flags

    A position pair is kept when neither of its two flags is set. *)
Definition kept (fl : list Z) (x y : Z) : Prop :=
  Z.land (rd fl x) 1 = 0 /\ Z.land (rd fl y) 2 = 0.

(** [cs] is a path from [(x, y)] to [(n, m)]: stretches that advance by the
    same length in both sequences, separated by changes that delete or
    insert at least one element and stay within the two sequences. *)
Fixpoint path (n m x y : Z) (cs : list Change) : Prop :=
  match cs with
  | [] => x <= n /\ n - x = m - y
  | c :: cs' =>
      x <= A c /\ A c - x = B c - y /\
      0 <= Del c /\ 0 <= Ins c /\ 0 < Del c + Ins c /\
      A c + Del c <= n /\ B c + Ins c <= m /\
      path n m (A c + Del c) (B c + Ins c) cs'
  end.

(** [cs] is such a path and follows the flags [fl]: the stretches are kept
    pairs; the elements a change deletes are flagged with bit 1, unless the
    second sequence is used up where the change starts; the elements it
    inserts are flagged with bit 2, unless the first sequence is used up
    after the deletion. *)
Fixpoint reads (fl : list Z) (n m x y : Z) (cs : list Change) : Prop :=
  match cs with
  | [] =>
      x <= n /\ n - x = m - y /\
      (forall t, 0 <= t < n - x -> kept fl (x + t) (y + t))
  | c :: cs' =>
      x <= A c /\ A c - x = B c - y /\
      (forall t, 0 <= t < A c - x -> kept fl (x + t) (y + t)) /\
      0 <= Del c /\ 0 <= Ins c /\ 0 < Del c + Ins c /\
      A c + Del c <= n /\ B c + Ins c <= m /\
      (forall i, A c <= i < A c + Del c -> B c < m ->
         Z.land (rd fl i) 1 <> 0) /\
      (forall j, B c <= j < B c + Ins c -> A c + Del c < n ->
         Z.land (rd fl j) 2 <> 0) /\
      reads fl n m (A c + Del c) (B c + Ins c) cs'
  end.

(** *** What a call of [findMiddleSnake] writes

    [c'] has the [max] and the flags of [c], and its two buffers hold what
    those of [c] hold at every index outside of [max-w .. max+w]. *)
Definition same_outside (w : Z) (c c' : context) : Prop :=
  max c' = max c /\ flags c' = flags c /\
  forall i, 0 <= i -> i < max c - w \/ max c + w < i ->
    rd (slice (forward c')) i = rd (slice (forward c)) i /\
    rd (slice (reverse c')) i = rd (slice (reverse c)) i.

(** The buffers of [c] at the diagonal of the point [p]: the forward buffer
    holds the point, the reverse buffer an entry at or before it.  The
    entry of diagonal [k] is at index [max - mid + k], with [mid] the
    diagonal of the start for the forward buffer and that of the end for
    the reverse buffer. *)
Definition meets_at (aoffset boffset alimit blimit : Z) (c : context)
    (p : Z * Z) : Prop :=
  rd (slice (forward c)) (max c - (aoffset - boffset) + (fst p - snd p))
    = fst p /\
  rd (slice (reverse c)) (max c - (alimit - blimit) + (fst p - snd p))
    <= fst p.

(** ** The search of [findMiddleSnake] without its buffers

    The endpoints that the two loops over [k] store are functions of the
    diagonal: [FW d k] is the entry of the forward buffer for diagonal [k]
    after round [d], [RW d k] the entry of the reverse buffer.  The
    refinement lemmas below show that the buffers hold exactly these
    values. *)

Section Model.

Variable data : Interface.
Variables aoffset boffset alimit blimit : Z.

(** Where the forward snake loop stops when started at [x] on diagonal [k]. *)
Definition slide_down (x k : Z) : Z :=
  match snake_down data (Z.to_nat (alimit - x)) alimit blimit x (x - k) with
  | Ok (x', _) => x'
  | _ => x
  end.

Definition slide_up (x k : Z) : Z :=
  match snake_up data (Z.to_nat (x - aoffset)) aoffset boffset x (x - k) with
  | Ok (x', _) => x'
  | _ => x
  end.

(** The choice between "down" and "right" of the forward search, and
    between "up" and "left" of the reverse search, on the entries [V]. *)
Definition fpre (V : Z -> Z) (d k : Z) : Z :=
  if k =? aoffset - boffset - d then V (k + 1)
  else if negb (k =? aoffset - boffset + d) && (V (k + 1) <? V (k - 1))
       then V (k + 1)
       else V (k - 1) + 1.

Definition rpre (V : Z -> Z) (d k : Z) : Z :=
  if k =? alimit - blimit + d then V (k - 1)
  else if negb (k =? alimit - blimit - d) && (V (k - 1) <? V (k + 1))
       then V (k - 1)
       else V (k + 1) - 1.

Fixpoint FW (d : nat) (k : Z) : Z :=
  match d with
  | O => slide_down (fpre (fun _ => aoffset) 0 k) k
  | S d' => slide_down (fpre (FW d') (Z.of_nat d) k) k
  end.

Fixpoint RW (d : nat) (k : Z) : Z :=
  match d with
  | O => slide_up (rpre (fun _ => alimit) 0 k) k
  | S d' => slide_up (rpre (RW d') (Z.of_nat d) k) k
  end.

Definition odd_delta : bool :=
  negb (Z.land (alimit - blimit - (aoffset - boffset)) 1 =? 0).

(** The two tests that end the search. *)
Definition hitF (d : nat) (k : Z) : bool :=
  odd_delta && (k >? alimit - blimit - Z.of_nat d)
  && (k <? alimit - blimit + Z.of_nat d)
  && (RW (pred d) k <=? FW d k).

Definition hitR (d : nat) (k : Z) : bool :=
  negb odd_delta && (k >=? aoffset - boffset - Z.of_nat d)
  && (k <=? aoffset - boffset + Z.of_nat d)
  && (RW d k <=? FW d k).

(** The [i]th diagonal of round [d] of the forward and of the reverse
    search, [0 <= i <= d]. *)
Definition kf (d : nat) (i : Z) : Z := aoffset - boffset - Z.of_nat d + 2 * i.
Definition kr (d : nat) (i : Z) : Z := alimit - blimit - Z.of_nat d + 2 * i.

(** Round [d] ends without a [return]. *)
Definition quietF (d : nat) : Prop :=
  forall i, 0 <= i <= Z.of_nat d -> hitF d (kf d i) = false.
Definition quietR (d : nat) : Prop :=
  forall i, 0 <= i <= Z.of_nat d -> hitR d (kr d i) = false.

(** The search returns in round [d] on diagonal [k]. *)
Definition meets (d : nat) (k : Z) : Prop :=
  (forall d', (d' < d)%nat -> quietF d' /\ quietR d') /\
  ((exists i, 0 <= i <= Z.of_nat d /\ k = kf d i /\ hitF d k = true) \/
   (quietF d /\
    exists i, 0 <= i <= Z.of_nat d /\ k = kr d i /\ hitR d k = true)).

(** The entries of the two buffers, by diagonal. *)
Definition Fv (c : context) (k : Z) : Z :=
  rd (slice (forward c)) (max c - (aoffset - boffset) + k).

Definition Rv (c : context) (k : Z) : Z :=
  rd (slice (reverse c)) (max c - (alimit - blimit) + k).

(** The buffers hold the entries of round [d - 1], or, before round 0, the
    two values that [findMiddleSnake] stores at [max+1] and [max-1]. *)
Definition agreeF (c : context) (d : nat) : Prop :=
  match d with
  | O => Fv c (aoffset - boffset + 1) = aoffset
  | S d' => forall i, 0 <= i <= Z.of_nat d' -> Fv c (kf d' i) = FW d' (kf d' i)
  end.

Definition agreeR (c : context) (d : nat) : Prop :=
  match d with
  | O => Rv c (alimit - blimit - 1) = alimit
  | S d' => forall i, 0 <= i <= Z.of_nat d' -> Rv c (kr d' i) = RW d' (kr d' i)
  end.

(** Where the entries of round [d] can lie: at or after the start of the
    rectangle and [d] steps away from it, at or before its end and [d]
    steps away from it. *)
Definition afterF (d : nat) (x k : Z) : Prop :=
  aoffset <= x /\ boffset <= x - k /\
  aoffset + boffset + Z.of_nat d <= 2 * x - k.

Definition beforeR (d : nat) (x k : Z) : Prop :=
  x <= alimit /\ x - k <= blimit /\
  2 * x - k <= alimit + blimit - Z.of_nat d.

(** The entries that round [d] reads. *)
Definition prevF (d : nat) : Z -> Z :=
  match d with O => fun _ => aoffset | S d' => FW d' end.
Definition prevR (d : nat) : Z -> Z :=
  match d with O => fun _ => alimit | S d' => RW d' end.

End Model.

(** * Properties *)

(** ** Slices *)

Lemma len_nonneg {T : Type} (l : list T) : 0 <= len l.
Proof. unfold len. lia. Qed.

Lemma len_repeat (x : Z) (n : nat) : len (repeat x n) = Z.of_nat n.
Proof. unfold len. now rewrite repeat_length. Qed.

Lemma in_range_true {T : Type} (l : list T) (i : Z) :
  0 <= i < len l -> in_range l i = true.
Proof. intros H. unfold in_range. apply andb_true_intro. split; lia. Qed.

Lemma in_range_false {T : Type} (l : list T) (i : Z) :
  ~ (0 <= i < len l) -> in_range l i = false.
Proof.
  intros H. unfold in_range.
  destruct (0 <=? i) eqn:E1; destruct (i <? len l) eqn:E2; simpl; trivial; lia.
Qed.

Lemma index_ok (l : list Z) (i : Z) :
  0 <= i < len l -> index l i = Ok (rd l i).
Proof. intros H. unfold index. now rewrite in_range_true. Qed.

Lemma store_ok (l : list Z) (i v : Z) :
  0 <= i < len l -> store l i v = Ok (update l (Z.to_nat i) v).
Proof. intros H. unfold store. now rewrite in_range_true. Qed.

Lemma length_update (l : list Z) (i : nat) (v : Z) :
  List.length (update l i v) = List.length l.
Proof.
  revert i. induction l as [|h t IH]; intros [|i]; simpl; trivial.
  now rewrite IH.
Qed.

Lemma len_update (l : list Z) (i : nat) (v : Z) : len (update l i v) = len l.
Proof. unfold len. now rewrite length_update. Qed.

Lemma nth_update_same (l : list Z) (i : nat) (v : Z) :
  (i < List.length l)%nat -> nth i (update l i v) 0 = v.
Proof.
  revert i. induction l as [|h t IH]; intros [|i] H; simpl in *; try lia; trivial.
  apply IH. lia.
Qed.

Lemma nth_update_other (l : list Z) (i j : nat) (v : Z) :
  i <> j -> nth j (update l i v) 0 = nth j l 0.
Proof.
  revert i j. induction l as [|h t IH]; intros [|i] [|j] H; simpl; trivial.
  - lia.
  - apply IH. lia.
Qed.

Lemma rd_update_same (l : list Z) (i v : Z) :
  0 <= i < len l -> rd (update l (Z.to_nat i) v) i = v.
Proof.
  intros H. unfold rd. apply nth_update_same. unfold len in H. lia.
Qed.

Lemma rd_update_other (l : list Z) (i j v : Z) :
  0 <= i -> 0 <= j -> i <> j -> rd (update l (Z.to_nat i) v) j = rd l j.
Proof.
  intros Hi Hj H. unfold rd. apply nth_update_other. lia.
Qed.

Lemma rd_repeat (n : nat) (i : Z) : rd (repeat 0 n) i = 0.
Proof. unfold rd. apply nth_repeat. Qed.

Lemma make_ok (n : Z) : 0 <= n -> make n = Ok (repeat 0 (Z.to_nat n)).
Proof.
  intros H. unfold make. destruct (n <? 0) eqn:E; trivial. lia.
Qed.

Lemma len_make (n : Z) (l : list Z) : make n = Ok l -> len l = n.
Proof.
  unfold make. destruct (n <? 0) eqn:E; intros H; inversion H.
  rewrite len_repeat. lia.
Qed.

(** Comparisons that linear arithmetic decides are replaced by their value. *)
Ltac cmp :=
  rewrite ?Z.geb_leb, ?Z.gtb_ltb;
  repeat match goal with
  | |- context [?a <? ?b] =>
      first [ rewrite (proj2 (Z.ltb_lt a b)) by lia
            | rewrite (proj2 (Z.ltb_ge a b)) by lia ]
  | |- context [?a <=? ?b] =>
      first [ rewrite (proj2 (Z.leb_le a b)) by lia
            | rewrite (proj2 (Z.leb_gt a b)) by lia ]
  | |- context [?a =? ?b] =>
      first [ rewrite (proj2 (Z.eqb_eq a b)) by lia
            | rewrite (proj2 (Z.eqb_neq a b)) by lia ]
  end.

(** ** [result]: reading a change list off the flags *)

Section Result.

Variables (fl : list Z) (n m : Z).
Hypothesis Hn : n <= len fl.
Hypothesis Hm : m <= len fl.

Lemma result_loop_done (fuel : nat) (x y : Z) (res : list Change) :
  n <= x -> m <= y -> result_loop fuel fl n m x y res = Ok res.
Proof.
  intros Hx Hy. destruct fuel; simpl;
    destruct (x <? n) eqn:E1; destruct (y <? m) eqn:E2; simpl; trivial; lia.
Qed.

(** A run of [k] positions unmarked on both sides is walked over. *)
Lemma result_loop_same (k : nat) : forall (fuel : nat) (x y : Z) res,
  0 <= x -> 0 <= y -> x + Z.of_nat k <= n -> y + Z.of_nat k <= m ->
  (forall i, 0 <= i < Z.of_nat k ->
     Z.land (rd fl (x + i)) 1 = 0 /\ Z.land (rd fl (y + i)) 2 = 0) ->
  result_loop (k + fuel) fl n m x y res
  = result_loop fuel fl n m (x + Z.of_nat k) (y + Z.of_nat k) res.
Proof.
  induction k as [|k IH]; intros fuel x y res Hx Hy Hxn Hym Hfl.
  - simpl. now rewrite !Z.add_0_r.
  - destruct (Hfl 0 ltac:(lia)) as [H1 H2]. rewrite !Z.add_0_r in *.
    cbn [Nat.add result_loop].
    replace (x <? n) with true by (symmetry; apply Z.ltb_lt; lia).
    replace (y <? m) with true by (symmetry; apply Z.ltb_lt; lia).
    cbn [orb andb].
    rewrite (index_ok fl x) by lia. cbn [bind]. rewrite H1. cbn [Z.eqb].
    rewrite (index_ok fl y) by lia. cbn [bind]. rewrite H2. cbn [Z.eqb].
    rewrite IH; try lia.
    + f_equal; lia.
    + intros i Hi. replace (x + 1 + i) with (x + (i + 1)) by lia.
      replace (y + 1 + i) with (y + (i + 1)) by lia. apply Hfl. lia.
Qed.

Lemma skip_del_all : forall (fuel : nat) (x y : Z),
  m <= y -> x <= n -> (Z.to_nat (n - x) <= fuel)%nat ->
  skip_del fuel fl n m x y = Ok n.
Proof.
  induction fuel as [|fuel IH]; intros x y Hy Hx Hf.
  - simpl. assert (x = n) by lia. subst. now cmp.
  - simpl. destruct (x <? n) eqn:E.
    + cmp. cbn [bind]. apply IH; lia.
    + f_equal. lia.
Qed.

Lemma skip_ins_all : forall (fuel : nat) (x y : Z),
  n <= x -> y <= m -> (Z.to_nat (m - y) <= fuel)%nat ->
  skip_ins fuel fl n m x y = Ok m.
Proof.
  induction fuel as [|fuel IH]; intros x y Hx Hy Hf.
  - simpl. assert (y = m) by lia. subst. now cmp.
  - simpl. destruct (y <? m) eqn:E.
    + cmp. cbn [bind]. apply IH; lia.
    + f_equal. lia.
Qed.

(** A run of [k] positions marked as deleted is skipped; the run ends at the
    end of the sequence or at an unmarked position. *)
Lemma skip_del_run (k : nat) : forall (fuel : nat) (x y : Z),
  y < m -> 0 <= x -> x + Z.of_nat k <= n -> (k <= fuel)%nat ->
  (forall i, 0 <= i < Z.of_nat k -> Z.land (rd fl (x + i)) 1 <> 0) ->
  (x + Z.of_nat k = n \/ Z.land (rd fl (x + Z.of_nat k)) 1 = 0) ->
  skip_del fuel fl n m x y = Ok (x + Z.of_nat k).
Proof.
  induction k as [|k IH]; intros fuel x y Hy Hx Hxn Hf Hrun Hend.
  - rewrite Z.add_0_r in *. destruct fuel; simpl;
      (destruct (x <? n) eqn:E; [|reflexivity]);
      (replace (y >=? m) with false by (symmetry; cmp; reflexivity));
      (rewrite (index_ok fl x) by lia); cbn [bind];
      (destruct Hend as [Hend|Hend]; [lia|]); now rewrite Hend.
  - destruct fuel as [|fuel]; [lia|]. simpl.
    replace (x <? n) with true by (symmetry; cmp; reflexivity).
    replace (y >=? m) with false by (symmetry; cmp; reflexivity).
    rewrite (index_ok fl x) by lia. cbn [bind].
    specialize (Hrun 0 ltac:(lia)) as H0. rewrite Z.add_0_r in H0.
    apply Z.eqb_neq in H0. rewrite H0. cbn [negb].
    rewrite IH; try lia.
    + f_equal. lia.
    + intros i Hi. replace (x + 1 + i) with (x + (i + 1)) by lia.
      apply Hrun. lia.
    + replace (x + 1 + Z.of_nat k) with (x + Z.of_nat (S k)) by lia. exact Hend.
Qed.

Lemma skip_ins_run (k : nat) : forall (fuel : nat) (x y : Z),
  x < n -> 0 <= y -> y + Z.of_nat k <= m -> (k <= fuel)%nat ->
  (forall i, 0 <= i < Z.of_nat k -> Z.land (rd fl (y + i)) 2 <> 0) ->
  (y + Z.of_nat k = m \/ Z.land (rd fl (y + Z.of_nat k)) 2 = 0) ->
  skip_ins fuel fl n m x y = Ok (y + Z.of_nat k).
Proof.
  induction k as [|k IH]; intros fuel x y Hx Hy Hym Hf Hrun Hend.
  - rewrite Z.add_0_r in *. destruct fuel; simpl;
      (destruct (y <? m) eqn:E; [|reflexivity]);
      (replace (x >=? n) with false by (symmetry; cmp; reflexivity));
      (rewrite (index_ok fl y) by lia); cbn [bind];
      (destruct Hend as [Hend|Hend]; [lia|]); now rewrite Hend.
  - destruct fuel as [|fuel]; [lia|]. simpl.
    replace (y <? m) with true by (symmetry; cmp; reflexivity).
    replace (x >=? n) with false by (symmetry; cmp; reflexivity).
    rewrite (index_ok fl y) by lia. cbn [bind].
    specialize (Hrun 0 ltac:(lia)) as H0. rewrite Z.add_0_r in H0.
    apply Z.eqb_neq in H0. rewrite H0. cbn [negb].
    rewrite IH; try lia.
    + f_equal. lia.
    + intros i Hi. replace (y + 1 + i) with (y + (i + 1)) by lia.
      apply Hrun. lia.
    + replace (y + 1 + Z.of_nat k) with (y + Z.of_nat (S k)) by lia. exact Hend.
Qed.

(** Flags that mark one block [[p, p+k)] of the first sequence as deleted
    and one block [[p, p+l)] of the second as inserted give one change. *)
Lemma result_block (p k l s : Z) :
  0 <= p -> 0 <= k -> 0 <= l -> 0 <= s ->
  n = p + k + s -> m = p + l + s ->
  (forall i, 0 <= i < n ->
     (p <= i < p + k -> Z.land (rd fl i) 1 <> 0) /\
     (~ p <= i < p + k -> Z.land (rd fl i) 1 = 0)) ->
  (forall j, 0 <= j < m ->
     (p <= j < p + l -> Z.land (rd fl j) 2 <> 0) /\
     (~ p <= j < p + l -> Z.land (rd fl j) 2 = 0)) ->
  result_loop (Z.to_nat (n + m)) fl n m 0 0 []
  = Ok (if 0 <? k + l then [mkChange p p k l] else []).
Proof.
  intros Hp Hk Hl Hs En Em HA HB.
  replace (Z.to_nat (n + m)) with (Z.to_nat p + Z.to_nat (n + m - p))%nat by lia.
  rewrite result_loop_same; try lia.
  2:{ intros i Hi. split; [apply HA | apply HB]; lia. }
  rewrite Z2Nat.id by lia. cbn [Z.add].
  destruct (0 <? k + l) eqn:Ekl.
  - apply Z.ltb_lt in Ekl.
    replace (Z.to_nat (n + m - p))
      with (S (Z.to_nat s + Z.to_nat (n + m - p - 1 - s)))%nat by lia.
    cbn [result_loop].
    replace ((p <? n) || (p <? m)) with true
      by (symmetry; apply orb_true_iff; rewrite !Z.ltb_lt; lia).
    assert (Esame :
      (if (p <? n) && (p <? m)
       then v <- index fl p ;;
            (if Z.land v 1 =? 0
             then w <- index fl p ;; Ok (Z.land w 2 =? 0)
             else Ok false)
       else Ok false) = Ok false).
    { destruct ((p <? n) && (p <? m)) eqn:E; trivial.
      apply andb_true_iff in E. rewrite !Z.ltb_lt in E.
      rewrite index_ok by lia. cbn [bind].
      destruct (Z.land (rd fl p) 1 =? 0) eqn:E1; trivial.
      apply Z.eqb_eq in E1.
      assert (k = 0).
      { destruct (Z.eq_dec k 0); trivial.
        exfalso. apply (proj1 (HA p ltac:(lia))); [lia | exact E1]. }
      f_equal. apply Z.eqb_neq. apply (proj1 (HB p ltac:(lia))). lia. }
    rewrite Esame. cbn [bind].
    assert (Edel : skip_del (Z.to_nat (n - p)) fl n m p p = Ok (p + k)).
    { destruct (Z_lt_le_dec p m) as [Hpm|Hpm].
      - replace (p + k) with (p + Z.of_nat (Z.to_nat k)) by lia.
        apply skip_del_run; try lia.
        + intros i Hi. apply HA; lia.
        + rewrite Z2Nat.id by lia.
          destruct (Z.eq_dec s 0); [left; lia | right; apply HA; lia].
      - rewrite skip_del_all; try lia. f_equal. lia. }
    rewrite Edel. cbn [bind].
    assert (Eins : skip_ins (Z.to_nat (m - p)) fl n m (p + k) p = Ok (p + l)).
    { destruct (Z_lt_le_dec (p + k) n) as [Hpn|Hpn].
      - replace (p + l) with (p + Z.of_nat (Z.to_nat l)) by lia.
        apply skip_ins_run; try lia.
        + intros i Hi. apply HB; lia.
        + rewrite Z2Nat.id by lia.
          destruct (Z.eq_dec s 0); [left; lia | right; apply HB; lia].
      - rewrite skip_ins_all; try lia. f_equal. lia. }
    rewrite Eins. cbn [bind].
    replace ((p <? p + k) || (p <? p + l)) with true
      by (symmetry; apply orb_true_iff; rewrite !Z.ltb_lt; lia).
    rewrite result_loop_same; try lia.
    2:{ intros i Hi. split; [apply HA | apply HB]; lia. }
    rewrite result_loop_done by lia.
    cbn [app]. repeat f_equal; lia.
  - apply Z.ltb_ge in Ekl.
    replace (Z.to_nat (n + m - p))
      with (Z.to_nat s + Z.to_nat (n + m - p - s))%nat by lia.
    rewrite result_loop_same; try lia.
    2:{ intros i Hi. split; [apply HA | apply HB]; lia. }
    apply result_loop_done; lia.
Qed.

End Result.

(** ** [mark]: the two marking loops of [compare] *)

Lemma mark_ok (bit : Z) : forall (fuel : nat) (fl : list Z) (i limit : Z),
  0 <= i -> limit <= len fl -> (Z.to_nat (limit - i) <= fuel)%nat ->
  exists fl',
    mark fuel bit fl i limit = Ok fl' /\ len fl' = len fl /\
    forall j, 0 <= j ->
      rd fl' j = if (i <=? j) && (j <? limit) then Z.lor (rd fl j) bit
                 else rd fl j.
Proof.
  induction fuel as [|fuel IH]; intros fl i limit Hi Hl Hf.
  - exists fl. simpl. cmp. repeat split; trivial.
    intros j Hj. destruct (i <=? j) eqn:E; trivial. cmp. reflexivity.
  - simpl. destruct (i <? limit) eqn:E.
    + apply Z.ltb_lt in E.
      rewrite index_ok by lia. cbn [bind].
      rewrite store_ok by lia. cbn [bind].
      destruct (IH (update fl (Z.to_nat i) (Z.lor (rd fl i) bit)) (i + 1) limit)
        as (fl' & E1 & E2 & E3); try lia.
      { rewrite len_update. lia. }
      exists fl'. rewrite len_update in E2. repeat split; trivial.
      intros j Hj. rewrite (E3 j Hj).
      destruct (Z.eq_dec i j) as [->|Hne].
      * cmp. cbn [andb]. now rewrite rd_update_same by lia.
      * rewrite rd_update_other by lia.
        destruct (Z_lt_le_dec j i); cmp; reflexivity.
    + apply Z.ltb_ge in E. exists fl. repeat split; trivial.
      intros j Hj. destruct (i <=? j) eqn:E'; trivial. cmp. reflexivity.
Qed.

(** ** Inputs that need no middle snake

    When trimming the common prefix and the common suffix leaves one side
    empty, [compare] marks one block and [Diff] returns at most one change. *)

Lemma Diff_one_block (data : Interface) (p k l : Z) :
  0 <= p -> 0 <= k -> 0 <= l -> k = 0 \/ l = 0 ->
  p + k <= N data -> N data - k = M data - l ->
  snake_down data (Z.to_nat (N data)) (N data) (M data) 0 0 = Ok (p, p) ->
  snake_up data (Z.to_nat (N data - p)) p p (N data) (M data)
    = Ok (p + k, p + l) ->
  Diff data = Ok (if 0 <? k + l then [mkChange p p k l] else []).
Proof.
  intros Hp Hk Hl Hkl Hpn Hnm Edown Eup.
  unfold Diff.
  set (n := N data) in *. set (m := M data) in *.
  assert (Hmake : (if n >? m then make n else make m)
                  = Ok (repeat 0 (Z.to_nat (Z.max n m)))).
  { destruct (n >? m) eqn:E; rewrite Z.gtb_ltb in E.
    - apply Z.ltb_lt in E. rewrite make_ok by lia. now rewrite Z.max_l by lia.
    - apply Z.ltb_ge in E. rewrite make_ok by lia. now rewrite Z.max_r by lia. }
  rewrite Hmake. cbn [bind].
  set (fl0 := repeat 0 (Z.to_nat (Z.max n m))).
  assert (Hlen0 : len fl0 = Z.max n m) by (unfold fl0; rewrite len_repeat; lia).
  replace (Z.to_nat (n + m + 1)) with (S (Z.to_nat (n + m))) by lia.
  cbn [compare]. rewrite Z.sub_0_r, Edown. cbn [bind].
  rewrite Eup. cbn [bind flags].
  assert (Hmark : exists fl',
    (if p =? p + k
     then fl <- mark (Z.to_nat (p + l - p)) 2 fl0 p (p + l) ;;
          Ok (set_flags (mkContext fl0 (n + m + 1) None None) fl)
     else if p =? p + l
     then fl <- mark (Z.to_nat (p + k - p)) 1 fl0 p (p + k) ;;
          Ok (set_flags (mkContext fl0 (n + m + 1) None None) fl)
     else '(c, (x, y)) <- findMiddleSnake data p p (p + k) (p + l)
                            (mkContext fl0 (n + m + 1) None None) ;;
          c0 <- compare data (Z.to_nat (n + m)) c p p x y ;;
          compare data (Z.to_nat (n + m)) c0 x y (p + k) (p + l))
    = Ok (mkContext fl' (n + m + 1) None None) /\ len fl' = len fl0 /\
    (forall i, 0 <= i ->
       rd fl' i = if (p <=? i) && (i <? p + k) then 1
                  else if (p <=? i) && (i <? p + l) then 2 else 0)).
  { destruct (p =? p + k) eqn:E1.
    - apply Z.eqb_eq in E1. assert (k = 0) by lia. subst k.
      destruct (mark_ok 2 (Z.to_nat (p + l - p)) fl0 p (p + l))
        as (fl' & E2 & E3 & E4); try lia.
      exists fl'. rewrite E2. cbn [bind]. repeat split; trivial.
      intros i Hi. rewrite (E4 i Hi). unfold fl0. rewrite rd_repeat.
      destruct (p <=? i) eqn:Ea; cbn [andb]; trivial.
      cmp. reflexivity.
    - apply Z.eqb_neq in E1. assert (l = 0) by lia. subst l.
      cmp.
      destruct (mark_ok 1 (Z.to_nat (p + k - p)) fl0 p (p + k))
        as (fl' & E2 & E3 & E4); try lia.
      exists fl'. rewrite E2. cbn [bind]. repeat split; trivial.
      intros i Hi. rewrite (E4 i Hi). unfold fl0. rewrite rd_repeat.
      destruct ((p <=? i) && (i <? p + k)) eqn:Ea; trivial.
      destruct (p <=? i) eqn:Eb; cbn [andb]; trivial.
      cmp. reflexivity. }
  destruct Hmark as (fl' & E1 & E2 & E3). rewrite E1. cbn [bind].
  unfold result. cbn [flags].
  apply (result_block fl' n m ltac:(lia) ltac:(lia) p k l (n - k - p));
    try lia.
  - intros i Hi. rewrite (E3 i) by lia. split; intros H.
    + replace ((p <=? i) && (i <? p + k)) with true; [discriminate|].
      symmetry. apply andb_true_iff. rewrite Z.leb_le, Z.ltb_lt. lia.
    + destruct ((p <=? i) && (i <? p + k)) eqn:E.
      * apply andb_true_iff in E. rewrite Z.leb_le, Z.ltb_lt in E. lia.
      * destruct ((p <=? i) && (i <? p + l)); reflexivity.
  - intros j Hj. rewrite (E3 j) by lia. split; intros H.
    + destruct ((p <=? j) && (j <? p + k)) eqn:E.
      * apply andb_true_iff in E. rewrite Z.leb_le, Z.ltb_lt in E. lia.
      * replace ((p <=? j) && (j <? p + l)) with true; [discriminate|].
        symmetry. apply andb_true_iff. rewrite Z.leb_le, Z.ltb_lt. lia.
    + destruct ((p <=? j) && (j <? p + k)) eqn:E; [reflexivity|].
      destruct ((p <=? j) && (j <? p + l)) eqn:E'; [|reflexivity].
      apply andb_true_iff in E'. rewrite Z.leb_le, Z.ltb_lt in E'. lia.
Qed.

Lemma snake_down_stop (data : Interface) (fuel : nat) (alimit blimit x y : Z) :
  (x <? alimit) && (y <? blimit) = false ->
  snake_down data fuel alimit blimit x y = Ok (x, y).
Proof. intros H. destruct fuel; simpl; now rewrite H. Qed.

Lemma snake_up_stop (data : Interface) (fuel : nat) (aoffset boffset x y : Z) :
  (x >? aoffset) && (y >? boffset) = false ->
  snake_up data fuel aoffset boffset x y = Ok (x, y).
Proof. intros H. destruct fuel; simpl; now rewrite H. Qed.

(** Two equal sequences: the prefix loop of [compare] walks to the end. *)
Lemma snake_down_equal (data : Interface) (n : Z) :
  (forall i, 0 <= i < n -> Equal data i i = Ok true) ->
  forall (fuel : nat) (x : Z),
    0 <= x <= n -> (Z.to_nat (n - x) <= fuel)%nat ->
    snake_down data fuel n n x x = Ok (n, n).
Proof.
  intros Heq. induction fuel as [|fuel IH]; intros x Hx Hf.
  - assert (x = n) by lia. subst. apply snake_down_stop. now cmp.
  - destruct (Z.eq_dec x n) as [->|Hne].
    + apply snake_down_stop. now cmp.
    + simpl. cmp. cbn [andb]. rewrite Heq by lia. cbn [bind].
      apply IH; lia.
Qed.

(** C4. Diffing a sequence against itself ([N = M] and [Equal(i, i)] true
    for every position [i]) returns the empty change list. *)
Theorem C4_diff_self_is_empty (data : Interface) :
  0 <= N data -> M data = N data ->
  (forall i, 0 <= i < N data -> Equal data i i = Ok true) ->
  Diff data = Ok [].
Proof.
  intros Hn Hm Heq.
  apply (Diff_one_block data (N data) 0 0); try lia.
  - rewrite Hm. apply snake_down_equal; trivial; lia.
  - rewrite Hm, !Z.add_0_r. apply snake_up_stop. now cmp.
Qed.

Lemma C4_diff_self_is_empty_witness :
  Diff (Ints [3; 1; 4; 1; 5] [3; 1; 4; 1; 5]) = Ok [].
Proof.
  apply C4_diff_self_is_empty.
  - vm_compute. discriminate.
  - reflexivity.
  - intros i Hi. change (N (Ints [3; 1; 4; 1; 5] [3; 1; 4; 1; 5])) with 5 in Hi.
    assert (H : i = 0 \/ i = 1 \/ i = 2 \/ i = 3 \/ i = 4) by lia.
    destruct H as [->|[->|[->|[->| ->]]]]; reflexivity.
Defined.

(** C9. Two empty sequences give the empty change list; when exactly one
    sequence is empty, [Diff] returns the single change that deletes the
    whole first sequence, or inserts the whole second one. *)
Theorem C9_empty_sequences (data : Interface) :
  (N data = 0 -> M data = 0 -> Diff data = Ok []) /\
  (0 < N data -> M data = 0 ->
   Diff data = Ok [mkChange 0 0 (N data) 0]) /\
  (N data = 0 -> 0 < M data ->
   Diff data = Ok [mkChange 0 0 0 (M data)]).
Proof.
  repeat split.
  - intros Hn Hm.
    apply (Diff_one_block data 0 0 0); try lia;
      rewrite Hn, Hm; reflexivity.
  - intros Hn Hm.
    replace (Ok [mkChange 0 0 (N data) 0])
      with (Ok (if 0 <? N data + 0 then [mkChange 0 0 (N data) 0] else []))
      by (now cmp).
    apply (Diff_one_block data 0 (N data) 0); try lia.
    + rewrite Hm. apply snake_down_stop. now rewrite andb_false_r.
    + rewrite Hm. apply snake_up_stop. now rewrite andb_false_r.
  - intros Hn Hm.
    replace (Ok [mkChange 0 0 0 (M data)])
      with (Ok (if 0 <? 0 + M data then [mkChange 0 0 0 (M data)] else []))
      by (now cmp).
    apply (Diff_one_block data 0 0 (M data)); try lia.
    + rewrite Hn. apply snake_down_stop. reflexivity.
    + rewrite Hn. apply snake_up_stop. reflexivity.
Qed.

Lemma C9_empty_sequences_witness :
  Diff (Ints [] []) = Ok [] /\
  Diff (Ints [5; 6] []) = Ok [mkChange 0 0 2 0] /\
  Diff (Ints [] [7; 8; 9]) = Ok [mkChange 0 0 0 3].
Proof.
  split; [|split].
  - apply (proj1 (C9_empty_sequences (Ints [] []))); reflexivity.
  - apply (proj1 (proj2 (C9_empty_sequences (Ints [5; 6] []))));
      reflexivity.
  - apply (proj2 (proj2 (C9_empty_sequences (Ints [] [7; 8; 9]))));
      reflexivity.
Defined.

(** ** The unit tests of the package and other concrete runs *)

(** C8. The test case "wrap": diffing [[1]] against [[0, 1, 2, 3]] returns
    the two changes [{0, 0, 0, 1}] and [{1, 2, 0, 2}], in that order. *)
Theorem C8_wrap :
  Diff (Ints [1] [0; 1; 2; 3]) = Ok [mkChange 0 0 0 1; mkChange 1 2 0 2].
Proof. vm_compute. reflexivity. Qed.

(** C1. Reconstruction does not hold for every input.  On [[1, 1, 0, 0]]
    against [[0, 1, 1]] the first middle snake is reported at [(3, 4)],
    outside of the rectangle, and the next call of [compare] asks
    [Equal(2, 3)], past the end of the second sequence: [Diff] panics.  On
    [[1, 1, 0, 0, 1, 0]] against [[0, 1, 1, 1, 0]] it returns a change list
    that does not rebuild the second sequence. *)
Theorem C1_reconstruction_fails :
  Diff (Ints [1; 1; 0; 0] [0; 1; 1]) = Panic (BoundsError 3 3) /\
  Diff (Ints [1; 1; 0; 0; 1; 0] [0; 1; 1; 1; 0])
    = Ok [mkChange 0 0 0 2; mkChange 2 4 2 0; mkChange 5 5 1 0] /\
  apply_changes [mkChange 0 0 0 2; mkChange 2 4 2 0; mkChange 5 5 1 0]
    [1; 1; 0; 0; 1; 0] [0; 1; 1; 1; 0] = [0; 1; 1; 1; 1].
Proof. repeat split; vm_compute; reflexivity. Qed.

(** C2. The returned script is not always a shortest one.  For [[1, 0]]
    against [[0, 2, 2]] the edit distance is 3 (delete the [1], insert the
    two [2]s), and [Diff] returns one change of 5 operations. *)
Theorem C2_not_minimal :
  Diff (Ints [1; 0] [0; 2; 2]) = Ok [mkChange 0 0 2 3] /\
  cost [mkChange 0 0 2 3] = 5 /\
  apply_changes [mkChange 0 0 1 0; mkChange 2 1 0 2] [1; 0] [0; 2; 2]
    = [0; 2; 2] /\
  cost [mkChange 0 0 1 0; mkChange 2 1 0 2] = 3.
Proof. repeat split; vm_compute; reflexivity. Qed.

(** C3. The order of the returned changes is not always strict: on the
    input below the last two changes both have [A = 8]. *)
Theorem C3_order_not_strict :
  Diff (Ints [1; 1; 0; 0; 2; 0; 0; 2; 0] [0; 1; 1; 0; 2; 1; 0; 1])
    = Ok [mkChange 0 0 0 1; mkChange 3 4 3 0; mkChange 7 5 0 1;
          mkChange 8 7 0 1; mkChange 8 8 1 0] /\
  ~ ordered [mkChange 0 0 0 1; mkChange 3 4 3 0; mkChange 7 5 0 1;
             mkChange 8 7 0 1; mkChange 8 8 1 0].
Proof.
  split.
  - vm_compute. reflexivity.
  - cbn. lia.
Qed.

(** C5. On [A = [0; 1]] and [B = [1; 2; 2]] the shortest edit script is
    unique (the one [1] is the only common element), and the change list of
    the exchanged problem is not the exchanged change list: [Diff] on
    [(B, A)] returns the shortest script, of three operations, while [Diff]
    on [(A, B)] returns a script of five.  The exchanged list of the first
    is the script of three operations that turns [A] into [B]. *)
Theorem C5_symmetry_fails :
  Diff (Ints [0; 1] [1; 2; 2]) = Ok [mkChange 0 0 2 3] /\
  Diff (Ints [1; 2; 2] [0; 1]) = Ok [mkChange 0 0 0 1; mkChange 1 2 2 0] /\
  [mkChange 0 0 0 1; mkChange 1 2 2 0] <> map flip [mkChange 0 0 2 3] /\
  apply_changes (map flip [mkChange 0 0 0 1; mkChange 1 2 2 0])
    [0; 1] [1; 2; 2] = [1; 2; 2] /\
  cost (map flip [mkChange 0 0 0 1; mkChange 1 2 2 0]) = 3 /\
  cost [mkChange 0 0 2 3] = 5.
Proof.
  split; [vm_compute; reflexivity|].
  split; [vm_compute; reflexivity|].
  split; [discriminate|].
  split; [vm_compute; reflexivity|].
  split; reflexivity.
Qed.

(** The sequences of figure 1 of Myers' paper have several shortest edit
    scripts; there the two directions take different ones, as the tests of
    the package expect. *)
Lemma fig1_swapped_differs :
  exists cs,
    Diff (Ints fig1_a fig1_b) = Ok cs /\
    Diff (Ints fig1_b fig1_a) <> Ok (map flip cs).
Proof.
  eexists. split.
  - vm_compute. reflexivity.
  - vm_compute. discriminate.
Qed.

(** C7 (refuted as stated). After a run on two sequences of one element the
    buffers have length [2*(N+M+1) = 6], not 7. *)
Lemma C7_counterexample :
  exists c,
    compare (Ints [1] [2]) 3 (initial (Ints [1] [2]) [0]) 0 0 1 1 = Ok c /\
    len (slice (forward c)) <> 2 * (1 + 1 + 1) + 1 /\
    len (slice (reverse c)) <> 2 * (1 + 1 + 1) + 1.
Proof.
  eexists. split.
  - vm_compute. reflexivity.
  - split; vm_compute; discriminate.
Qed.

(** ** The buffers keep their length

    [findMiddleSnake] allocates the two buffers when [forward] is nil, with
    [2*max] entries each; every later write is an indexed store. *)

Ltac inv_bind H :=
  match type of H with
  | bind ?e _ = Ok _ =>
      let E := fresh "E" in
      destruct e eqn:E; cbn [bind] in H; [|discriminate H|discriminate H]
  end.

Lemma len_store (l l' : list Z) (i v : Z) : store l i v = Ok l' -> len l' = len l.
Proof.
  unfold store. destruct (in_range l i); intros H; inversion H.
  apply len_update.
Qed.

Section Shape.

Variable data : Interface.
Variables aoffset boffset alimit blimit : Z.
Variables (mx : Z) (fl : list Z).

Lemma forward_step_allocated c d k c' r :
  allocated mx fl c ->
  forward_step data aoffset boffset alimit blimit c d k = Ok (c', r) ->
  allocated mx fl c'.
Proof.
  intros (Hmx & Hfl & f & rv & Hf & Hr & Lf & Lr) H.
  unfold forward_step in H.
  inv_bind H. inv_bind H. inv_bind H. destruct v1 as [x y]. inv_bind H.
  apply len_store in E2. rewrite Hf in E2. cbn [slice] in E2.
  assert (Hc : allocated mx fl (set_forward c v1)).
  { split; [|split]; trivial. exists v1, rv. cbn [forward reverse set_forward set_reverse max flags].
    split; [|split; [|split]]; trivial. lia. }
  destruct (_ && _ && _) in H.
  - inv_bind H. inv_bind H. destruct (_ <=? _) in H; inversion H; subst; exact Hc.
  - inversion H; subst; exact Hc.
Qed.

Lemma reverse_step_allocated c d k c' r :
  allocated mx fl c ->
  reverse_step data aoffset boffset alimit blimit c d k = Ok (c', r) ->
  allocated mx fl c'.
Proof.
  intros (Hmx & Hfl & f & rv & Hf & Hr & Lf & Lr) H.
  unfold reverse_step in H.
  inv_bind H. inv_bind H. inv_bind H. destruct v1 as [x y]. inv_bind H.
  apply len_store in E2. rewrite Hr in E2. cbn [slice] in E2.
  assert (Hc : allocated mx fl (set_reverse c v1)).
  { split; [|split]; trivial. exists f, v1. cbn [forward reverse set_forward set_reverse max flags].
    split; [|split; [|split]]; trivial. lia. }
  destruct (_ && _ && _) in H.
  - inv_bind H. inv_bind H.
    destruct (_ <=? _) in H; inversion H; subst; exact Hc.
  - inversion H; subst; exact Hc.
Qed.

Lemma k_loop_allocated step :
  (forall c d k c' r,
     allocated mx fl c -> step c d k = Ok (c', r) -> allocated mx fl c') ->
  forall fuel mid c d k c' r,
    allocated mx fl c -> k_loop step fuel mid c d k = Ok (c', r) ->
    allocated mx fl c'.
Proof.
  intros Hstep. induction fuel as [|fuel IH]; intros mid c d k c' r Hc H.
  - cbn [k_loop] in H. destruct (k <=? mid + d).
    + inv_bind H. destruct v as [c1 [p|]]; [|discriminate].
      inversion H; subst. eapply Hstep; eauto.
    + inversion H; subst; exact Hc.
  - cbn [k_loop] in H. destruct (k <=? mid + d).
    + inv_bind H. destruct v as [c1 [p|]].
      * inversion H; subst. eapply Hstep; eauto.
      * eapply IH; [|exact H]. eapply Hstep; eauto.
    + inversion H; subst; exact Hc.
Qed.

Lemma d_loop_allocated : forall fuel c d c' p,
  allocated mx fl c ->
  d_loop data aoffset boffset alimit blimit fuel c d = Ok (c', p) ->
  allocated mx fl c'.
Proof.
  induction fuel as [|fuel IH]; intros c d c' p Hc H; cbn [d_loop] in H;
    (destruct (d <=? _); [|discriminate]);
    inv_bind H; destruct v as [c1 [q|]];
    try (inversion H; subst;
         eapply k_loop_allocated; [apply forward_step_allocated| |]; eauto; fail);
    (assert (Hc1 : allocated mx fl c1)
       by (eapply k_loop_allocated; [apply forward_step_allocated| |]; eauto));
    inv_bind H; destruct v as [c2 [q|]];
    try (inversion H; subst;
         eapply k_loop_allocated; [apply reverse_step_allocated| |]; eauto; fail);
    (assert (Hc2 : allocated mx fl c2)
       by (eapply k_loop_allocated; [apply reverse_step_allocated| |]; eauto)).
  - discriminate.
  - eapply IH; eauto.
Qed.

End Shape.

Lemma findMiddleSnake_allocated (data : Interface)
    (aoffset boffset alimit blimit : Z) (c c' : context) (p : Z * Z) :
  sized c ->
  findMiddleSnake data aoffset boffset alimit blimit c = Ok (c', p) ->
  allocated (max c) (flags c) c'.
Proof.
  intros Hs H. unfold findMiddleSnake in H.
  assert (Hc0 : forall c0,
    (match forward c with
     | None => f <- make (2 * max c) ;; r <- make (2 * max c) ;;
               Ok (mkContext (flags c) (max c) (Some f) (Some r))
     | Some _ => Ok c
     end) = Ok c0 -> allocated (max c) (flags c) c0).
  { intros c0 H0. destruct Hs as [[Hf Hr]|(f & r & Hf & Hr & Lf & Lr)].
    - rewrite Hf in H0. inv_bind H0. inversion H0; subst.
      apply len_make in E. split; [|split]; trivial.
      exists v, v. cbn. split; [|split; [|split]]; trivial.
    - rewrite Hf in H0. inversion H0; subst. split; [|split]; trivial.
      exists f, r. split; [|split; [|split]]; trivial. }
  inv_bind H. specialize (Hc0 _ eq_refl).
  destruct Hc0 as (Hmx & Hfl & f & r & Hf & Hr & Lf & Lr).
  inv_bind H. inv_bind H.
  apply len_store in E0, E1. rewrite Hf in E0. cbn [set_forward reverse] in E1.
  rewrite Hr in E1. cbn [slice] in *.
  eapply d_loop_allocated; [|exact H].
  split; [|split]; trivial. exists v0, v1. cbn [forward reverse set_forward set_reverse max flags].
  split; [|split; [|split]]; trivial; lia.
Qed.

Lemma allocated_sized (mx : Z) (fl : list Z) (c : context) :
  allocated mx fl c -> sized c /\ max c = mx.
Proof.
  intros (Hmx & Hfl & f & r & Hf & Hr & Lf & Lr). split; trivial.
  right. exists f, r. subst mx. split; [|split; [|split]]; trivial.
Qed.

Lemma len_mark (bit : Z) : forall fuel fl i limit fl',
  mark fuel bit fl i limit = Ok fl' -> len fl' = len fl.
Proof.
  induction fuel as [|fuel IH]; intros fl i limit fl' H; cbn [mark] in H;
    (destruct (i <? limit); [|inversion H; reflexivity]);
    inv_bind H; inv_bind H; [discriminate|].
  apply IH in H. apply len_store in E0. lia.
Qed.

Lemma set_flags_sized (c : context) (fl : list Z) :
  sized c -> sized (set_flags c fl).
Proof. intros H. exact H. Qed.

Lemma compare_sized (data : Interface) : forall fuel c ao bo al bl c',
  sized c -> compare data fuel c ao bo al bl = Ok c' ->
  sized c' /\ max c' = max c /\ len (flags c') = len (flags c).
Proof.
  induction fuel as [|fuel IH]; intros c ao bo al bl c' Hs H; [discriminate|].
  cbn [compare] in H.
  inv_bind H. destruct v as [ao' bo']. inv_bind H. destruct v as [al' bl'].
  destruct (ao' =? al').
  - inv_bind H. inversion H; subst. apply len_mark in E1. repeat split; trivial.
  - destruct (bo' =? bl').
    + inv_bind H. inversion H; subst. apply len_mark in E1.
      repeat split; trivial.
    + inv_bind H. destruct v as [c1 [x y]]. inv_bind H.
      apply findMiddleSnake_allocated in E1; trivial.
      destruct (allocated_sized _ _ _ E1) as [Hs1 Hm1].
      destruct E1 as (_ & Hfl1 & _).
      apply IH in E2; trivial. destruct E2 as (Hs2 & Hm2 & Hl2).
      apply IH in H; trivial. destruct H as (Hs3 & Hm3 & Hl3).
      repeat split; trivial; congruence.
Qed.

(** ** The two snake loops

    On a rectangle where [Equal] answers, both loops return: they follow a
    diagonal while the elements are equal and stay inside the rectangle. *)

Section Snakes.

Variable data : Interface.
Variable eqb : Z -> Z -> bool.
Variables aoffset boffset alimit blimit : Z.
Hypothesis Heq : forall i j,
  aoffset <= i < alimit -> boffset <= j < blimit ->
  Equal data i j = Ok (eqb i j).

Lemma snake_down_spec : forall (fuel : nat) (x y : Z),
  aoffset <= x -> boffset <= y -> (Z.to_nat (alimit - x) <= fuel)%nat ->
  exists j,
    0 <= j /\
    snake_down data fuel alimit blimit x y = Ok (x + j, y + j) /\
    (j = 0 \/ (x + j <= alimit /\ y + j <= blimit)) /\
    (forall i, 0 <= i < j -> eqb (x + i) (y + i) = true) /\
    (x + j < alimit -> y + j < blimit -> eqb (x + j) (y + j) = false).
Proof.
  induction fuel as [|fuel IH]; intros x y Hx Hy Hf.
  - exists 0. rewrite !Z.add_0_r. split; [lia|]. split.
    + apply snake_down_stop. cmp. reflexivity.
    + split; [now left|]. split; intros; lia.
  - destruct ((x <? alimit) && (y <? blimit)) eqn:E.
    + apply andb_true_iff in E. rewrite !Z.ltb_lt in E.
      destruct (eqb x y) eqn:Exy.
      * destruct (IH (x + 1) (y + 1)) as (j & Hj & Es & Hin & Hall & Hend);
          try lia.
        exists (j + 1). split; [lia|]. split.
        { cbn [snake_down]. cmp. cbn [andb]. rewrite Heq by lia.
          cbn [bind]. rewrite Exy, Es. f_equal. f_equal; lia. }
        split; [right; lia|]. split.
        { intros i Hi. destruct (Z.eq_dec i 0) as [->|Hne].
          - now rewrite !Z.add_0_r.
          - replace (x + i) with (x + 1 + (i - 1)) by lia.
            replace (y + i) with (y + 1 + (i - 1)) by lia. apply Hall. lia. }
        { intros H1 H2. replace (x + (j + 1)) with (x + 1 + j) by lia.
          replace (y + (j + 1)) with (y + 1 + j) by lia. apply Hend; lia. }
      * exists 0. rewrite !Z.add_0_r. split; [lia|]. split.
        { cbn [snake_down]. cmp. cbn [andb]. rewrite Heq by lia.
          cbn [bind]. now rewrite Exy. }
        split; [now left|]. split; [intros; lia|]. intros; exact Exy.
    + exists 0. rewrite !Z.add_0_r. split; [lia|]. split.
      * now apply snake_down_stop.
      * split; [now left|]. split; [intros; lia|].
        intros H1 H2. apply andb_false_iff in E. rewrite !Z.ltb_ge in E. lia.
Qed.

Lemma snake_up_spec : forall (fuel : nat) (x y : Z),
  x <= alimit -> y <= blimit -> (Z.to_nat (x - aoffset) <= fuel)%nat ->
  exists j,
    0 <= j /\
    snake_up data fuel aoffset boffset x y = Ok (x - j, y - j) /\
    (j = 0 \/ (aoffset <= x - j /\ boffset <= y - j)) /\
    (forall i, 0 <= i < j -> eqb (x - i - 1) (y - i - 1) = true) /\
    (aoffset < x - j -> boffset < y - j ->
     eqb (x - j - 1) (y - j - 1) = false).
Proof.
  induction fuel as [|fuel IH]; intros x y Hx Hy Hf.
  - exists 0. rewrite !Z.sub_0_r. split; [lia|]. split.
    + apply snake_up_stop. cmp. reflexivity.
    + split; [now left|]. split; intros; lia.
  - destruct ((x >? aoffset) && (y >? boffset)) eqn:E.
    + pose proof E as E'.
      apply andb_true_iff in E. rewrite !Z.gtb_ltb, !Z.ltb_lt in E.
      destruct (eqb (x - 1) (y - 1)) eqn:Exy.
      * destruct (IH (x - 1) (y - 1)) as (j & Hj & Es & Hin & Hall & Hend);
          try lia.
        exists (j + 1). split; [lia|]. split.
        { cbn [snake_up]. rewrite E'. rewrite Heq by lia.
          cbn [bind]. rewrite Exy, Es. f_equal. f_equal; lia. }
        split; [right; lia|]. split.
        { intros i Hi. destruct (Z.eq_dec i 0) as [->|Hne].
          - now rewrite !Z.sub_0_r.
          - replace (x - i - 1) with (x - 1 - (i - 1) - 1) by lia.
            replace (y - i - 1) with (y - 1 - (i - 1) - 1) by lia.
            apply Hall. lia. }
        { intros H1 H2.
          replace (x - (j + 1) - 1) with (x - 1 - j - 1) by lia.
          replace (y - (j + 1) - 1) with (y - 1 - j - 1) by lia.
          apply Hend; lia. }
      * exists 0. rewrite !Z.sub_0_r. split; [lia|]. split.
        { cbn [snake_up]. rewrite E'. rewrite Heq by lia.
          cbn [bind]. now rewrite Exy. }
        split; [now left|]. split; [intros; lia|]. intros; exact Exy.
    + exists 0. rewrite !Z.sub_0_r. split; [lia|]. split.
      * now apply snake_up_stop.
      * split; [now left|]. split; [intros; lia|].
        intros H1 H2. apply andb_false_iff in E.
        rewrite !Z.gtb_ltb, !Z.ltb_ge in E. lia.
Qed.

End Snakes.

(** ** Sequences that differ by one block *)

(** Trimming when the sequences share a prefix of length [P] and a suffix of
    length [S], and one of them has nothing else. *)
Lemma trim_one_block (data : Interface) (eqb : Z -> Z -> bool) (P K L S : Z) :
  0 <= P -> 0 <= K -> 0 <= L -> 0 <= S -> K = 0 \/ L = 0 ->
  N data = P + K + S -> M data = P + L + S ->
  (forall i j, 0 <= i < N data -> 0 <= j < M data ->
     Equal data i j = Ok (eqb i j)) ->
  (forall i, 0 <= i < P -> eqb i i = true) ->
  (forall t, 0 <= t < S -> eqb (N data - 1 - t) (M data - 1 - t) = true) ->
  exists p,
    P <= p <= P + S /\
    snake_down data (Z.to_nat (N data)) (N data) (M data) 0 0 = Ok (p, p) /\
    snake_up data (Z.to_nat (N data - p)) p p (N data) (M data)
      = Ok (p + K, p + L) /\
    (forall i, 0 <= i < p -> eqb i i = true) /\
    (p < P + S -> eqb p p = false).
Proof.
  intros HP HK HL HS HKL En Em Heq Hpre Hsuf.
  destruct (snake_down_spec data eqb 0 0 (N data) (M data) Heq
              (Z.to_nat (N data)) 0 0) as (p & Hp & Edown & Hin & Hall & Hend);
    try lia.
  cbn [Z.add] in *.
  assert (Hp1 : p <= P + S) by lia.
  assert (Hp2 : P <= p).
  { destruct (Z_le_gt_dec P p); trivial.
    pose proof (Hpre p ltac:(lia)) as H1.
    rewrite Hend in H1 by lia. discriminate. }
  assert (Heq' : forall i j, p <= i < N data -> p <= j < M data ->
                   Equal data i j = Ok (eqb i j))
    by (intros; apply Heq; lia).
  destruct (snake_up_spec data eqb p p (N data) (M data) Heq'
              (Z.to_nat (N data - p)) (N data) (M data))
    as (t & Ht & Eup & Hin' & Hall' & Hend'); try lia.
  assert (Ht1 : t <= P + S - p) by lia.
  assert (Ht2 : t = P + S - p).
  { destruct (Z_le_gt_dec (P + S - p) t); [lia|].
    pose proof (Hsuf t ltac:(lia)) as H1.
    replace (N data - 1 - t) with (N data - t - 1) in H1 by lia.
    replace (M data - 1 - t) with (M data - t - 1) in H1 by lia.
    rewrite Hend' in H1 by lia. discriminate. }
  exists p. split; [lia|]. split; [exact Edown|]. split.
  - rewrite Eup. f_equal. f_equal; lia.
  - split; [exact Hall|]. intros H. apply Hend; lia.
Qed.

Lemma len_app {T : Type} (l1 l2 : list T) : len (l1 ++ l2) = len l1 + len l2.
Proof. unfold len. rewrite length_app. lia. Qed.

Lemma rd_app_l (l1 l2 : list Z) (i : Z) :
  0 <= i < len l1 -> rd (l1 ++ l2) i = rd l1 i.
Proof. intros H. unfold rd. apply app_nth1. unfold len in H. lia. Qed.

Lemma rd_app_r (l1 l2 : list Z) (i : Z) :
  len l1 <= i -> rd (l1 ++ l2) i = rd l2 (i - len l1).
Proof.
  intros H. pose proof (len_nonneg l1) as H0. unfold rd.
  rewrite app_nth2 by (unfold len in H; lia).
  f_equal. unfold len. lia.
Qed.

Lemma Ints_Equal (a b : list Z) (i j : Z) :
  0 <= i < len a -> 0 <= j < len b ->
  Equal (Ints a b) i j = Ok (rd a i =? rd b j).
Proof.
  intros Hi Hj. cbn [Equal Ints]. now rewrite !index_ok by lia.
Qed.

(** ** The buffers hold the entries of the search

    The steps of the two loops over [k] read their neighbours of the
    previous round from the buffer, store one entry and test one pair of
    entries; nothing else of the context changes. *)

Lemma bind_bind_ok {T1 T2 T3 : Type} (e1 : outcome T1) (e2 : T1 -> outcome T2)
    (K : T2 -> outcome T3) (v : T2) :
  bind e1 e2 = Ok v -> bind e1 (fun a => bind (e2 a) K) = K v.
Proof.
  destruct e1; cbn [bind]; intros H; try discriminate. now rewrite H.
Qed.

Section Refine.

Variable data : Interface.
Variable eqb : Z -> Z -> bool.
Variables aoffset boffset alimit blimit : Z.
Variables (mx : Z) (fl : list Z).

Hypothesis Heq : forall i j,
  aoffset <= i < alimit -> boffset <= j < blimit ->
  Equal data i j = Ok (eqb i j).

Local Abbreviation fmid := (aoffset - boffset).
Local Abbreviation rmid := (alimit - blimit).
Local Abbreviation sd := (slide_down data alimit blimit).
Local Abbreviation su := (slide_up data aoffset boffset).
Local Abbreviation fp := (fpre aoffset boffset).
Local Abbreviation rp := (rpre alimit blimit).
Local Abbreviation FV := (Fv aoffset boffset).
Local Abbreviation RV := (Rv alimit blimit).
Local Abbreviation odd := (odd_delta aoffset boffset alimit blimit).

Lemma slide_down_ok (x k : Z) :
  aoffset <= x -> boffset <= x - k ->
  snake_down data (Z.to_nat (alimit - x)) alimit blimit x (x - k)
    = Ok (sd x k, sd x k - k) /\
  x <= sd x k /\
  (sd x k = x \/ (sd x k <= alimit /\ sd x k - k <= blimit)).
Proof.
  intros Hx Hy.
  destruct (snake_down_spec data eqb aoffset boffset alimit blimit Heq
              (Z.to_nat (alimit - x)) x (x - k))
    as (j & Hj & E & Hin & _); try lia.
  unfold slide_down. rewrite E.
  split; [f_equal; f_equal; lia|]. split; [lia|].
  destruct Hin as [->|Hin]; [left|right]; lia.
Qed.

Lemma slide_up_ok (x k : Z) :
  x <= alimit -> x - k <= blimit ->
  snake_up data (Z.to_nat (x - aoffset)) aoffset boffset x (x - k)
    = Ok (su x k, su x k - k) /\
  su x k <= x /\
  (su x k = x \/ (aoffset <= su x k /\ boffset <= su x k - k)).
Proof.
  intros Hx Hy.
  destruct (snake_up_spec data eqb aoffset boffset alimit blimit Heq
              (Z.to_nat (x - aoffset)) x (x - k))
    as (j & Hj & E & Hin & _); try lia.
  unfold slide_up. rewrite E.
  split; [f_equal; f_equal; lia|]. split; [lia|].
  destruct Hin as [->|Hin]; [left|right]; lia.
Qed.

Lemma forward_step_refine (c : context) (d k : Z) :
  allocated mx fl c -> 0 <= d < mx -> 1 < mx ->
  fmid - d <= k <= fmid + d ->
  aoffset <= fp (FV c) d k -> boffset <= fp (FV c) d k - k ->
  exists c',
    forward_step data aoffset boffset alimit blimit c d k
      = Ok (c', if odd && (k >? rmid - d) && (k <? rmid + d)
                   && (RV c k <=? sd (fp (FV c) d k) k)
                then Some (sd (fp (FV c) d k) k, sd (fp (FV c) d k) k - k)
                else None) /\
    allocated mx fl c' /\ reverse c' = reverse c /\
    FV c' k = sd (fp (FV c) d k) k /\
    (forall j, j <> k -> 0 <= mx - fmid + j -> FV c' j = FV c j).
Proof.
  intros (Hmax & Hfl & f & r & Hf & Hr & Lf & Lr) Hd Hmx Hk Hx Hy.
  set (x0 := fp (FV c) d k) in *.
  assert (E12 :
    (down <-
      (if k =? fmid - d then Ok true
       else if negb (k =? fmid + d)
            then p <- index (slice (forward c)) (max c - fmid + k + 1) ;;
                 q <- index (slice (forward c)) (max c - fmid + k - 1) ;;
                 Ok (p <? q)
            else Ok false) ;;
     (if down : bool then index (slice (forward c)) (max c - fmid + k + 1)
      else p <- index (slice (forward c)) (max c - fmid + k - 1) ;;
           Ok (p + 1))) = Ok x0).
  { unfold x0, fpre, Fv. rewrite Hf, Hmax. cbn [slice].
    replace (mx - fmid + (k + 1)) with (mx - fmid + k + 1) by lia.
    replace (mx - fmid + (k - 1)) with (mx - fmid + k - 1) by lia.
    destruct (k =? fmid - d) eqn:E1.
    - apply Z.eqb_eq in E1. cbn [bind]. apply index_ok. lia.
    - apply Z.eqb_neq in E1. destruct (k =? fmid + d) eqn:E2; cbn [negb andb].
      + apply Z.eqb_eq in E2. cbn [bind]. now rewrite index_ok by lia.
      + apply Z.eqb_neq in E2. rewrite !index_ok by lia. cbn [bind].
        now destruct (_ <? _). }
  destruct (slide_down_ok x0 k Hx Hy) as (Es & Hge & Hin).
  set (x := sd x0 k) in *.
  set (fw := update f (Z.to_nat (mx - fmid + k)) x).
  exists (set_forward c fw).
  assert (Hidx : 0 <= mx - fmid + k < len f) by lia.
  split.
  - unfold forward_step.
    rewrite (bind_bind_ok _ _ _ _ E12).
    rewrite Es. cbn [bind].
    rewrite Hf, Hmax. cbn [slice]. rewrite store_ok by lia. cbn [bind].
    fold fw. unfold odd_delta.
    destruct (negb (Z.land (rmid - fmid) 1 =? 0) && (k >? rmid - d)
              && (k <? rmid + d)) eqn:Ec; cbn [andb]; [|reflexivity].
    apply andb_true_iff in Ec. destruct Ec as [Ec Ec3].
    apply andb_true_iff in Ec. destruct Ec as [Ec1 Ec2].
    rewrite Z.gtb_ltb in Ec2. apply Z.ltb_lt in Ec2, Ec3.
    cbn [set_forward reverse forward slice]. rewrite Hr. cbn [slice].
    rewrite !index_ok by (unfold fw; rewrite ?len_update; lia). cbn [bind].
    unfold fw at 1. rewrite rd_update_same by lia.
    unfold Rv. rewrite Hr, Hmax. cbn [slice]. now destruct (_ <=? _).
  - split; [|split; [reflexivity|split]].
    + split; [|split]; trivial. exists fw, r.
      cbn [set_forward forward reverse max flags].
      split; [|split; [|split]]; trivial. unfold fw. now rewrite len_update.
    + unfold Fv. cbn [set_forward forward max slice]. rewrite Hmax.
      unfold fw. now rewrite rd_update_same by lia.
    + intros j Hj Hj0. unfold Fv. cbn [set_forward forward max slice].
      rewrite Hf, Hmax. cbn [slice]. unfold fw.
      apply rd_update_other; lia.
Qed.

Lemma reverse_step_refine (c : context) (d k : Z) :
  allocated mx fl c -> 0 <= d < mx -> 1 < mx ->
  rmid - d <= k <= rmid + d ->
  rp (RV c) d k <= alimit -> rp (RV c) d k - k <= blimit ->
  exists c',
    reverse_step data aoffset boffset alimit blimit c d k
      = Ok (c', if negb odd && (k >=? fmid - d) && (k <=? fmid + d)
                   && (su (rp (RV c) d k) k <=? FV c k)
                then Some (FV c k, FV c k - k)
                else None) /\
    allocated mx fl c' /\ forward c' = forward c /\
    RV c' k = su (rp (RV c) d k) k /\
    (forall j, j <> k -> 0 <= mx - rmid + j -> RV c' j = RV c j).
Proof.
  intros (Hmax & Hfl & f & r & Hf & Hr & Lf & Lr) Hd Hmx Hk Hx Hy.
  set (x0 := rp (RV c) d k) in *.
  assert (E12 :
    (up <-
      (if k =? rmid + d then Ok true
       else if negb (k =? rmid - d)
            then p <- index (slice (reverse c)) (max c - rmid + k - 1) ;;
                 q <- index (slice (reverse c)) (max c - rmid + k + 1) ;;
                 Ok (p <? q)
            else Ok false) ;;
     (if up : bool then index (slice (reverse c)) (max c - rmid + k - 1)
      else p <- index (slice (reverse c)) (max c - rmid + k + 1) ;;
           Ok (p - 1))) = Ok x0).
  { unfold x0, rpre, Rv. rewrite Hr, Hmax. cbn [slice].
    replace (mx - rmid + (k + 1)) with (mx - rmid + k + 1) by lia.
    replace (mx - rmid + (k - 1)) with (mx - rmid + k - 1) by lia.
    destruct (k =? rmid + d) eqn:E1.
    - apply Z.eqb_eq in E1. cbn [bind]. apply index_ok. lia.
    - apply Z.eqb_neq in E1. destruct (k =? rmid - d) eqn:E2; cbn [negb andb].
      + apply Z.eqb_eq in E2. cbn [bind]. now rewrite index_ok by lia.
      + apply Z.eqb_neq in E2. rewrite !index_ok by lia. cbn [bind].
        now destruct (_ <? _). }
  destruct (slide_up_ok x0 k Hx Hy) as (Es & Hge & Hin).
  set (x := su x0 k) in *.
  set (rv := update r (Z.to_nat (mx - rmid + k)) x).
  exists (set_reverse c rv).
  assert (Hidx : 0 <= mx - rmid + k < len r) by lia.
  split.
  - unfold reverse_step.
    rewrite (bind_bind_ok _ _ _ _ E12).
    rewrite Es. cbn [bind].
    rewrite Hr, Hmax. cbn [slice]. rewrite store_ok by lia. cbn [bind].
    fold rv. unfold odd_delta.
    destruct (negb (negb (Z.land (rmid - fmid) 1 =? 0)) && (k >=? fmid - d)
              && (k <=? fmid + d)) eqn:Ec; cbn [andb]; [|reflexivity].
    apply andb_true_iff in Ec. destruct Ec as [Ec Ec3].
    apply andb_true_iff in Ec. destruct Ec as [Ec1 Ec2].
    rewrite Z.geb_leb in Ec2. apply Z.leb_le in Ec2, Ec3.
    cbn [set_reverse reverse forward slice]. rewrite Hf. cbn [slice].
    rewrite !index_ok by (unfold rv; rewrite ?len_update; lia). cbn [bind].
    unfold rv at 1. rewrite rd_update_same by lia.
    unfold Fv. rewrite Hf, Hmax. cbn [slice]. now destruct (_ <=? _).
  - split; [|split; [reflexivity|split]].
    + split; [|split]; trivial. exists f, rv.
      cbn [set_reverse forward reverse max flags].
      split; [|split; [|split]]; trivial. unfold rv. now rewrite len_update.
    + unfold Rv. cbn [set_reverse reverse max slice]. rewrite Hmax.
      unfold rv. now rewrite rd_update_same by lia.
    + intros j Hj Hj0. unfold Rv. cbn [set_reverse reverse max slice].
      rewrite Hr, Hmax. cbn [slice]. unfold rv.
      apply rd_update_other; lia.
Qed.

End Refine.

(** ** The loop over [k]

    A loop whose step at the [i]th diagonal keeps an invariant and reports
    a pair exactly when a test holds returns the pair of the first test
    that holds, or runs through all [d+1] diagonals. *)

Lemma k_loop_spec
    (step : context -> Z -> Z -> outcome (context * option (Z * Z)))
    (mid d : Z) (Inv : Z -> context -> Prop) (hit : Z -> bool)
    (res : Z -> Z * Z) :
  (forall i c, 0 <= i <= d -> Inv i c ->
     exists c',
       step c d (mid - d + 2 * i)
         = Ok (c', if hit i then Some (res i) else None) /\
       Inv (i + 1) c') ->
  forall (fuel : nat) (i : Z) (c : context),
    (Z.to_nat (d + 1 - i) <= fuel)%nat -> 0 <= i <= d + 1 -> Inv i c ->
    exists c' r,
      k_loop step fuel mid c d (mid - d + 2 * i) = Ok (c', r) /\
      ((r = None /\ Inv (d + 1) c' /\
        forall i', i <= i' <= d -> hit i' = false) \/
       (exists i', i <= i' <= d /\ r = Some (res i') /\ hit i' = true /\
          (forall i'', i <= i'' < i' -> hit i'' = false) /\
          Inv (i' + 1) c')).
Proof.
  intros Hstep. induction fuel as [|fuel IH]; intros i c Hf Hi HI.
  - assert (i = d + 1) by lia. subst i.
    exists c, None. split.
    + cbn [k_loop]. now cmp.
    + left. split; [reflexivity|]. split; [exact HI|]. intros; lia.
  - destruct (Z.eq_dec i (d + 1)) as [->|Hne].
    + exists c, None. split.
      * cbn [k_loop]. now cmp.
      * left. split; [reflexivity|]. split; [exact HI|]. intros; lia.
    + destruct (Hstep i c ltac:(lia) HI) as (c1 & E1 & HI1).
      destruct (hit i) eqn:Eh.
      * exists c1, (Some (res i)). split.
        { cbn [k_loop]. cmp. rewrite E1. reflexivity. }
        right. exists i. split; [lia|]. split; [reflexivity|].
        split; [exact Eh|]. split; [intros; lia|exact HI1].
      * destruct (IH (i + 1) c1 ltac:(lia) ltac:(lia) HI1)
          as (c' & r & E2 & Hr).
        exists c', r. split.
        { cbn [k_loop]. cmp. rewrite E1. cbn [bind].
          replace (mid - d + 2 * i + 2) with (mid - d + 2 * (i + 1)) by lia.
          exact E2. }
        destruct Hr as [(-> & HI' & Hno)|(i' & Hi' & -> & Hh & Hno & HI')].
        { left. split; [reflexivity|]. split; [exact HI'|].
          intros i' Hi'. destruct (Z.eq_dec i' i) as [->|]; [exact Eh|].
          apply Hno. lia. }
        { right. exists i'. split; [lia|]. split; [reflexivity|].
          split; [exact Hh|]. split; [|exact HI'].
          intros i'' Hi''. destruct (Z.eq_dec i'' i) as [->|]; [exact Eh|].
          apply Hno. lia. }
Qed.

(** ** The entries of the search

    Every forward entry of round [d] lies at or after the start of the
    rectangle, at least [d] steps away from it; every reverse entry lies at
    or before the end, at least [d] steps away. *)

Section Entries.

Variable data : Interface.
Variable eqb : Z -> Z -> bool.
Variables aoffset boffset alimit blimit : Z.

Hypothesis Heq : forall i j,
  aoffset <= i < alimit -> boffset <= j < blimit ->
  Equal data i j = Ok (eqb i j).

Local Abbreviation fmid := (aoffset - boffset).
Local Abbreviation rmid := (alimit - blimit).
Local Abbreviation sd := (slide_down data alimit blimit).
Local Abbreviation su := (slide_up data aoffset boffset).
Local Abbreviation fp := (fpre aoffset boffset).
Local Abbreviation rp := (rpre alimit blimit).
Local Abbreviation FWd := (FW data aoffset boffset alimit blimit).
Local Abbreviation RWd := (RW data aoffset boffset alimit blimit).
Local Abbreviation kfd := (kf aoffset boffset).
Local Abbreviation krd := (kr alimit blimit).
Local Abbreviation pF := (prevF data aoffset boffset alimit blimit).
Local Abbreviation pR := (prevR data aoffset boffset alimit blimit).

Lemma FW_eq (d : nat) (k : Z) : FWd d k = sd (fp (pF d) (Z.of_nat d) k) k.
Proof. destruct d; reflexivity. Qed.

Lemma RW_eq (d : nat) (k : Z) : RWd d k = su (rp (pR d) (Z.of_nat d) k) k.
Proof. destruct d; reflexivity. Qed.

Lemma kf_succ (d : nat) (i : Z) : kfd (S d) i + 1 = kfd d i.
Proof. unfold kf. lia. Qed.

Lemma kf_pred (d : nat) (i : Z) : kfd (S d) i - 1 = kfd d (i - 1).
Proof. unfold kf. lia. Qed.

Lemma kr_succ (d : nat) (i : Z) : krd (S d) i + 1 = krd d i.
Proof. unfold kr. lia. Qed.

Lemma kr_pred (d : nat) (i : Z) : krd (S d) i - 1 = krd d (i - 1).
Proof. unfold kr. lia. Qed.

(** The forward rule takes the entry above ("down") or the entry to the
    left plus one ("right"). *)
Lemma fpre_kf (V : Z -> Z) (d : nat) (i : Z) :
  0 <= i <= Z.of_nat (S d) ->
  (i <= Z.of_nat d /\ fp V (Z.of_nat (S d)) (kfd (S d) i) = V (kfd d i)) \/
  (1 <= i /\ fp V (Z.of_nat (S d)) (kfd (S d) i) = V (kfd d (i - 1)) + 1).
Proof.
  intros Hi. unfold fpre. rewrite kf_succ, kf_pred.
  destruct (kfd (S d) i =? fmid - Z.of_nat (S d)) eqn:E1.
  - left. apply Z.eqb_eq in E1. unfold kf in E1. split; [lia|reflexivity].
  - apply Z.eqb_neq in E1. unfold kf in E1.
    destruct (kfd (S d) i =? fmid + Z.of_nat (S d)) eqn:E2; cbn [negb andb].
    + right. split; [lia|reflexivity].
    + apply Z.eqb_neq in E2. unfold kf in E2.
      destruct (_ <? _); [left|right]; (split; [lia|reflexivity]).
Qed.

Lemma rpre_kr (V : Z -> Z) (d : nat) (i : Z) :
  0 <= i <= Z.of_nat (S d) ->
  (1 <= i /\ rp V (Z.of_nat (S d)) (krd (S d) i) = V (krd d (i - 1))) \/
  (i <= Z.of_nat d /\
   rp V (Z.of_nat (S d)) (krd (S d) i) = V (krd d i) - 1).
Proof.
  intros Hi. unfold rpre. rewrite kr_succ, kr_pred.
  destruct (krd (S d) i =? rmid + Z.of_nat (S d)) eqn:E1.
  - left. apply Z.eqb_eq in E1. unfold kr in E1. split; [lia|reflexivity].
  - apply Z.eqb_neq in E1. unfold kr in E1.
    destruct (krd (S d) i =? rmid - Z.of_nat (S d)) eqn:E2; cbn [negb andb].
    + right. split; [lia|reflexivity].
    + apply Z.eqb_neq in E2. unfold kr in E2.
      destruct (_ <? _); [left|right]; (split; [lia|reflexivity]).
Qed.

Local Abbreviation aF := (afterF aoffset boffset).
Local Abbreviation bR := (beforeR alimit blimit).

Lemma forward_entries (d : nat) : forall i,
  0 <= i <= Z.of_nat d ->
  aF d (fp (pF d) (Z.of_nat d) (kfd d i)) (kfd d i) /\
  aF d (FWd d (kfd d i)) (kfd d i).
Proof.
  assert (Hpost : forall d x k, aF d x k -> aF d (sd x k) k).
  { clear d. intros d x k (H1 & H2 & H3).
    destruct (slide_down_ok data eqb aoffset boffset alimit blimit Heq x k)
      as (_ & Hge & _); trivial.
    unfold afterF. lia. }
  induction d as [|d IH]; intros i Hi.
  - assert (i = 0) by lia. subst i.
    assert (Hpre : aF 0 (fp (pF 0%nat) (Z.of_nat 0) (kfd 0%nat 0)) (kfd 0%nat 0)).
    { unfold fpre, kf, afterF. cbn [prevF Z.of_nat]. cmp. lia. }
    split; [exact Hpre|]. rewrite FW_eq. now apply Hpost.
  - assert (Hpre : aF (S d) (fp (pF (S d)) (Z.of_nat (S d)) (kfd (S d) i))
                     (kfd (S d) i)).
    { cbn [prevF].
      destruct (fpre_kf (FWd d) d i Hi) as [[Hi' E]|[Hi' E]]; rewrite E.
      - destruct (IH i ltac:(lia)) as (_ & H1 & H2 & H3).
        unfold afterF, kf in *. lia.
      - destruct (IH (i - 1) ltac:(lia)) as (_ & H1 & H2 & H3).
        unfold afterF, kf in *. lia. }
    split; [exact Hpre|]. rewrite FW_eq. now apply Hpost.
Qed.

Lemma reverse_entries (d : nat) : forall i,
  0 <= i <= Z.of_nat d ->
  bR d (rp (pR d) (Z.of_nat d) (krd d i)) (krd d i) /\
  bR d (RWd d (krd d i)) (krd d i).
Proof.
  assert (Hpost : forall d x k, bR d x k -> bR d (su x k) k).
  { clear d. intros d x k (H1 & H2 & H3).
    destruct (slide_up_ok data eqb aoffset boffset alimit blimit Heq x k)
      as (_ & Hge & _); trivial.
    unfold beforeR. lia. }
  induction d as [|d IH]; intros i Hi.
  - assert (i = 0) by lia. subst i.
    assert (Hpre : bR 0 (rp (pR 0%nat) (Z.of_nat 0) (krd 0%nat 0)) (krd 0%nat 0)).
    { unfold rpre, kr, beforeR. cbn [prevR Z.of_nat]. cmp. lia. }
    split; [exact Hpre|]. rewrite RW_eq. now apply Hpost.
  - assert (Hpre : bR (S d) (rp (pR (S d)) (Z.of_nat (S d)) (krd (S d) i))
                     (krd (S d) i)).
    { cbn [prevR].
      destruct (rpre_kr (RWd d) d i Hi) as [[Hi' E]|[Hi' E]]; rewrite E.
      - destruct (IH (i - 1) ltac:(lia)) as (_ & H1 & H2 & H3).
        unfold beforeR, kr in *. lia.
      - destruct (IH i ltac:(lia)) as (_ & H1 & H2 & H3).
        unfold beforeR, kr in *. lia. }
    split; [exact Hpre|]. rewrite RW_eq. now apply Hpost.
Qed.

End Entries.

(** ** One round of the search on the buffers *)

Lemma odd_delta_true (aoffset boffset alimit blimit : Z) :
  odd_delta aoffset boffset alimit blimit = true ->
  exists e, alimit - blimit - (aoffset - boffset) = 2 * e + 1.
Proof.
  unfold odd_delta. intros H. apply negb_true_iff, Z.eqb_neq in H.
  change 1 with (Z.ones 1) in H. rewrite Z.land_ones in H by lia.
  change (2 ^ 1) with 2 in H.
  exists ((alimit - blimit - (aoffset - boffset)) / 2).
  pose proof (Z.div_mod (alimit - blimit - (aoffset - boffset)) 2 ltac:(lia)).
  pose proof (Z.mod_pos_bound (alimit - blimit - (aoffset - boffset)) 2
                ltac:(lia)).
  lia.
Qed.

Lemma odd_delta_false (aoffset boffset alimit blimit : Z) :
  odd_delta aoffset boffset alimit blimit = false ->
  exists e, alimit - blimit - (aoffset - boffset) = 2 * e.
Proof.
  unfold odd_delta. intros H. apply negb_false_iff, Z.eqb_eq in H.
  change 1 with (Z.ones 1) in H. rewrite Z.land_ones in H by lia.
  change (2 ^ 1) with 2 in H.
  exists ((alimit - blimit - (aoffset - boffset)) / 2).
  pose proof (Z.div_mod (alimit - blimit - (aoffset - boffset)) 2 ltac:(lia)).
  lia.
Qed.

Lemma fpre_ext (aoffset boffset : Z) (V V' : Z -> Z) (d k : Z) :
  (k = aoffset - boffset - d \/ k <> aoffset - boffset + d ->
   V (k + 1) = V' (k + 1)) ->
  (k <> aoffset - boffset - d -> V (k - 1) = V' (k - 1)) ->
  fpre aoffset boffset V d k = fpre aoffset boffset V' d k.
Proof.
  intros H1 H2. unfold fpre.
  destruct (k =? aoffset - boffset - d) eqn:E1.
  - apply Z.eqb_eq in E1. apply H1. now left.
  - apply Z.eqb_neq in E1. rewrite <- (H2 E1).
    destruct (k =? aoffset - boffset + d) eqn:E2; cbn [negb andb]; trivial.
    apply Z.eqb_neq in E2. rewrite <- (H1 (or_intror E2)). reflexivity.
Qed.

Lemma rpre_ext (alimit blimit : Z) (V V' : Z -> Z) (d k : Z) :
  (k = alimit - blimit + d \/ k <> alimit - blimit - d ->
   V (k - 1) = V' (k - 1)) ->
  (k <> alimit - blimit + d -> V (k + 1) = V' (k + 1)) ->
  rpre alimit blimit V d k = rpre alimit blimit V' d k.
Proof.
  intros H1 H2. unfold rpre.
  destruct (k =? alimit - blimit + d) eqn:E1.
  - apply Z.eqb_eq in E1. apply H1. now left.
  - apply Z.eqb_neq in E1. rewrite <- (H2 E1).
    destruct (k =? alimit - blimit - d) eqn:E2; cbn [negb andb]; trivial.
    apply Z.eqb_neq in E2. rewrite <- (H1 (or_intror E2)). reflexivity.
Qed.

Lemma Fv_same (aoffset boffset : Z) (c c' : context) (k : Z) :
  forward c' = forward c -> max c' = max c ->
  Fv aoffset boffset c' k = Fv aoffset boffset c k.
Proof. intros H1 H2. unfold Fv. now rewrite H1, H2. Qed.

Lemma Rv_same (alimit blimit : Z) (c c' : context) (k : Z) :
  reverse c' = reverse c -> max c' = max c ->
  Rv alimit blimit c' k = Rv alimit blimit c k.
Proof. intros H1 H2. unfold Rv. now rewrite H1, H2. Qed.

Section Rounds.

Variable data : Interface.
Variable eqb : Z -> Z -> bool.
Variables aoffset boffset alimit blimit : Z.
Variables (mx : Z) (fl : list Z).

Hypothesis Heq : forall i j,
  aoffset <= i < alimit -> boffset <= j < blimit ->
  Equal data i j = Ok (eqb i j).
Hypothesis Hmx : 1 < mx.

Local Abbreviation fmid := (aoffset - boffset).
Local Abbreviation rmid := (alimit - blimit).
Local Abbreviation sd := (slide_down data alimit blimit).
Local Abbreviation su := (slide_up data aoffset boffset).
Local Abbreviation fp := (fpre aoffset boffset).
Local Abbreviation rp := (rpre alimit blimit).
Local Abbreviation FV := (Fv aoffset boffset).
Local Abbreviation RV := (Rv alimit blimit).
Local Abbreviation FWd := (FW data aoffset boffset alimit blimit).
Local Abbreviation RWd := (RW data aoffset boffset alimit blimit).
Local Abbreviation kfd := (kf aoffset boffset).
Local Abbreviation krd := (kr alimit blimit).
Local Abbreviation pF := (prevF data aoffset boffset alimit blimit).
Local Abbreviation pR := (prevR data aoffset boffset alimit blimit).
Local Abbreviation hF := (hitF data aoffset boffset alimit blimit).
Local Abbreviation hR := (hitR data aoffset boffset alimit blimit).
Local Abbreviation agF := (agreeF data aoffset boffset alimit blimit).
Local Abbreviation agR := (agreeR data aoffset boffset alimit blimit).
Local Abbreviation qF := (quietF data aoffset boffset alimit blimit).
Local Abbreviation qR := (quietR data aoffset boffset alimit blimit).

(** What the forward step reads from a buffer that agrees with round
    [d - 1] on the diagonals that the loop has not yet written. *)
Lemma forward_reads (c0 c : context) (d : nat) (i : Z) :
  agF c0 d -> 0 <= i <= Z.of_nat d -> Z.of_nat d < mx ->
  (forall j, 0 <= mx - fmid + j ->
     (forall i', 0 <= i' < i -> j <> kfd d i') -> FV c j = FV c0 j) ->
  fp (FV c) (Z.of_nat d) (kfd d i) = fp (pF d) (Z.of_nat d) (kfd d i).
Proof.
  intros Hag Hi Hd Hframe. apply fpre_ext.
  - intros Hk. destruct d as [|d].
    + assert (i = 0) by lia. subst i. unfold kf. cbn [Z.of_nat prevF].
      replace (fmid - 0 + 2 * 0 + 1) with (fmid + 1) by lia.
      rewrite Hframe; [exact Hag| lia | intros; lia].
    + rewrite kf_succ. cbn [prevF]. unfold kf in Hk.
      rewrite Hframe.
      * apply Hag. lia.
      * unfold kf. lia.
      * intros i' Hi'. unfold kf. lia.
  - intros Hk. destruct d as [|d].
    + unfold kf in Hk. cbn [Z.of_nat] in *. lia.
    + rewrite kf_pred. cbn [prevF]. unfold kf in Hk.
      rewrite Hframe.
      * apply Hag. lia.
      * unfold kf. lia.
      * intros i' Hi'. unfold kf. lia.
Qed.

Lemma reverse_reads (c0 c : context) (d : nat) (i : Z) :
  agR c0 d -> 0 <= i <= Z.of_nat d -> Z.of_nat d < mx ->
  (forall j, 0 <= mx - rmid + j ->
     (forall i', 0 <= i' < i -> j <> krd d i') -> RV c j = RV c0 j) ->
  rp (RV c) (Z.of_nat d) (krd d i) = rp (pR d) (Z.of_nat d) (krd d i).
Proof.
  intros Hag Hi Hd Hframe. apply rpre_ext.
  - intros Hk. destruct d as [|d].
    + assert (i = 0) by lia. subst i. unfold kr. cbn [Z.of_nat prevR].
      replace (rmid - 0 + 2 * 0 - 1) with (rmid - 1) by lia.
      rewrite Hframe; [exact Hag| lia | intros; lia].
    + rewrite kr_pred. cbn [prevR]. unfold kr in Hk.
      rewrite Hframe.
      * apply Hag. lia.
      * unfold kr. lia.
      * intros i' Hi'. unfold kr. lia.
  - intros Hk. destruct d as [|d].
    + unfold kr in Hk. cbn [Z.of_nat] in *. lia.
    + rewrite kr_succ. cbn [prevR]. unfold kr in Hk.
      rewrite Hframe.
      * apply Hag. lia.
      * unfold kr. lia.
      * intros i' Hi'. unfold kr. lia.
Qed.

(** The test of the forward loop is [hitF]: where it reads the reverse
    buffer, the buffer holds an entry of round [d - 1]. *)
Lemma forward_test (c : context) (d : nat) (i x : Z) :
  agR c d -> 0 <= i <= Z.of_nat d ->
  odd_delta aoffset boffset alimit blimit
  && (kfd d i >? rmid - Z.of_nat d) && (kfd d i <? rmid + Z.of_nat d)
  && (RV c (kfd d i) <=? x)
  = odd_delta aoffset boffset alimit blimit
    && (kfd d i >? rmid - Z.of_nat d) && (kfd d i <? rmid + Z.of_nat d)
    && (RWd (pred d) (kfd d i) <=? x).
Proof.
  intros Hag Hi.
  destruct (odd_delta aoffset boffset alimit blimit) eqn:Eo; trivial.
  destruct (kfd d i >? rmid - Z.of_nat d) eqn:E1; trivial.
  destruct (kfd d i <? rmid + Z.of_nat d) eqn:E2; trivial.
  cbn [andb]. rewrite Z.gtb_ltb in E1. apply Z.ltb_lt in E1, E2.
  destruct (odd_delta_true _ _ _ _ Eo) as (e & He).
  destruct d as [|d]; [lia|]. cbn [pred].
  replace (kfd (S d) i) with (krd d (i - e - 1)) by (unfold kf, kr; lia).
  rewrite Hag; trivial. unfold kf in *. lia.
Qed.

Lemma forward_round (d : nat) (c : context) :
  allocated mx fl c -> Z.of_nat d < mx -> agF c d -> agR c d ->
  exists c' r,
    k_loop (forward_step data aoffset boffset alimit blimit)
      (Z.to_nat (Z.of_nat d + 1)) fmid c (Z.of_nat d) (fmid - Z.of_nat d)
      = Ok (c', r) /\
    allocated mx fl c' /\ reverse c' = reverse c /\
    ((r = None /\ agF c' (S d) /\ qF d) \/
     (exists i, 0 <= i <= Z.of_nat d /\
        r = Some (FWd d (kfd d i), FWd d (kfd d i) - kfd d i) /\
        hF d (kfd d i) = true /\
        FV c' (kfd d i) = FWd d (kfd d i) /\
        RV c' (kfd d i) <= FWd d (kfd d i))).
Proof.
  intros Hc Hd HagF HagR.
  set (Inv := fun (i : Z) (c1 : context) =>
    allocated mx fl c1 /\ reverse c1 = reverse c /\
    (forall j, 0 <= mx - fmid + j ->
       (forall i', 0 <= i' < i -> j <> kfd d i') -> FV c1 j = FV c j) /\
    (forall i', 0 <= i' < i -> FV c1 (kfd d i') = FWd d (kfd d i'))).
  assert (Hstep : forall i c1, 0 <= i <= Z.of_nat d -> Inv i c1 ->
    exists c',
      forward_step data aoffset boffset alimit blimit c1 (Z.of_nat d)
        (fmid - Z.of_nat d + 2 * i)
        = Ok (c', if hF d (kfd d i)
                  then Some (FWd d (kfd d i), FWd d (kfd d i) - kfd d i)
                  else None) /\
      Inv (i + 1) c').
  { intros i c1 Hi (Hc1 & Hrev & Hframe & Hcur).
    fold (kfd d i).
    pose proof (forward_reads c c1 d i HagF Hi Hd Hframe) as Eread.
    destruct (forward_entries data eqb aoffset boffset alimit blimit Heq d i Hi)
      as ((Hp1 & Hp2 & _) & _).
    rewrite <- Eread in Hp1, Hp2.
    destruct (forward_step_refine data eqb aoffset boffset alimit blimit mx fl
                Heq c1 (Z.of_nat d) (kfd d i) Hc1 ltac:(lia) Hmx
                ltac:(unfold kf; lia) Hp1 Hp2)
      as (c2 & E & Hc2 & Hrev2 & Hnew & Hframe2).
    rewrite Eread, <- FW_eq in E, Hnew.
    assert (Emax : max c1 = max c)
      by (destruct Hc as (-> & _); destruct Hc1 as (-> & _); reflexivity).
    rewrite (Rv_same _ _ c c1 _ Hrev Emax) in E.
    rewrite (forward_test c d i _ HagR Hi) in E.
    exists c2. split; [exact E|].
    split; [exact Hc2|]. split; [congruence|]. split.
    - intros j Hj Hne. rewrite Hframe2; trivial.
      + apply Hframe; trivial. intros i' Hi'. apply Hne. lia.
      + apply Hne. lia.
    - intros i' Hi'. destruct (Z.eq_dec i' i) as [->|Hne]; [exact Hnew|].
      rewrite Hframe2.
      + apply Hcur. lia.
      + unfold kf. lia.
      + unfold kf. lia. }
  destruct (k_loop_spec (forward_step data aoffset boffset alimit blimit)
              fmid (Z.of_nat d) Inv (fun i => hF d (kfd d i))
              (fun i => (FWd d (kfd d i), FWd d (kfd d i) - kfd d i))
              Hstep (Z.to_nat (Z.of_nat d + 1)) 0 c ltac:(lia) ltac:(lia))
    as (c' & r & E & Hres).
  { split; [exact Hc|]. split; [reflexivity|]. split; [reflexivity|].
    intros; lia. }
  rewrite Z.mul_0_r, Z.add_0_r in E.
  exists c', r. split; [exact E|].
  destruct Hres as [(-> & (Hc' & Hrev & Hframe & Hcur) & Hno)
                   |(i & Hi & -> & Hh & _ & (Hc' & Hrev & Hframe & Hcur))].
  - split; [exact Hc'|]. split; [exact Hrev|]. left.
    split; [reflexivity|]. split.
    + intros i Hi. apply Hcur. lia.
    + intros i Hi. apply Hno. lia.
  - split; [exact Hc'|]. split; [exact Hrev|]. right.
    exists i. split; [lia|]. split; [reflexivity|]. split; [exact Hh|].
    split; [apply Hcur; lia|].
    assert (Emax : max c' = max c)
      by (destruct Hc as (-> & _); destruct Hc' as (-> & _); reflexivity).
    rewrite (Rv_same _ _ c c' _ Hrev Emax).
    unfold hitF in Hh. rewrite <- (forward_test c d i _ HagR ltac:(lia)) in Hh.
    apply andb_true_iff in Hh. destruct Hh as [_ Hh].
    now apply Z.leb_le in Hh.
Qed.

(** The test of the reverse loop is [hitR]: where it reads the forward
    buffer, the buffer holds an entry of round [d]. *)
Lemma reverse_test (c : context) (d : nat) (i x : Z) :
  agF c (S d) -> 0 <= i <= Z.of_nat d ->
  (if negb (odd_delta aoffset boffset alimit blimit)
      && (krd d i >=? fmid - Z.of_nat d) && (krd d i <=? fmid + Z.of_nat d)
      && (x <=? FV c (krd d i))
   then Some (FV c (krd d i), FV c (krd d i) - krd d i) else None)
  = (if negb (odd_delta aoffset boffset alimit blimit)
        && (krd d i >=? fmid - Z.of_nat d) && (krd d i <=? fmid + Z.of_nat d)
        && (x <=? FWd d (krd d i))
     then Some (FWd d (krd d i), FWd d (krd d i) - krd d i) else None).
Proof.
  intros Hag Hi.
  destruct (odd_delta aoffset boffset alimit blimit) eqn:Eo; trivial.
  destruct (krd d i >=? fmid - Z.of_nat d) eqn:E1; trivial.
  destruct (krd d i <=? fmid + Z.of_nat d) eqn:E2; trivial.
  cbn [andb negb]. rewrite Z.geb_leb in E1. apply Z.leb_le in E1, E2.
  destruct (odd_delta_false _ _ _ _ Eo) as (e & He).
  replace (krd d i) with (kfd d (i + e)) by (unfold kf, kr; lia).
  rewrite !(Hag (i + e)) by (unfold kr in *; lia). reflexivity.
Qed.

Lemma reverse_round (d : nat) (c : context) :
  allocated mx fl c -> Z.of_nat d < mx -> agR c d -> agF c (S d) ->
  exists c' r,
    k_loop (reverse_step data aoffset boffset alimit blimit)
      (Z.to_nat (Z.of_nat d + 1)) rmid c (Z.of_nat d) (rmid - Z.of_nat d)
      = Ok (c', r) /\
    allocated mx fl c' /\ forward c' = forward c /\
    ((r = None /\ agR c' (S d) /\ qR d) \/
     (exists i, 0 <= i <= Z.of_nat d /\
        r = Some (FWd d (krd d i), FWd d (krd d i) - krd d i) /\
        hR d (krd d i) = true /\
        FV c' (krd d i) = FWd d (krd d i) /\
        RV c' (krd d i) <= FWd d (krd d i))).
Proof.
  intros Hc Hd HagR HagF.
  set (Inv := fun (i : Z) (c1 : context) =>
    allocated mx fl c1 /\ forward c1 = forward c /\
    (forall j, 0 <= mx - rmid + j ->
       (forall i', 0 <= i' < i -> j <> krd d i') -> RV c1 j = RV c j) /\
    (forall i', 0 <= i' < i -> RV c1 (krd d i') = RWd d (krd d i'))).
  assert (Hstep : forall i c1, 0 <= i <= Z.of_nat d -> Inv i c1 ->
    exists c',
      reverse_step data aoffset boffset alimit blimit c1 (Z.of_nat d)
        (rmid - Z.of_nat d + 2 * i)
        = Ok (c', if hR d (krd d i)
                  then Some (FWd d (krd d i), FWd d (krd d i) - krd d i)
                  else None) /\
      Inv (i + 1) c').
  { intros i c1 Hi (Hc1 & Hfwd & Hframe & Hcur).
    fold (krd d i).
    pose proof (reverse_reads c c1 d i HagR Hi Hd Hframe) as Eread.
    destruct (reverse_entries data eqb aoffset boffset alimit blimit Heq d i Hi)
      as ((Hp1 & Hp2 & _) & _).
    rewrite <- Eread in Hp1, Hp2.
    destruct (reverse_step_refine data eqb aoffset boffset alimit blimit mx fl
                Heq c1 (Z.of_nat d) (krd d i) Hc1 ltac:(lia) Hmx
                ltac:(unfold kr; lia) Hp1 Hp2)
      as (c2 & E & Hc2 & Hfwd2 & Hnew & Hframe2).
    rewrite Eread, <- RW_eq in E, Hnew.
    assert (Emax : max c1 = max c)
      by (destruct Hc as (-> & _); destruct Hc1 as (-> & _); reflexivity).
    rewrite (Fv_same _ _ c c1 _ Hfwd Emax) in E.
    rewrite (reverse_test c d i _ HagF Hi) in E.
    exists c2. split; [exact E|].
    split; [exact Hc2|]. split; [congruence|]. split.
    - intros j Hj Hne. rewrite Hframe2; trivial.
      + apply Hframe; trivial. intros i' Hi'. apply Hne. lia.
      + apply Hne. lia.
    - intros i' Hi'. destruct (Z.eq_dec i' i) as [->|Hne]; [exact Hnew|].
      rewrite Hframe2.
      + apply Hcur. lia.
      + unfold kr. lia.
      + unfold kr. lia. }
  destruct (k_loop_spec (reverse_step data aoffset boffset alimit blimit)
              rmid (Z.of_nat d) Inv (fun i => hR d (krd d i))
              (fun i => (FWd d (krd d i), FWd d (krd d i) - krd d i))
              Hstep (Z.to_nat (Z.of_nat d + 1)) 0 c ltac:(lia) ltac:(lia))
    as (c' & r & E & Hres).
  { split; [exact Hc|]. split; [reflexivity|]. split; [reflexivity|].
    intros; lia. }
  rewrite Z.mul_0_r, Z.add_0_r in E.
  exists c', r. split; [exact E|].
  destruct Hres as [(-> & (Hc' & Hfwd & Hframe & Hcur) & Hno)
                   |(i & Hi & -> & Hh & _ & (Hc' & Hfwd & Hframe & Hcur))].
  - split; [exact Hc'|]. split; [exact Hfwd|]. left.
    split; [reflexivity|]. split.
    + intros i Hi. apply Hcur. lia.
    + intros i Hi. apply Hno. lia.
  - split; [exact Hc'|]. split; [exact Hfwd|]. right.
    exists i. split; [lia|]. split; [reflexivity|]. split; [exact Hh|].
    assert (Emax : max c' = max c)
      by (destruct Hc as (-> & _); destruct Hc' as (-> & _); reflexivity).
    assert (EF : FV c' (krd d i) = FWd d (krd d i)).
    { rewrite (Fv_same _ _ c c' _ Hfwd Emax).
      unfold hitR in Hh.
      apply andb_true_iff in Hh. destruct Hh as [Hh _].
      apply andb_true_iff in Hh. destruct Hh as [Hh E2].
      apply andb_true_iff in Hh. destruct Hh as [Eo E1].
      apply negb_true_iff in Eo.
      rewrite Z.geb_leb in E1. apply Z.leb_le in E1, E2.
      destruct (odd_delta_false _ _ _ _ Eo) as (e & He).
      replace (krd d i) with (kfd d (i + e)) by (unfold kf, kr; lia).
      apply HagF. unfold kr in *. lia. }
    split; [exact EF|].
    rewrite (Hcur i ltac:(lia)).
    unfold hitR in Hh. apply andb_true_iff in Hh. destruct Hh as [_ Hh].
    now apply Z.leb_le in Hh.
Qed.

Local Abbreviation maxd :=
  (Z.quot (alimit - aoffset + blimit - boffset + 2) 2).
Local Abbreviation mts := (meets data aoffset boffset alimit blimit).

(** The loop over [d]: it returns the forward entry of the first test that
    holds, or panics after [maxd] rounds without one. *)
Lemma d_loop_refine : forall (fuel d : nat) (c : context),
  allocated mx fl c -> maxd < mx -> agF c d -> agR c d ->
  (Z.to_nat (maxd + 1 - Z.of_nat d) <= fuel)%nat ->
  (forall d', (d' < d)%nat -> qF d' /\ qR d') ->
  (exists c' d' k,
     Z.of_nat d' <= maxd /\ mts d' k /\
     d_loop data aoffset boffset alimit blimit fuel c (Z.of_nat d)
       = Ok (c', (FWd d' k, FWd d' k - k)) /\
     allocated mx fl c' /\ FV c' k = FWd d' k /\ RV c' k <= FWd d' k) \/
  (d_loop data aoffset boffset alimit blimit fuel c (Z.of_nat d)
     = Panic (Explicit "should never be reached") /\
   forall d', Z.of_nat d' <= maxd -> qF d' /\ qR d').
Proof.
  induction fuel as [|fuel IH]; intros d c Hc Hmaxd HagF HagR Hfuel Hquiet.
  - right. split.
    + cbn [d_loop]. now cmp.
    + intros d' Hd'. apply Hquiet. lia.
  - destruct (Z_le_gt_dec (Z.of_nat d) maxd) as [Hd|Hd].
    2:{ right. split.
        - cbn [d_loop]. now cmp.
        - intros d' Hd'. apply Hquiet. lia. }
    destruct (forward_round d c Hc ltac:(lia) HagF HagR)
      as (c1 & r1 & E1 & Hc1 & Hrev1 & Hres1).
    assert (Emax1 : max c1 = max c)
      by (destruct Hc as (-> & _); destruct Hc1 as (-> & _); reflexivity).
    destruct Hres1 as [(-> & HagF1 & HqF)|(i & Hi & -> & Hh & HF & HR)].
    2:{ left. exists c1, d, (kfd d i).
        split; [exact Hd|]. split.
        { split; [exact Hquiet|]. left. exists i. now split; [|split]. }
        split.
        { cbn [d_loop]. cmp. rewrite E1. reflexivity. }
        now split; [|split]. }
    assert (HagR1 : agR c1 d).
    { destruct d as [|d]; cbn [agreeR] in *.
      - now rewrite (Rv_same _ _ c c1 _ Hrev1 Emax1).
      - intros i Hi. rewrite (Rv_same _ _ c c1 _ Hrev1 Emax1). now apply HagR. }
    destruct (reverse_round d c1 Hc1 ltac:(lia) HagR1 HagF1)
      as (c2 & r2 & E2 & Hc2 & Hfwd2 & Hres2).
    assert (Emax2 : max c2 = max c1)
      by (destruct Hc1 as (-> & _); destruct Hc2 as (-> & _); reflexivity).
    destruct Hres2 as [(-> & HagR2 & HqR)|(i & Hi & -> & Hh & HF & HR)].
    2:{ left. exists c2, d, (krd d i).
        split; [exact Hd|]. split.
        { split; [exact Hquiet|]. right. split; [exact HqF|].
          exists i. now split; [|split]. }
        split.
        { cbn [d_loop]. cmp. rewrite E1. cbn [bind]. rewrite E2. reflexivity. }
        now split; [|split]. }
    assert (HagF2 : agF c2 (S d)).
    { intros i Hi. rewrite (Fv_same _ _ c1 c2 _ Hfwd2 Emax2). now apply HagF1. }
    destruct (IH (S d) c2 Hc2 Hmaxd HagF2 HagR2 ltac:(lia)) as [Hok|Hpanic].
    { intros d' Hd'. destruct (Nat.eq_dec d' d) as [->|Hne].
      - now split.
      - apply Hquiet. lia. }
    + left. destruct Hok as (c' & d' & k & H1 & H2 & H3 & H4).
      exists c', d', k. split; [exact H1|]. split; [exact H2|].
      split; [|exact H4].
      cbn [d_loop]. cmp. rewrite E1. cbn [bind]. rewrite E2. cbn [bind].
      replace (Z.of_nat d + 1) with (Z.of_nat (S d)) by lia. exact H3.
    + right. destruct Hpanic as (H1 & H2). split; [|exact H2].
      cbn [d_loop]. cmp. rewrite E1. cbn [bind]. rewrite E2. cbn [bind].
      replace (Z.of_nat d + 1) with (Z.of_nat (S d)) by lia. exact H1.
Qed.

(** [findMiddleSnake] returns the forward entry of the first test that
    holds, on buffers that hold this entry and a reverse entry at or before
    it; or it reaches its [panic], after [maxd] rounds without such a
    test. *)
Lemma findMiddleSnake_refine (c : context) :
  sized c -> max c = mx -> flags c = fl -> maxd < mx ->
  (exists c' d k,
     Z.of_nat d <= maxd /\ mts d k /\
     findMiddleSnake data aoffset boffset alimit blimit c
       = Ok (c', (FWd d k, FWd d k - k)) /\
     allocated mx fl c' /\ FV c' k = FWd d k /\ RV c' k <= FWd d k) \/
  (findMiddleSnake data aoffset boffset alimit blimit c
     = Panic (Explicit "should never be reached") /\
   forall d, Z.of_nat d <= maxd -> qF d /\ qR d).
Proof.
  intros Hs Hmax Hfl Hmaxd. unfold findMiddleSnake.
  assert (Halloc : exists c0,
    (match forward c with
     | None => f <- make (2 * max c) ;; r <- make (2 * max c) ;;
               Ok (mkContext (flags c) (max c) (Some f) (Some r))
     | Some _ => Ok c
     end) = Ok c0 /\ allocated mx fl c0).
  { destruct Hs as [[Hf Hr]|(f & r & Hf & Hr & Lf & Lr)]; rewrite Hf.
    - rewrite make_ok by lia. cbn [bind]. eexists. split; [reflexivity|].
      split; [exact Hmax|]. split; [exact Hfl|].
      eexists. eexists. cbn [forward reverse].
      split; [reflexivity|]. split; [reflexivity|].
      rewrite len_repeat. lia.
    - exists c. split; [reflexivity|].
      split; [exact Hmax|]. split; [exact Hfl|].
      exists f, r. rewrite <- Hmax. now split; [|split; [|split]]. }
  destruct Halloc as (c0 & E0 & (Hmax0 & Hfl0 & f & r & Hf & Hr & Lf & Lr)).
  rewrite E0. cbn [bind].
  rewrite Hf, Hmax0. cbn [slice]. rewrite store_ok by lia. cbn [bind].
  cbn [set_forward reverse max]. rewrite Hr, Hmax0. cbn [slice].
  rewrite store_ok by lia. cbn [bind].
  set (fw := update f (Z.to_nat (mx + 1)) aoffset).
  set (rv := update r (Z.to_nat (mx - 1)) alimit).
  set (c2 := set_reverse (set_forward c0 fw) rv).
  assert (Hc2 : allocated mx fl c2).
  { split; [exact Hmax0|]. split; [exact Hfl0|]. exists fw, rv.
    unfold fw, rv. rewrite !len_update. now split; [|split; [|split]]. }
  assert (HagF : agF c2 0%nat).
  { cbn [agreeF]. unfold Fv, c2.
    cbn [set_reverse set_forward forward max slice]. rewrite Hmax0.
    replace (mx - fmid + (fmid + 1)) with (mx + 1) by lia.
    unfold fw. apply rd_update_same. lia. }
  assert (HagR : agR c2 0%nat).
  { cbn [agreeR]. unfold Rv, c2.
    cbn [set_reverse set_forward reverse max slice]. rewrite Hmax0.
    replace (mx - rmid + (rmid - 1)) with (mx - 1) by lia.
    unfold rv. apply rd_update_same. lia. }
  exact (d_loop_refine (Z.to_nat (maxd + 1)) 0 c2 Hc2 Hmaxd HagF HagR
           ltac:(lia) ltac:(intros; lia)).
Qed.

End Rounds.

(** ** The search ends

    A forward entry of round [d] is [d] steps after the start and a reverse
    entry of round [d'] is [d'] steps before the end: on a common diagonal
    the two have met as soon as [d + d'] reaches the size of the
    rectangle. *)

Section Termination.

Variable data : Interface.
Variable eqb : Z -> Z -> bool.
Variables aoffset boffset alimit blimit : Z.

Hypothesis Heq : forall i j,
  aoffset <= i < alimit -> boffset <= j < blimit ->
  Equal data i j = Ok (eqb i j).
Hypothesis Ha : aoffset < alimit.
Hypothesis Hb : boffset < blimit.

Local Abbreviation fmid := (aoffset - boffset).
Local Abbreviation rmid := (alimit - blimit).
Local Abbreviation FWd := (FW data aoffset boffset alimit blimit).
Local Abbreviation RWd := (RW data aoffset boffset alimit blimit).
Local Abbreviation kfd := (kf aoffset boffset).
Local Abbreviation krd := (kr alimit blimit).
Local Abbreviation hF := (hitF data aoffset boffset alimit blimit).
Local Abbreviation hR := (hitR data aoffset boffset alimit blimit).
Local Abbreviation qF := (quietF data aoffset boffset alimit blimit).
Local Abbreviation qR := (quietR data aoffset boffset alimit blimit).
Local Abbreviation maxd :=
  (Z.quot (alimit - aoffset + blimit - boffset + 2) 2).

Lemma maxd_proper :
  maxd = (alimit - aoffset + blimit - boffset + 2) / 2.
Proof. apply Z.quot_div_nonneg; lia. Qed.

Lemma some_round_meets :
  exists d, Z.of_nat d <= maxd /\ ~ (qF d /\ qR d).
Proof.
  pose proof maxd_proper as Emaxd.
  pose proof (Z.div_mod (alimit - aoffset + blimit - boffset + 2) 2
                ltac:(lia)) as Hdm.
  pose proof (Z.mod_pos_bound (alimit - aoffset + blimit - boffset + 2) 2
                ltac:(lia)) as Hmb.
  destruct (odd_delta aoffset boffset alimit blimit) eqn:Eo.
  - destruct (odd_delta_true _ _ _ _ Eo) as (e & He).
    set (d := Z.to_nat (e + (blimit - boffset) + 1)).
    assert (Hd : Z.of_nat d = e + (blimit - boffset) + 1) by lia.
    exists d. split; [lia|]. intros [HqF _].
    assert (Hhit : forall i j, 0 <= i <= Z.of_nat d ->
              0 <= j <= Z.of_nat (pred d) -> kfd d i = krd (pred d) j ->
              rmid - Z.of_nat d < kfd d i < rmid + Z.of_nat d ->
              hF d (kfd d i) = true).
    { intros i j Hi Hj Ek Hrange. unfold hitF. rewrite Eo. cbn [andb].
      rewrite Z.gtb_ltb.
      rewrite (proj2 (Z.ltb_lt _ _) (proj1 Hrange)).
      rewrite (proj2 (Z.ltb_lt _ _) (proj2 Hrange)). cbn [andb].
      apply Z.leb_le.
      destruct (forward_entries data eqb aoffset boffset alimit blimit Heq
                  d i Hi) as (_ & _ & _ & HF).
      destruct (reverse_entries data eqb aoffset boffset alimit blimit Heq
                  (pred d) j Hj) as (_ & _ & _ & HR).
      rewrite <- Ek in HR. lia. }
    destruct (Z_lt_le_dec 0 (rmid - fmid)) as [Hpos|Hneg].
    + specialize (HqF (Z.of_nat d) ltac:(lia)).
      rewrite (Hhit (Z.of_nat d) (blimit - boffset)) in HqF;
        try discriminate; unfold kf, kr; lia.
    + specialize (HqF 0 ltac:(lia)).
      rewrite (Hhit 0 (- e - 1)) in HqF;
        try discriminate; unfold kf, kr; lia.
  - destruct (odd_delta_false _ _ _ _ Eo) as (e & He).
    set (d := Z.to_nat (e + (blimit - boffset))).
    assert (Hd : Z.of_nat d = e + (blimit - boffset)) by lia.
    exists d. split; [lia|]. intros [_ HqR].
    assert (Hhit : forall i j, 0 <= i <= Z.of_nat d ->
              0 <= j <= Z.of_nat d -> krd d i = kfd d j ->
              hR d (krd d i) = true).
    { intros i j Hi Hj Ek. unfold hitR. rewrite Eo. cbn [andb negb].
      rewrite Z.geb_leb.
      replace (fmid - Z.of_nat d <=? krd d i) with true
        by (symmetry; apply Z.leb_le; rewrite Ek; unfold kf; lia).
      replace (krd d i <=? fmid + Z.of_nat d) with true
        by (symmetry; apply Z.leb_le; rewrite Ek; unfold kf; lia).
      cbn [andb]. apply Z.leb_le.
      destruct (reverse_entries data eqb aoffset boffset alimit blimit Heq
                  d i Hi) as (_ & _ & _ & HR).
      destruct (forward_entries data eqb aoffset boffset alimit blimit Heq
                  d j Hj) as (_ & _ & _ & HF).
      rewrite <- Ek in HF. lia. }
    destruct (Z_le_gt_dec 0 (rmid - fmid)) as [Hpos|Hneg].
    + specialize (HqR 0 ltac:(lia)).
      rewrite (Hhit 0 e) in HqR; try discriminate; unfold kf, kr; lia.
    + specialize (HqR (Z.of_nat d) ltac:(lia)).
      rewrite (Hhit (Z.of_nat d) (e + Z.of_nat d)) in HqR;
        try discriminate; unfold kf, kr; lia.
Qed.

End Termination.

(** C6. On a rectangle with both sides non-empty, with an equality that
    answers on the rectangle and buffers sized for it, [findMiddleSnake]
    returns: in some round [d <= maxd] a test of the search holds on some
    diagonal [k], the result is the forward entry [(x, x - k)] of that
    round, and the buffers hold on diagonal [k] this forward entry and a
    reverse entry at or before it.  The [panic] is not reached. *)
Theorem C6_findMiddleSnake_returns (data : Interface) (eqb : Z -> Z -> bool)
    (aoffset boffset alimit blimit : Z) (c : context) :
  aoffset < alimit -> boffset < blimit ->
  (forall i j, aoffset <= i < alimit -> boffset <= j < blimit ->
     Equal data i j = Ok (eqb i j)) ->
  sized c -> alimit - aoffset + (blimit - boffset) < max c ->
  exists c' d k x,
    Z.of_nat d <= Z.quot (alimit - aoffset + blimit - boffset + 2) 2 /\
    meets data aoffset boffset alimit blimit d k /\
    x = FW data aoffset boffset alimit blimit d k /\
    findMiddleSnake data aoffset boffset alimit blimit c = Ok (c', (x, x - k)) /\
    Fv aoffset boffset c' k = x /\ Rv alimit blimit c' k <= x.
Proof.
  intros Ha Hb Heq Hs Hmax.
  pose proof (maxd_proper aoffset boffset alimit blimit Ha Hb) as Emaxd.
  pose proof (Z.div_mod (alimit - aoffset + blimit - boffset + 2) 2
                ltac:(lia)) as Hdm.
  pose proof (Z.mod_pos_bound (alimit - aoffset + blimit - boffset + 2) 2
                ltac:(lia)) as Hmb.
  destruct (findMiddleSnake_refine data eqb aoffset boffset alimit blimit
              (max c) (flags c) Heq ltac:(lia) c Hs eq_refl eq_refl
              ltac:(lia))
    as [(c' & d & k & Hd & Hm & E & _ & HF & HR)|(_ & Hquiet)].
  - exists c', d, k, (FW data aoffset boffset alimit blimit d k).
    now split; [|split; [|split; [|split; [|split]]]].
  - exfalso.
    destruct (some_round_meets data eqb aoffset boffset alimit blimit
                Heq Ha Hb) as (d & Hd & Hnq).
    apply Hnq. apply Hquiet. exact Hd.
Qed.

Lemma C6_findMiddleSnake_returns_witness :
  exists c' d k x,
    Z.of_nat d <= Z.quot (1 - 0 + 1 - 0 + 2) 2 /\
    meets (Ints [1] [2]) 0 0 1 1 d k /\
    x = FW (Ints [1] [2]) 0 0 1 1 d k /\
    findMiddleSnake (Ints [1] [2]) 0 0 1 1 (initial (Ints [1] [2]) [0])
      = Ok (c', (x, x - k)) /\
    Fv 0 0 c' k = x /\ Rv 1 1 c' k <= x.
Proof.
  apply (C6_findMiddleSnake_returns (Ints [1] [2])
           (fun i j => rd [1] i =? rd [2] j) 0 0 1 1
           (initial (Ints [1] [2]) [0])).
  - lia.
  - lia.
  - intros i j Hi Hj.
    assert (Ei : i = 0) by lia. assert (Ej : j = 0) by lia.
    subst i j. reflexivity.
  - left. split; reflexivity.
  - vm_compute. reflexivity.
Defined.

(** ** Where the returned point lies

    The point that [findMiddleSnake] returns is a forward entry.  It lies
    at or after the start of the rectangle; on a rectangle with both sides
    non-empty it lies in sum at or before the end, and on any other
    rectangle no snake is followed and it lies exactly [d] steps after the
    start. *)

Section Position.

Variable data : Interface.
Variable eqb : Z -> Z -> bool.
Variables aoffset boffset alimit blimit : Z.

Hypothesis Heq : forall i j,
  aoffset <= i < alimit -> boffset <= j < blimit ->
  Equal data i j = Ok (eqb i j).

Local Abbreviation fmid := (aoffset - boffset).
Local Abbreviation rmid := (alimit - blimit).
Local Abbreviation sd := (slide_down data alimit blimit).
Local Abbreviation fp := (fpre aoffset boffset).
Local Abbreviation FWd := (FW data aoffset boffset alimit blimit).
Local Abbreviation RWd := (RW data aoffset boffset alimit blimit).
Local Abbreviation kfd := (kf aoffset boffset).
Local Abbreviation krd := (kr alimit blimit).
Local Abbreviation pF := (prevF data aoffset boffset alimit blimit).
Local Abbreviation hF := (hitF data aoffset boffset alimit blimit).
Local Abbreviation hR := (hitR data aoffset boffset alimit blimit).
Local Abbreviation qF := (quietF data aoffset boffset alimit blimit).
Local Abbreviation qR := (quietR data aoffset boffset alimit blimit).
Local Abbreviation mts := (meets data aoffset boffset alimit blimit).
Local Abbreviation odd := (odd_delta aoffset boffset alimit blimit).

(** The diagonal of a meeting is a diagonal of the forward search. *)
Lemma meets_forward (d : nat) (k : Z) :
  mts d k ->
  exists i, 0 <= i <= Z.of_nat d /\ k = kfd d i /\
    let rad := if odd then Z.of_nat d - 1 else Z.of_nat d in
    rmid - rad <= k <= rmid + rad.
Proof.
  intros (_ & [(i & Hi & -> & Hh)|(_ & j & Hj & -> & Hh)]).
  - exists i. split; [exact Hi|]. split; [reflexivity|].
    unfold hitF in Hh.
    apply andb_true_iff in Hh. destruct Hh as [Hh _].
    apply andb_true_iff in Hh. destruct Hh as [Hh E2].
    apply andb_true_iff in Hh. destruct Hh as [Eo E1].
    rewrite Eo. rewrite Z.gtb_ltb in E1. apply Z.ltb_lt in E1, E2.
    cbv zeta. lia.
  - unfold hitR in Hh.
    apply andb_true_iff in Hh. destruct Hh as [Hh _].
    apply andb_true_iff in Hh. destruct Hh as [Hh E2].
    apply andb_true_iff in Hh. destruct Hh as [Eo E1].
    apply negb_true_iff in Eo.
    rewrite Z.geb_leb in E1. apply Z.leb_le in E1, E2.
    destruct (odd_delta_false _ _ _ _ Eo) as (e & He).
    exists (j + e). unfold kf, kr in *. rewrite Eo. cbv zeta. lia.
Qed.

(** P2: the returned point lies at or after the start. *)
Lemma meets_after_start (d : nat) (k : Z) :
  mts d k -> afterF aoffset boffset d (FWd d k) k.
Proof.
  intros Hm. destruct (meets_forward d k Hm) as (i & Hi & -> & _).
  now apply (forward_entries data eqb aoffset boffset alimit blimit Heq d i).
Qed.

(** An entry that the snake loop has moved lies inside the rectangle. *)
Lemma forward_grid (d : nat) (i : Z) :
  0 <= i <= Z.of_nat d ->
  FWd d (kfd d i) = fp (pF d) (Z.of_nat d) (kfd d i) \/
  (FWd d (kfd d i) <= alimit /\ FWd d (kfd d i) - kfd d i <= blimit).
Proof.
  intros Hi.
  destruct (forward_entries data eqb aoffset boffset alimit blimit Heq d i Hi)
    as ((H1 & H2 & _) & _).
  rewrite FW_eq.
  destruct (slide_down_ok data eqb aoffset boffset alimit blimit Heq _ _ H1 H2)
    as (_ & _ & H).
  exact H.
Qed.

(** On a rectangle with an empty (or negative) side no snake is followed:
    every forward entry of round [d] is exactly [d] steps from the start. *)
Lemma forward_entries_exact (d : nat) :
  alimit <= aoffset \/ blimit <= boffset ->
  forall i, 0 <= i <= Z.of_nat d ->
    2 * FWd d (kfd d i) - kfd d i = aoffset + boffset + Z.of_nat d.
Proof.
  intros Himp.
  assert (Hstay : forall x k, aoffset <= x -> boffset <= x - k -> sd x k = x).
  { intros x k Hx Hy. unfold slide_down.
    rewrite snake_down_stop; trivial.
    destruct Himp; [rewrite (proj2 (Z.ltb_ge x alimit)) by lia; reflexivity|].
    rewrite (proj2 (Z.ltb_ge (x - k) blimit)) by lia. apply andb_false_r. }
  induction d as [|d IH]; intros i Hi.
  - assert (i = 0) by lia. subst i. rewrite FW_eq.
    unfold fpre, kf. cbn [prevF Z.of_nat]. cmp. rewrite Hstay; lia.
  - destruct (forward_entries data eqb aoffset boffset alimit blimit Heq
                (S d) i Hi) as ((H1 & H2 & _) & _).
    rewrite FW_eq, Hstay by trivial. cbn [prevF].
    destruct (fpre_kf aoffset boffset (FWd d) d i Hi) as [[Hi' E]|[Hi' E]];
      rewrite E.
    + specialize (IH i ltac:(lia)). unfold kf in *. lia.
    + specialize (IH (i - 1) ltac:(lia)). unfold kf in *. lia.
Qed.

End Position.

(** ** The returned point on a rectangle with two non-empty sides

    The forward rule of [findMiddleSnake] takes the smaller of the two
    neighbouring entries, so a forward entry can lie outside the rectangle.
    The tests of the rounds before tell where: an entry that was compared
    with a reverse entry and did not end the search lies strictly inside,
    and the entry that ends the search is one step from such an entry or on
    the outermost path of its round. *)

Section Inside.

Variable data : Interface.
Variable eqb : Z -> Z -> bool.
Variables aoffset boffset alimit blimit : Z.

Hypothesis Heq : forall i j,
  aoffset <= i < alimit -> boffset <= j < blimit ->
  Equal data i j = Ok (eqb i j).
Hypothesis Ha : aoffset < alimit.
Hypothesis Hb : boffset < blimit.

Local Abbreviation fmid := (aoffset - boffset).
Local Abbreviation rmid := (alimit - blimit).
Local Abbreviation sd := (slide_down data alimit blimit).
Local Abbreviation fp := (fpre aoffset boffset).
Local Abbreviation FWd := (FW data aoffset boffset alimit blimit).
Local Abbreviation RWd := (RW data aoffset boffset alimit blimit).
Local Abbreviation kfd := (kf aoffset boffset).
Local Abbreviation krd := (kr alimit blimit).
Local Abbreviation pF := (prevF data aoffset boffset alimit blimit).
Local Abbreviation qF := (quietF data aoffset boffset alimit blimit).
Local Abbreviation qR := (quietR data aoffset boffset alimit blimit).
Local Abbreviation mts := (meets data aoffset boffset alimit blimit).
Local Abbreviation odd := (odd_delta aoffset boffset alimit blimit).

(** The forward rule, with the condition under which each branch is taken. *)
Lemma fpre_rule (V : Z -> Z) (d : nat) (i : Z) :
  0 <= i <= Z.of_nat (S d) ->
  (i = 0 /\ fp V (Z.of_nat (S d)) (kfd (S d) i) = V (kfd d 0)) \/
  (i = Z.of_nat (S d) /\
   fp V (Z.of_nat (S d)) (kfd (S d) i) = V (kfd d (Z.of_nat d)) + 1) \/
  (0 < i < Z.of_nat (S d) /\ V (kfd d i) < V (kfd d (i - 1)) /\
   fp V (Z.of_nat (S d)) (kfd (S d) i) = V (kfd d i)) \/
  (0 < i < Z.of_nat (S d) /\ V (kfd d (i - 1)) <= V (kfd d i) /\
   fp V (Z.of_nat (S d)) (kfd (S d) i) = V (kfd d (i - 1)) + 1).
Proof.
  intros Hi. unfold fpre. rewrite kf_succ, kf_pred.
  destruct (kfd (S d) i =? fmid - Z.of_nat (S d)) eqn:E1.
  - left. apply Z.eqb_eq in E1. unfold kf in E1.
    assert (i = 0) by lia. subst i. split; reflexivity.
  - apply Z.eqb_neq in E1. unfold kf in E1. right.
    destruct (kfd (S d) i =? fmid + Z.of_nat (S d)) eqn:E2; cbn [negb andb].
    + left. apply Z.eqb_eq in E2. unfold kf in E2.
      assert (i = Z.of_nat (S d)) by lia. subst i.
      split; [reflexivity|]. do 2 f_equal. unfold kf. lia.
    + apply Z.eqb_neq in E2. unfold kf in E2. right.
      destruct (V (kfd d i) <? V (kfd d (i - 1))) eqn:E3.
      * left. apply Z.ltb_lt in E3. split; [lia|]. split; [lia|reflexivity].
      * right. apply Z.ltb_ge in E3. split; [lia|]. split; [lia|reflexivity].
Qed.

(** The snake loop only moves an entry forward. *)
Lemma forward_grows (d : nat) (i : Z) :
  0 <= i <= Z.of_nat d ->
  fp (pF d) (Z.of_nat d) (kfd d i) <= FWd d (kfd d i).
Proof.
  intros Hi.
  destruct (forward_entries data eqb aoffset boffset alimit blimit Heq d i Hi)
    as ((H1 & H2 & _) & _).
  rewrite FW_eq.
  now destruct (slide_down_ok data eqb aoffset boffset alimit blimit Heq
                  _ _ H1 H2) as (_ & H & _).
Qed.

(** The lowest diagonal of a round is reached by going down only, the
    highest by going right only: neither leaves the rectangle on the side
    it runs along. *)
Lemma extreme_left (d : nat) : FWd d (kfd d 0) <= alimit.
Proof.
  induction d as [|d IH].
  - destruct (forward_grid data eqb aoffset boffset alimit blimit Heq 0 0
                ltac:(lia)) as [E|E]; [|lia].
    rewrite E. unfold fpre, kf. cbn [prevF Z.of_nat]. cmp. lia.
  - destruct (forward_grid data eqb aoffset boffset alimit blimit Heq (S d) 0
                ltac:(lia)) as [E|E]; [|lia].
    rewrite E. cbn [prevF].
    destruct (fpre_rule (FWd d) d 0 ltac:(lia))
      as [(_ & E')|[(? & _)|[(? & _)|(? & _)]]]; lia.
Qed.

Lemma extreme_right (d : nat) :
  FWd d (kfd d (Z.of_nat d)) - kfd d (Z.of_nat d) <= blimit.
Proof.
  induction d as [|d IH].
  - destruct (forward_grid data eqb aoffset boffset alimit blimit Heq 0 0
                ltac:(lia)) as [E|E]; [|exact (proj2 E)].
    cbn [Z.of_nat]. rewrite E. unfold fpre, kf. cbn [prevF Z.of_nat]. cmp. lia.
  - destruct (forward_grid data eqb aoffset boffset alimit blimit Heq (S d)
                (Z.of_nat (S d)) ltac:(lia)) as [E|E]; [|exact (proj2 E)].
    rewrite E. cbn [prevF].
    destruct (fpre_rule (FWd d) d (Z.of_nat (S d)) ltac:(lia))
      as [(? & _)|[(_ & E')|[(? & _)|(? & _)]]]; try lia.
    rewrite E'. unfold kf in *. lia.
Qed.

(** An entry that a quiet round has compared with a reverse entry lies
    strictly inside the rectangle, and strictly before that entry. *)
Lemma quiet_inside (d : nat) (i : Z) :
  qF d -> qR d -> 0 <= i <= Z.of_nat d ->
  forall rad, rad = (if odd then Z.of_nat d - 1 else Z.of_nat d) ->
  rmid - rad <= kfd d i <= rmid + rad ->
  FWd d (kfd d i) < alimit /\
  FWd d (kfd d i) - kfd d i < blimit /\
  2 * FWd d (kfd d i) - kfd d i <= alimit + blimit - rad - 2.
Proof.
  intros HqF HqR Hi rad -> Hr.
  destruct odd eqn:Eo.
  - destruct (odd_delta_true _ _ _ _ Eo) as (e & He).
    specialize (HqF i Hi). unfold hitF in HqF. rewrite Eo in HqF.
    replace (kfd d i >? rmid - Z.of_nat d) with true in HqF
      by (symmetry; cmp; reflexivity).
    replace (kfd d i <? rmid + Z.of_nat d) with true in HqF
      by (symmetry; cmp; reflexivity).
    cbn [andb] in HqF. apply Z.leb_gt in HqF.
    destruct d as [|d]; [lia|]. cbn [pred] in HqF.
    destruct (reverse_entries data eqb aoffset boffset alimit blimit Heq d
                (i - e - 1) ltac:(unfold kf in *; lia)) as (_ & (H1 & H2 & H3)).
    replace (krd d (i - e - 1)) with (kfd (S d) i) in *
      by (unfold kf, kr; lia).
    lia.
  - destruct (odd_delta_false _ _ _ _ Eo) as (e & He).
    specialize (HqR (i - e) ltac:(unfold kf in *; lia)).
    replace (krd d (i - e)) with (kfd d i) in HqR by (unfold kf, kr; lia).
    unfold hitR in HqR. rewrite Eo in HqR.
    replace (kfd d i >=? fmid - Z.of_nat d) with true in HqR
      by (symmetry; unfold kf; cmp; reflexivity).
    replace (kfd d i <=? fmid + Z.of_nat d) with true in HqR
      by (symmetry; unfold kf; cmp; reflexivity).
    cbn [negb andb] in HqR. apply Z.leb_gt in HqR.
    destruct (reverse_entries data eqb aoffset boffset alimit blimit Heq d
                (i - e) ltac:(unfold kf in *; lia)) as (_ & (H1 & H2 & H3)).
    replace (krd d (i - e)) with (kfd d i) in * by (unfold kf, kr; lia).
    lia.
Qed.


(** P3: while the rounds before were quiet, a forward entry that round [d]
    compares with a reverse entry lies in sum at or before the end of the
    rectangle. *)
Lemma no_overshoot (d : nat) (i : Z) :
  (forall d', (d' < d)%nat -> qF d' /\ qR d') ->
  0 <= i <= Z.of_nat d ->
  forall rad, rad = (if odd then Z.of_nat d - 1 else Z.of_nat d) ->
  rmid - rad <= kfd d i <= rmid + rad ->
  2 * FWd d (kfd d i) - kfd d i <= alimit + blimit.
Proof.
  intros Hq Hi rad Hrad Hr.
  destruct (Z_le_gt_dec (2 * FWd d (kfd d i) - kfd d i) (alimit + blimit))
    as [|Hov]; trivial.
  exfalso.
  destruct (forward_grid data eqb aoffset boffset alimit blimit Heq d i Hi)
    as [Hx|Hin]; [|lia].
  destruct d as [|d'].
  - assert (i = 0) by lia. subst i. revert Hx Hov.
    unfold fpre, kf. cbn [prevF Z.of_nat]. cmp. lia.
  - cbn [prevF] in Hx. destruct (Hq d' ltac:(lia)) as [HqF HqR].
    assert (Hpar : exists t, kfd (S d') i - rmid = rad - 2 * t).
    { destruct odd eqn:Eo.
      - destruct (odd_delta_true _ _ _ _ Eo) as (e & He).
        exists (Z.of_nat d' + 1 - i + e). unfold kf. lia.
      - destruct (odd_delta_false _ _ _ _ Eo) as (e & He).
        exists (Z.of_nat d' + 1 - i + e). unfold kf. lia. }
    destruct Hpar as (t & Hpar).
    assert (Hchk : forall i', 0 <= i' <= Z.of_nat d' ->
      rmid - (rad - 1) <= kfd d' i' <= rmid + (rad - 1) ->
      FWd d' (kfd d' i') < alimit /\
      FWd d' (kfd d' i') - kfd d' i' < blimit /\
      2 * FWd d' (kfd d' i') - kfd d' i' <= alimit + blimit - (rad - 1) - 2).
    { intros i' Hi' Hr'.
      apply (quiet_inside d' i' HqF HqR Hi'); trivial.
      destruct odd; lia. }
    assert (Hrad1 : 0 < i < Z.of_nat (S d') -> 1 <= rad).
    { destruct odd; lia. }
    pose proof (kf_succ aoffset boffset d' i) as Ks.
    pose proof (kf_pred aoffset boffset d' i) as Kp.
    destruct (fpre_rule (FWd d') d' i Hi)
      as [(Hi0 & E)|[(Hi1 & E)|[(Him & Hlt & E)|(Him & Hle & E)]]];
      rewrite E in Hx.
    + (* the lowest diagonal: a step down *)
      subst i. pose proof (extreme_left d') as Hl.
      destruct (Z_lt_ge_dec (kfd (S d') 0) rmid) as [Hk|Hk]; [|lia].
      pose proof (Hchk 0 ltac:(lia) ltac:(lia)). lia.
    + (* the highest diagonal: a step right *)
      subst i. pose proof (extreme_right d') as Hl.
      replace (Z.of_nat (S d') - 1) with (Z.of_nat d') in Kp by lia.
      destruct (Z_lt_ge_dec rmid (kfd (S d') (Z.of_nat (S d')))) as [Hk|Hk];
        [|lia].
      pose proof (Hchk (Z.of_nat d') ltac:(lia) ltac:(lia)). lia.
    + (* a step down from the smaller neighbour *)
      specialize (Hrad1 Him).
      destruct (Z_lt_ge_dec (kfd (S d') i) (rmid + rad)) as [Hk|Hk].
      * pose proof (Hchk i ltac:(lia) ltac:(lia)). lia.
      * pose proof (Hchk (i - 1) ltac:(lia) ltac:(lia)). lia.
    + (* a step right from the smaller neighbour *)
      specialize (Hrad1 Him).
      destruct (Z_lt_ge_dec (rmid - rad) (kfd (S d') i)) as [Hk|Hk].
      * pose proof (Hchk (i - 1) ltac:(lia) ltac:(lia)). lia.
      * pose proof (Hchk i ltac:(lia) ltac:(lia)) as (C1 & C2 & C3).
        assert (rad = 1) by lia.
        assert (Hd : d' = 1%nat) by (destruct odd; lia).
        subst d'. assert (i = 1) by lia. subst i.
        pose proof (forward_grows 1 1 ltac:(lia)) as G1.
        cbn [prevF] in G1.
        destruct (fpre_rule (FWd 0) 0 1 ltac:(lia))
          as [(? & _)|[(_ & E1)|[(? & _)|(? & _)]]]; try lia.
        rewrite E1 in G1. cbn [Z.of_nat] in G1.
        destruct (forward_grid data eqb aoffset boffset alimit blimit Heq 1 0
                    ltac:(lia)) as [G0|G0].
        -- cbn [prevF] in G0.
           destruct (fpre_rule (FWd 0) 0 0 ltac:(lia))
             as [(_ & E0)|[(? & _)|[(? & _)|(? & _)]]]; try lia.
           rewrite E0 in G0. cbn [Z.sub Z.of_nat] in *.
           replace (1 - 1) with 0 in * by lia. lia.
        -- replace (1 - 1) with 0 in * by lia.
           cbn [Z.of_nat] in *. unfold kf in *. lia.
Qed.

(** The point of a meeting lies in sum at or before the end. *)
Lemma meets_before_end (d : nat) (k : Z) :
  mts d k -> 2 * FWd d k - k <= alimit + blimit.
Proof.
  intros Hm.
  destruct (meets_forward data aoffset boffset alimit blimit d k Hm)
    as (i & Hi & -> & Hr).
  destruct Hm as (Hq & _).
  exact (no_overshoot d i Hq Hi _ eq_refl Hr).
Qed.

End Inside.

(** ** The rectangles of a run of [compare]

    With [S = N + M], [max = S + 1] and buffers of [2*max] entries, the
    searches of a run stay within the buffers as long as every rectangle
    has [alimit - aoffset + blimit - boffset <= S].  The two rectangles
    that [compare] recurses on are not larger than that: the point that
    [findMiddleSnake] returns lies at most [S] steps after the start and at
    most [S] steps before the end. *)

Lemma maxd_bound (s S : Z) : 1 <= S -> s <= S -> Z.quot (s + 2) 2 <= S.
Proof.
  intros HS Hs.
  pose proof (Z.quot_le_mono (s + 2) (S + 2) 2 ltac:(lia) ltac:(lia)) as H.
  rewrite (Z.quot_div_nonneg (S + 2) 2) in H by lia.
  pose proof (Z.div_mod (S + 2) 2 ltac:(lia)).
  pose proof (Z.mod_pos_bound (S + 2) 2 ltac:(lia)).
  lia.
Qed.

Lemma findMiddleSnake_split (data : Interface) (eqb : Z -> Z -> bool)
    (aoffset boffset alimit blimit S : Z) (c : context) :
  (forall i j, Equal data i j = Ok (eqb i j)) ->
  1 <= S -> sized c -> max c = S + 1 ->
  alimit - aoffset + (blimit - boffset) <= S ->
  (exists c' x y,
     findMiddleSnake data aoffset boffset alimit blimit c = Ok (c', (x, y)) /\
     aoffset + boffset <= x + y /\ x + y - (aoffset + boffset) <= S) \/
  findMiddleSnake data aoffset boffset alimit blimit c
    = Panic (Explicit "should never be reached").
Proof.
  intros Heq HS Hs Hmx Hsz.
  pose proof (maxd_bound (alimit - aoffset + blimit - boffset) S HS
                ltac:(lia)) as Hmaxd.
  assert (Heq' : forall i j, aoffset <= i < alimit -> boffset <= j < blimit ->
                             Equal data i j = Ok (eqb i j))
    by (intros; apply Heq).
  destruct (findMiddleSnake_refine data eqb aoffset boffset alimit blimit
              (S + 1) (flags c) Heq' ltac:(lia) c Hs Hmx eq_refl ltac:(lia))
    as [(c' & d & k & Hd & Hm & E & _)|[E _]]; [left|right; exact E].
  exists c', (FW data aoffset boffset alimit blimit d k),
         (FW data aoffset boffset alimit blimit d k - k).
  split; [exact E|].
  destruct (meets_after_start data eqb aoffset boffset alimit blimit Heq' d k Hm)
    as (A1 & A2 & A3).
  split; [lia|].
  destruct (Z_lt_ge_dec aoffset alimit) as [Ha|Ha];
    [destruct (Z_lt_ge_dec boffset blimit) as [Hb|Hb]|].
  - pose proof (meets_before_end data eqb aoffset boffset alimit blimit
                  Heq' Ha Hb d k Hm).
    lia.
  - destruct (meets_forward data aoffset boffset alimit blimit d k Hm)
      as (i & Hi & -> & _).
    pose proof (forward_entries_exact data eqb aoffset boffset alimit blimit
                  Heq' d ltac:(right; lia) i Hi).
    lia.
  - destruct (meets_forward data aoffset boffset alimit blimit d k Hm)
      as (i & Hi & -> & _).
    pose proof (forward_entries_exact data eqb aoffset boffset alimit blimit
                  Heq' d ltac:(left; lia) i Hi).
    lia.
Qed.

(** [mark] touches the flags only. *)
Lemma mark_panic (bit : Z) : forall fuel fl i limit p,
  mark fuel bit fl i limit = Panic p -> exists q, p = BoundsError q (len fl).
Proof.
  induction fuel as [|fuel IH]; intros fl i limit p H; cbn [mark] in H;
    (destruct (i <? limit); [|discriminate H]).
  - unfold index, store in H.
    destruct (in_range fl i); cbn [bind] in H; [discriminate H|].
    inversion H. now exists i.
  - unfold index in H.
    destruct (in_range fl i) eqn:Ei; cbn [bind] in H;
      [|inversion H; now exists i].
    destruct (store fl i (Z.lor (rd fl i) bit)) as [fl'| |] eqn:Es;
      cbn [bind] in H; [|unfold store in Es; rewrite Ei in Es; discriminate Es
                        |discriminate H].
    apply IH in H. destruct H as (q & ->). exists q.
    now rewrite (len_store _ _ _ _ Es).
Qed.

(** No run of [compare] on a rectangle of at most [S] steps ends in an
    index panic on a slice of [2*(S+1)] entries. *)
Lemma compare_buffers_safe (data : Interface) (eqb : Z -> Z -> bool) (S : Z) :
  (forall i j, Equal data i j = Ok (eqb i j)) -> 1 <= S ->
  forall fuel c aoffset boffset alimit blimit,
    sized c -> max c = S + 1 -> len (flags c) <> 2 * (S + 1) ->
    alimit - aoffset + (blimit - boffset) <= S ->
    forall i,
      compare data fuel c aoffset boffset alimit blimit
        <> Panic (BoundsError i (2 * (S + 1))).
Proof.
  intros Heq HS.
  induction fuel as [|fuel IH]; intros c ao bo al bl Hs Hmx Hfl Hsz i;
    cbn [compare]; [discriminate|].
  destruct (snake_down_spec data eqb ao bo al bl
              ltac:(intros; apply Heq) (Z.to_nat (al - ao)) ao bo
              ltac:(lia) ltac:(lia) ltac:(lia)) as (j & Hj & E & Hin & _).
  rewrite E. cbn [bind].
  destruct (snake_up_spec data eqb (ao + j) (bo + j) al bl
              ltac:(intros; apply Heq) (Z.to_nat (al - (ao + j))) al bl
              ltac:(lia) ltac:(lia) ltac:(lia)) as (t & Ht & E' & Hin' & _).
  rewrite E'. cbn [bind].
  assert (Hmark : forall fuel' bit lo hi,
    (fl <- mark fuel' bit (flags c) lo hi ;; Ok (set_flags c fl))
      <> Panic (BoundsError i (2 * (S + 1)))).
  { intros fuel' bit lo hi.
    destruct (mark fuel' bit (flags c) lo hi) eqn:Em; cbn [bind];
      try discriminate.
    apply mark_panic in Em. destruct Em as (q & ->).
    intros Hp. inversion Hp. congruence. }
  destruct (ao + j =? al - t); [apply Hmark|].
  destruct (bo + j =? bl - t); [apply Hmark|].
  destruct (findMiddleSnake_split data eqb (ao + j) (bo + j) (al - t) (bl - t)
              S c Heq HS Hs Hmx ltac:(lia))
    as [(c1 & x & y & E1 & B1 & B2)|E1]; rewrite E1; cbn [bind];
    [|discriminate].
  pose proof (findMiddleSnake_allocated _ _ _ _ _ _ _ _ Hs E1) as Hal.
  destruct (allocated_sized _ _ _ Hal) as [Hs1 Hm1].
  destruct Hal as (_ & Hfl1 & _).
  destruct (compare data fuel c1 (ao + j) (bo + j) x y) as [c2|p|] eqn:E2;
    cbn [bind]; [| |discriminate].
  - destruct (compare_sized data _ _ _ _ _ _ _ Hs1 E2) as (Hs2 & Hm2 & Hl2).
    apply IH; trivial; try congruence. lia.
  - rewrite <- E2. apply IH; trivial; try congruence. lia.
Qed.

(** ** Runs over an [Equal] that can fail

    A call of [Equal] that panics ends the run with that panic; up to
    there, the run is the run over [total data]. *)

Section Follows.

Variable data : Interface.

Lemma follows_refl {T : Type} (r : outcome T) : follows data r r.
Proof. now left. Qed.

Lemma follows_bind {T U : Type} (r r' : outcome T) (k k' : T -> outcome U) :
  follows data r r' -> (forall v, follows data (k v) (k' v)) ->
  follows data (bind r k) (bind r' k').
Proof.
  intros [->|(i & j & Hf)] Hk.
  - destruct r' as [v|p|]; cbn [bind]; [apply Hk|now left|now left].
  - right. exists i, j. unfold fails_as in *.
    destruct (Equal data i j); [contradiction|subst r; reflexivity
                               |subst r; reflexivity].
Qed.

Lemma follows_Equal (i j : Z) :
  follows data (Equal data i j) (Equal (total data) i j).
Proof.
  cbn [total Equal]. unfold eqb_of.
  destruct (Equal data i j) as [e|p|] eqn:E; [now left| |];
    right; exists i, j; unfold fails_as; now rewrite E.
Qed.

Ltac follow :=
  repeat first
    [ apply follows_refl
    | apply follows_Equal
    | apply follows_bind; [|intros ?]
    | match goal with
      | |- follows _ (if ?b then _ else _) _ => destruct b
      | |- follows _ (match ?x with pair _ _ => _ end) _ => destruct x
      | |- follows _ (match ?x with Some _ => _ | None => _ end) _ =>
          destruct x
      end ].

Lemma snake_down_follows : forall fuel alimit blimit x y,
  follows data (snake_down data fuel alimit blimit x y)
               (snake_down (total data) fuel alimit blimit x y).
Proof.
  induction fuel as [|fuel IH]; intros; cbn [snake_down]; follow. apply IH.
Qed.

Lemma snake_up_follows : forall fuel aoffset boffset x y,
  follows data (snake_up data fuel aoffset boffset x y)
               (snake_up (total data) fuel aoffset boffset x y).
Proof.
  induction fuel as [|fuel IH]; intros; cbn [snake_up]; follow. apply IH.
Qed.

Lemma forward_step_follows (aoffset boffset alimit blimit : Z) c d k :
  follows data (forward_step data aoffset boffset alimit blimit c d k)
               (forward_step (total data) aoffset boffset alimit blimit c d k).
Proof.
  unfold forward_step. cbv zeta.
  apply follows_bind; [apply follows_refl|intros down].
  apply follows_bind; [apply follows_refl|intros x].
  apply follows_bind; [apply snake_down_follows|intros [x' y']].
  apply follows_refl.
Qed.

Lemma reverse_step_follows (aoffset boffset alimit blimit : Z) c d k :
  follows data (reverse_step data aoffset boffset alimit blimit c d k)
               (reverse_step (total data) aoffset boffset alimit blimit c d k).
Proof.
  unfold reverse_step. cbv zeta.
  apply follows_bind; [apply follows_refl|intros up].
  apply follows_bind; [apply follows_refl|intros x].
  apply follows_bind; [apply snake_up_follows|intros [x' y']].
  apply follows_refl.
Qed.

Lemma k_loop_follows
    (step step' : context -> Z -> Z -> outcome (context * option (Z * Z))) :
  (forall c d k, follows data (step c d k) (step' c d k)) ->
  forall fuel mid c d k,
    follows data (k_loop step fuel mid c d k) (k_loop step' fuel mid c d k).
Proof.
  intros Hstep.
  induction fuel as [|fuel IH]; intros; cbn [k_loop];
    (destruct (k <=? mid + d); [|apply follows_refl]);
    (apply follows_bind; [apply Hstep|intros [c' [p|]]]);
    try apply follows_refl.
  apply IH.
Qed.

Lemma d_loop_follows (aoffset boffset alimit blimit : Z) :
  forall fuel c d,
    follows data (d_loop data aoffset boffset alimit blimit fuel c d)
                 (d_loop (total data) aoffset boffset alimit blimit fuel c d).
Proof.
  induction fuel as [|fuel IH]; intros; cbn [d_loop];
    (destruct (d <=? _); [|apply follows_refl]);
    (apply follows_bind;
       [apply k_loop_follows; intros; apply forward_step_follows
       |intros [c' [p|]]]);
    try apply follows_refl;
    (apply follows_bind;
       [apply k_loop_follows; intros; apply reverse_step_follows
       |intros [c'' [p|]]]);
    try apply follows_refl.
  apply IH.
Qed.

Lemma findMiddleSnake_follows (aoffset boffset alimit blimit : Z) c :
  follows data (findMiddleSnake data aoffset boffset alimit blimit c)
               (findMiddleSnake (total data) aoffset boffset alimit blimit c).
Proof.
  unfold findMiddleSnake.
  apply follows_bind; [apply follows_refl|intros c0].
  apply follows_bind; [apply follows_refl|intros fw].
  apply follows_bind; [apply follows_refl|intros rv].
  apply d_loop_follows.
Qed.

Lemma compare_follows : forall fuel c aoffset boffset alimit blimit,
  follows data (compare data fuel c aoffset boffset alimit blimit)
               (compare (total data) fuel c aoffset boffset alimit blimit).
Proof.
  induction fuel as [|fuel IH]; intros; cbn [compare]; [apply follows_refl|].
  apply follows_bind; [apply snake_down_follows|intros [ao bo]].
  apply follows_bind; [apply snake_up_follows|intros [al bl]].
  destruct (ao =? al); [apply follows_refl|].
  destruct (bo =? bl); [apply follows_refl|].
  apply follows_bind; [apply findMiddleSnake_follows|intros [c1 [x y]]].
  apply follows_bind; [apply IH|intros c2]. apply IH.
Qed.

End Follows.

(** ** Index panics

    [result] reads the flags only; [Ints] reads its two slices only. *)

Lemma panics_within_bind {T U : Type} (L : Z) (r : outcome T)
    (k : T -> outcome U) :
  panics_within L r -> (forall v, panics_within L (k v)) ->
  panics_within L (bind r k).
Proof.
  intros Hr Hk p. destruct r as [v|p'|]; cbn [bind].
  - apply Hk.
  - intros H. apply Hr. inversion H. reflexivity.
  - discriminate.
Qed.

Lemma panics_within_Ok {T : Type} (L : Z) (v : T) : panics_within L (Ok v).
Proof. intros p H. discriminate H. Qed.

Lemma panics_within_index (fl : list Z) (i : Z) :
  panics_within (len fl) (index fl i).
Proof.
  intros p. unfold index. destruct (in_range fl i); intros H; inversion H.
  now exists i.
Qed.

Ltac within :=
  repeat first
    [ apply panics_within_Ok
    | apply panics_within_index
    | apply panics_within_bind; [|intros ?]
    | match goal with
      | |- panics_within _ (if ?b then _ else _) => destruct b
      | |- panics_within _ OutOfFuel => intros ? ?; discriminate
      end ].

Lemma skip_del_within (fl : list Z) (n m : Z) : forall fuel x y,
  panics_within (len fl) (skip_del fuel fl n m x y).
Proof.
  induction fuel as [|fuel IH]; intros; cbn [skip_del]; within. apply IH.
Qed.

Lemma skip_ins_within (fl : list Z) (n m : Z) : forall fuel x y,
  panics_within (len fl) (skip_ins fuel fl n m x y).
Proof.
  induction fuel as [|fuel IH]; intros; cbn [skip_ins]; within. apply IH.
Qed.

Lemma result_loop_within (fl : list Z) (n m : Z) : forall fuel x y res,
  panics_within (len fl) (result_loop fuel fl n m x y res).
Proof.
  induction fuel as [|fuel IH]; intros; cbn [result_loop].
  - within.
  - destruct ((x <? n) || (y <? m)); [|apply panics_within_Ok].
    apply panics_within_bind; [within|intros same].
    destruct same; [apply IH|].
    apply panics_within_bind; [apply skip_del_within|intros x'].
    apply panics_within_bind; [apply skip_ins_within|intros y'].
    destruct ((x <? x') || (y <? y')); apply IH.
Qed.

Lemma Ints_panics_within (a b : list Z) (i j : Z) (p : panic) :
  Equal (Ints a b) i j = Panic p ->
  exists q, p = BoundsError q (len a) \/ p = BoundsError q (len b).
Proof.
  cbn [Ints Equal]. unfold index.
  destruct (in_range a i); cbn [bind].
  - destruct (in_range b j); cbn [bind]; intros H; inversion H.
    exists j. now right.
  - intros H; inversion H. exists i. now left.
Qed.

(** A run from the context of [Diff] over any [Equal] that does not itself
    panic like an access to a slice of [2*(N+M+1)] entries. *)
Lemma compare_run_safe (data : Interface) (fuel : nat) (fl : list Z) (i : Z) :
  0 <= N data -> 0 <= M data ->
  (forall a b q,
     Equal data a b <> Panic (BoundsError q (2 * (N data + M data + 1)))) ->
  len fl = Z.max (N data) (M data) ->
  compare data fuel (initial data fl) 0 0 (N data) (M data)
    <> Panic (BoundsError i (2 * (N data + M data + 1))).
Proof.
  intros HN HM Hpure Hfl Hp.
  destruct (compare_follows data fuel (initial data fl) 0 0 (N data) (M data))
    as [E|(a & b & Hf)].
  - rewrite E in Hp. revert Hp.
    destruct (Z.eq_dec (N data + M data) 0) as [Hz|Hz].
    + assert (HN0 : N data = 0) by lia. assert (HM0 : M data = 0) by lia.
      rewrite HN0, HM0. destruct fuel; cbn; discriminate.
    + apply (compare_buffers_safe (total data) (eqb_of data)
               (N data + M data)); try reflexivity; try lia.
      * left. split; reflexivity.
      * cbn [initial flags]. lia.
  - unfold fails_as in Hf. rewrite Hp in Hf.
    destruct (Equal data a b) eqn:Ee; [contradiction| |discriminate Hf].
    inversion Hf; subst. exact (Hpure _ _ _ Ee).
Qed.

(** C10. In a run on well-formed input ([N >= 0], [M >= 0], and an [Equal]
    that is a function of its two indices and does not itself raise an
    index panic for a slice of [2*(N+M+1)] entries, as is the case for a
    total [Equal] and for [Ints]), no access to the forward or the reverse
    buffer is out of bounds.  Every access to the two buffers is an [index]
    or a [store] on a slice of [2*(N+M+1)] entries, which panics with
    [BoundsError i (2*(N+M+1))] exactly when [i] is out of range, and such a
    panic ends the run; so the statement is that no run of [compare] from
    the context of [Diff], however deep its recursion, and no run of [Diff]
    ends with such a panic.  This holds for every rectangle that the
    recursion reaches, including those that the forward rule of
    [findMiddleSnake] leads to outside of [0..N] x [0..M]. *)
Theorem C10_buffer_indices_in_bounds (data : Interface) :
  0 <= N data -> 0 <= M data ->
  (forall a b q,
     Equal data a b <> Panic (BoundsError q (2 * (N data + M data + 1)))) ->
  (forall fuel fl i,
     len fl = Z.max (N data) (M data) ->
     compare data fuel (initial data fl) 0 0 (N data) (M data)
       <> Panic (BoundsError i (2 * (N data + M data + 1)))) /\
  (forall i, Diff data <> Panic (BoundsError i (2 * (N data + M data + 1)))).
Proof.
  intros HN HM Hpure. split.
  - intros fuel fl i Hfl. now apply compare_run_safe.
  - intros i. unfold Diff. cbv zeta.
    assert (Hfl : exists fl,
      (if N data >? M data then make (N data) else make (M data)) = Ok fl /\
      len fl = Z.max (N data) (M data)).
    { destruct (N data >? M data) eqn:Eg; rewrite Z.gtb_ltb in Eg;
        [apply Z.ltb_lt in Eg|apply Z.ltb_ge in Eg];
        rewrite make_ok by lia; eexists; (split; [reflexivity|]);
        rewrite len_repeat; lia. }
    destruct Hfl as (fl & -> & Hfl). cbn [bind].
    change (mkContext fl (N data + M data + 1) None None)
      with (initial data fl).
    destruct (compare data (Z.to_nat (N data + M data + 1)) (initial data fl)
                0 0 (N data) (M data)) as [c'|p|] eqn:Ec; cbn [bind].
    + intros Hp. apply result_loop_within in Hp. destruct Hp as (q & Hq).
      apply compare_sized in Ec; [|left; split; reflexivity].
      destruct Ec as (_ & _ & Hl). cbn [initial flags] in Hl.
      assert (2 * (N data + M data + 1) = len (flags c')) by congruence. lia.
    + intros Hp. inversion Hp; subst p. revert Ec.
      now apply compare_run_safe.
    + discriminate.
Qed.

Lemma C10_buffer_indices_in_bounds_witness :
  (forall fuel fl i,
     len fl = Z.max (N (Ints [1; 1; 0; 0] [0; 1; 1]))
                    (M (Ints [1; 1; 0; 0] [0; 1; 1])) ->
     compare (Ints [1; 1; 0; 0] [0; 1; 1]) fuel
       (initial (Ints [1; 1; 0; 0] [0; 1; 1]) fl) 0 0
       (N (Ints [1; 1; 0; 0] [0; 1; 1])) (M (Ints [1; 1; 0; 0] [0; 1; 1]))
       <> Panic (BoundsError i
            (2 * (N (Ints [1; 1; 0; 0] [0; 1; 1])
                  + M (Ints [1; 1; 0; 0] [0; 1; 1]) + 1)))) /\
  (forall i,
     Diff (Ints [1; 1; 0; 0] [0; 1; 1])
       <> Panic (BoundsError i
            (2 * (N (Ints [1; 1; 0; 0] [0; 1; 1])
                  + M (Ints [1; 1; 0; 0] [0; 1; 1]) + 1)))).
Proof.
  apply (C10_buffer_indices_in_bounds (Ints [1; 1; 0; 0] [0; 1; 1])).
  - vm_compute. discriminate.
  - vm_compute. discriminate.
  - intros a b q H.
    destruct (Ints_panics_within _ _ _ _ _ H) as (q' & [E|E]);
      inversion E as [[E1 E2]]; vm_compute in E2; discriminate E2.
Defined.

(** * Further properties of the package

    ** [result] on arbitrary flags *)

Section Reads.

Variables (fl : list Z) (n m : Z).
Hypothesis Hn : n <= len fl.
Hypothesis Hm : m <= len fl.

(** The loop over the deleted elements stops at the end of the first
    sequence or at an element that is not flagged. *)
Lemma skip_del_spec : forall (fuel : nat) (x y : Z),
  0 <= x <= n -> (Z.to_nat (n - x) <= fuel)%nat ->
  exists x',
    skip_del fuel fl n m x y = Ok x' /\ x <= x' <= n /\
    (forall i, x <= i < x' -> m <= y \/ Z.land (rd fl i) 1 <> 0) /\
    (x' < n -> y < m /\ Z.land (rd fl x') 1 = 0).
Proof.
  induction fuel as [|fuel IH]; intros x y Hx Hf; cbn [skip_del].
  - assert (x = n) by lia. subst x. cmp. exists n.
    split; [reflexivity|]. split; [lia|]. split; intros; lia.
  - destruct (x <? n) eqn:E1.
    + apply Z.ltb_lt in E1. rewrite Z.geb_leb.
      destruct (m <=? y) eqn:E2; cbn [bind].
      * apply Z.leb_le in E2.
        destruct (IH (x + 1) y ltac:(lia) ltac:(lia))
          as (x' & E & Hr & Hrun & Hend).
        exists x'. split; [exact E|]. split; [lia|]. split; [|exact Hend].
        intros i Hi. now left.
      * apply Z.leb_gt in E2. rewrite (index_ok fl x) by lia. cbn [bind].
        destruct (Z.land (rd fl x) 1 =? 0) eqn:E3; cbn [negb].
        -- apply Z.eqb_eq in E3. exists x. split; [reflexivity|].
           split; [lia|]. split; [intros; lia|]. intros _. now split.
        -- apply Z.eqb_neq in E3.
           destruct (IH (x + 1) y ltac:(lia) ltac:(lia))
             as (x' & E & Hr & Hrun & Hend).
           exists x'. split; [exact E|]. split; [lia|]. split; [|exact Hend].
           intros i Hi. destruct (Z.eq_dec i x) as [->|Hne]; [now right|].
           apply Hrun. lia.
    + apply Z.ltb_ge in E1. exists x. split; [reflexivity|].
      split; [lia|]. split; intros; lia.
Qed.

Lemma skip_ins_spec : forall (fuel : nat) (x y : Z),
  0 <= y <= m -> (Z.to_nat (m - y) <= fuel)%nat ->
  exists y',
    skip_ins fuel fl n m x y = Ok y' /\ y <= y' <= m /\
    (forall j, y <= j < y' -> n <= x \/ Z.land (rd fl j) 2 <> 0) /\
    (y' < m -> x < n /\ Z.land (rd fl y') 2 = 0).
Proof.
  induction fuel as [|fuel IH]; intros x y Hy Hf; cbn [skip_ins].
  - assert (y = m) by lia. subst y. cmp. exists m.
    split; [reflexivity|]. split; [lia|]. split; intros; lia.
  - destruct (y <? m) eqn:E1.
    + apply Z.ltb_lt in E1. rewrite Z.geb_leb.
      destruct (n <=? x) eqn:E2; cbn [bind].
      * apply Z.leb_le in E2.
        destruct (IH x (y + 1) ltac:(lia) ltac:(lia))
          as (y' & E & Hr & Hrun & Hend).
        exists y'. split; [exact E|]. split; [lia|]. split; [|exact Hend].
        intros j Hj. now left.
      * apply Z.leb_gt in E2. rewrite (index_ok fl y) by lia. cbn [bind].
        destruct (Z.land (rd fl y) 2 =? 0) eqn:E3; cbn [negb].
        -- apply Z.eqb_eq in E3. exists y. split; [reflexivity|].
           split; [lia|]. split; [intros; lia|]. intros _. now split.
        -- apply Z.eqb_neq in E3.
           destruct (IH x (y + 1) ltac:(lia) ltac:(lia))
             as (y' & E & Hr & Hrun & Hend).
           exists y'. split; [exact E|]. split; [lia|]. split; [|exact Hend].
           intros j Hj. destruct (Z.eq_dec j y) as [->|Hne]; [now right|].
           apply Hrun. lia.
    + apply Z.ltb_ge in E1. exists y. split; [reflexivity|].
      split; [lia|]. split; intros; lia.
Qed.

(** One more kept pair in front of a path. *)
Lemma reads_step (x y : Z) (cs : list Change) :
  x < n -> y < m -> kept fl x y ->
  reads fl n m (x + 1) (y + 1) cs -> reads fl n m x y cs.
Proof.
  intros Hx Hy Hk H.
  assert (Hshift : forall hi,
    (forall t, 0 <= t < hi - (x + 1) -> kept fl (x + 1 + t) (y + 1 + t)) ->
    forall t, 0 <= t < hi - x -> kept fl (x + t) (y + t)).
  { intros hi Hs t Ht. destruct (Z.eq_dec t 0) as [->|Hne].
    - now rewrite !Z.add_0_r.
    - replace (x + t) with (x + 1 + (t - 1)) by lia.
      replace (y + t) with (y + 1 + (t - 1)) by lia. apply Hs. lia. }
  destruct cs as [|c cs]; cbn [reads] in *.
  - destruct H as (H1 & H2 & H3). split; [lia|]. split; [lia|].
    now apply Hshift.
  - destruct H as (H1 & H2 & H3 & H). split; [lia|]. split; [lia|].
    split; [now apply Hshift|exact H].
Qed.

(** The loop of [result] returns, with a path that follows the flags. *)
Lemma result_loop_reads : forall (fuel : nat) (x y : Z) (res : list Change),
  0 <= x <= n -> 0 <= y <= m ->
  (Z.to_nat (n - x + (m - y)) <= fuel)%nat ->
  exists tail,
    result_loop fuel fl n m x y res = Ok (res ++ tail) /\
    reads fl n m x y tail.
Proof.
  induction fuel as [|fuel IH]; intros x y res Hx Hy Hf.
  - assert (x = n) by lia. assert (y = m) by lia. subst x y.
    exists []. cbn [result_loop reads]. cmp. cbn [orb].
    rewrite app_nil_r. split; [reflexivity|]. split; [lia|].
    split; [lia|]. intros; lia.
  - cbn [result_loop].
    destruct ((x <? n) || (y <? m)) eqn:Eany.
    2:{ apply orb_false_iff in Eany. destruct Eany as [E1 E2].
        apply Z.ltb_ge in E1, E2. assert (x = n) by lia. assert (y = m) by lia.
        subst x y. exists []. rewrite app_nil_r. split; [reflexivity|].
        cbn [reads]. split; [lia|]. split; [lia|]. intros; lia. }
    assert (Hsame : exists same : bool,
      (if (x <? n) && (y <? m)
       then v <- index fl x ;;
            (if Z.land v 1 =? 0
             then w <- index fl y ;; Ok (Z.land w 2 =? 0)
             else Ok false)
       else Ok false) = Ok same /\
      (same = true <-> x < n /\ y < m /\ kept fl x y)).
    { unfold kept. destruct ((x <? n) && (y <? m)) eqn:Eboth.
      - apply andb_true_iff in Eboth. destruct Eboth as [E1 E2].
        apply Z.ltb_lt in E1, E2.
        rewrite (index_ok fl x) by lia. cbn [bind].
        destruct (Z.land (rd fl x) 1 =? 0) eqn:E3.
        + rewrite (index_ok fl y) by lia. cbn [bind]. eexists.
          split; [reflexivity|]. apply Z.eqb_eq in E3.
          rewrite Z.eqb_eq. tauto.
        + exists false. split; [reflexivity|]. apply Z.eqb_neq in E3.
          split; [discriminate|tauto].
      - exists false. split; [reflexivity|]. split; [discriminate|].
        intros (H1 & H2 & _). apply andb_false_iff in Eboth.
        destruct Eboth as [E|E]; apply Z.ltb_ge in E; lia. }
    destruct Hsame as (same & -> & Hsame). cbn [bind].
    destruct same.
    + destruct (proj1 Hsame eq_refl) as (H1 & H2 & Hk).
      destruct (IH (x + 1) (y + 1) res ltac:(lia) ltac:(lia) ltac:(lia))
        as (tail & E & Hr).
      exists tail. split; [exact E|]. now apply reads_step.
    + destruct (skip_del_spec (Z.to_nat (n - x)) x y ltac:(lia) ltac:(lia))
        as (x' & Ex & Hx' & Hdel & Hdend).
      rewrite Ex. cbn [bind].
      destruct (skip_ins_spec (Z.to_nat (m - y)) x' y ltac:(lia) ltac:(lia))
        as (y' & Ey & Hy' & Hins & Hiend).
      rewrite Ey. cbn [bind].
      assert (Hprog : x < x' \/ y < y').
      { destruct (Z.eq_dec x' x) as [->|]; [|lia].
        destruct (Z.eq_dec y' y) as [->|]; [|lia].
        exfalso. apply orb_true_iff in Eany.
        assert (Hk : x < n /\ y < m /\ kept fl x y).
        { unfold kept. destruct Eany as [E|E]; apply Z.ltb_lt in E.
          - destruct (Hdend E) as [Hy1 Hf1].
            destruct (Hiend Hy1) as [_ Hf2]. tauto.
          - destruct (Hiend E) as [Hx1 Hf2].
            destruct (Hdend Hx1) as [_ Hf1]. tauto. }
        apply Hsame in Hk. discriminate. }
      replace ((x <? x') || (y <? y')) with true
        by (symmetry; apply orb_true_iff;
            destruct Hprog; [left|right]; now apply Z.ltb_lt).
      destruct (IH x' y' (res ++ [mkChange x y (x' - x) (y' - y)])
                  ltac:(lia) ltac:(lia) ltac:(lia)) as (tail & E & Hr).
      exists (mkChange x y (x' - x) (y' - y) :: tail).
      split.
      * rewrite E, <- app_assoc. reflexivity.
      * cbn [reads A B Del Ins].
        replace (x + (x' - x)) with x' by lia.
        replace (y + (y' - y)) with y' by lia.
        split; [lia|]. split; [lia|]. split; [intros; lia|].
        split; [lia|]. split; [lia|]. split; [lia|].
        split; [lia|]. split; [lia|].
        split; [|split; [|exact Hr]].
        -- intros i Hi Hb. destruct (Hdel i Hi); [lia|trivial].
        -- intros j Hj Ha. destruct (Hins j Hj); [lia|trivial].
Qed.

End Reads.

Lemma reads_path (fl : list Z) (n m : Z) (cs : list Change) :
  forall x y, reads fl n m x y cs -> path n m x y cs.
Proof.
  induction cs as [|c cs IH]; intros x y H; cbn [reads path] in *.
  - tauto.
  - destruct H as (H1 & H2 & _ & H4 & H5 & H6 & H7 & H8 & _ & _ & H).
    repeat (split; trivial). now apply IH.
Qed.

Lemma reads_flagged (fl : list Z) (n m : Z) (cs : list Change) :
  forall x y, reads fl n m x y cs ->
    (forall i, x <= i < n -> Z.land (rd fl i) 1 <> 0 ->
       Exists (fun c => A c <= i < A c + Del c) cs) /\
    (forall j, y <= j < m -> Z.land (rd fl j) 2 <> 0 ->
       Exists (fun c => B c <= j < B c + Ins c) cs).
Proof.
  induction cs as [|c cs IH]; intros x y H; cbn [reads] in H.
  - destruct H as (H1 & H2 & H3). split.
    + intros i Hi Hf. exfalso.
      destruct (H3 (i - x) ltac:(lia)) as [K _].
      replace (x + (i - x)) with i in K by lia. contradiction.
    + intros j Hj Hf. exfalso.
      destruct (H3 (j - y) ltac:(lia)) as [_ K].
      replace (y + (j - y)) with j in K by lia. contradiction.
  - destruct H as (H1 & H2 & H3 & H4 & H5 & H6 & H7 & H8 & _ & _ & H).
    destruct (IH _ _ H) as [IA IB]. split.
    + intros i Hi Hf.
      destruct (Z_lt_ge_dec i (A c)) as [Hlt|Hge].
      * exfalso. destruct (H3 (i - x) ltac:(lia)) as [K _].
        replace (x + (i - x)) with i in K by lia. contradiction.
      * destruct (Z_lt_ge_dec i (A c + Del c)) as [Hin|Hout].
        -- apply Exists_cons_hd. lia.
        -- apply Exists_cons_tl. apply IA; trivial. lia.
    + intros j Hj Hf.
      destruct (Z_lt_ge_dec j (B c)) as [Hlt|Hge].
      * exfalso. destruct (H3 (j - y) ltac:(lia)) as [_ K].
        replace (y + (j - y)) with j in K by lia. contradiction.
      * destruct (Z_lt_ge_dec j (B c + Ins c)) as [Hin|Hout].
        -- apply Exists_cons_hd. lia.
        -- apply Exists_cons_tl. apply IB; trivial. lia.
Qed.

(** X1. On flags that cover both sequences [result] returns, whatever the
    flags hold, and the list it returns is a path from [(0, 0)] to
    [(n, m)]: the changes come in order and do not overlap, each deletes or
    inserts at least one element, none reaches beyond the end of a
    sequence, and the stretches between them have the same length in both
    sequences. *)
Theorem result_returns_path (c : context) (n m : Z) :
  0 <= n -> 0 <= m -> n <= len (flags c) -> m <= len (flags c) ->
  exists cs, result c n m = Ok cs /\ path n m 0 0 cs.
Proof.
  intros Hn0 Hm0 Hn Hm. unfold result.
  destruct (result_loop_reads (flags c) n m Hn Hm (Z.to_nat (n + m)) 0 0 []
              ltac:(lia) ltac:(lia) ltac:(lia)) as (cs & E & Hr).
  exists cs. split; [exact E|]. now apply reads_path with (fl := flags c).
Qed.

Lemma result_returns_path_witness :
  exists cs,
    result (mkContext [1; 0; 2; 0] 8 None None) 3 4 = Ok cs /\
    path 3 4 0 0 cs.
Proof.
  apply (result_returns_path (mkContext [1; 0; 2; 0] 8 None None) 3 4).
  - lia.
  - lia.
  - vm_compute. discriminate.
  - vm_compute. discriminate.
Defined.

(** X2. [result] reports what the flags say: an element of the first
    sequence flagged with bit 1 lies in the deleted range of a change, an
    element of the second sequence flagged with bit 2 in the inserted range
    of a change; and a change deletes only flagged elements, unless it
    starts at the end of the second sequence, and inserts only flagged
    elements, unless its deletion ends the first sequence. *)
Theorem result_reports_flags (c : context) (n m : Z) (cs : list Change) :
  0 <= n -> 0 <= m -> n <= len (flags c) -> m <= len (flags c) ->
  result c n m = Ok cs ->
  (forall i, 0 <= i < n -> Z.land (rd (flags c) i) 1 <> 0 ->
     Exists (fun ch => A ch <= i < A ch + Del ch) cs) /\
  (forall j, 0 <= j < m -> Z.land (rd (flags c) j) 2 <> 0 ->
     Exists (fun ch => B ch <= j < B ch + Ins ch) cs) /\
  Forall (fun ch =>
    (forall i, A ch <= i < A ch + Del ch -> B ch < m ->
       Z.land (rd (flags c) i) 1 <> 0) /\
    (forall j, B ch <= j < B ch + Ins ch -> A ch + Del ch < n ->
       Z.land (rd (flags c) j) 2 <> 0)) cs.
Proof.
  intros Hn0 Hm0 Hn Hm E. unfold result in E.
  destruct (result_loop_reads (flags c) n m Hn Hm (Z.to_nat (n + m)) 0 0 []
              ltac:(lia) ltac:(lia) ltac:(lia)) as (cs' & E' & Hr).
  rewrite E in E'. inversion E'. subst cs'. clear E'.
  destruct (reads_flagged _ _ _ _ _ _ Hr) as [HA HB].
  split; [exact HA|]. split; [exact HB|].
  clear HA HB E. revert Hr. generalize 0 at 1. generalize 0 at 1.
  induction cs as [|ch cs IH]; intros y x Hr; [constructor|].
  cbn [reads] in Hr.
  destruct Hr as (_ & _ & _ & _ & _ & _ & _ & _ & H9 & H10 & Hr).
  constructor; [now split|]. exact (IH _ _ Hr).
Qed.

Lemma result_reports_flags_witness :
  (forall i, 0 <= i < 3 ->
     Z.land (rd (flags (mkContext [1; 0; 2; 0] 8 None None)) i) 1 <> 0 ->
     Exists (fun ch => A ch <= i < A ch + Del ch)
       [mkChange 0 0 1 0; mkChange 3 2 0 2]) /\
  (forall j, 0 <= j < 4 ->
     Z.land (rd (flags (mkContext [1; 0; 2; 0] 8 None None)) j) 2 <> 0 ->
     Exists (fun ch => B ch <= j < B ch + Ins ch)
       [mkChange 0 0 1 0; mkChange 3 2 0 2]) /\
  Forall (fun ch =>
    (forall i, A ch <= i < A ch + Del ch -> B ch < 4 ->
       Z.land (rd (flags (mkContext [1; 0; 2; 0] 8 None None)) i) 1 <> 0) /\
    (forall j, B ch <= j < B ch + Ins ch -> A ch + Del ch < 3 ->
       Z.land (rd (flags (mkContext [1; 0; 2; 0] 8 None None)) j) 2 <> 0))
    [mkChange 0 0 1 0; mkChange 3 2 0 2].
Proof.
  apply (result_reports_flags (mkContext [1; 0; 2; 0] 8 None None) 3 4).
  - lia.
  - lia.
  - vm_compute. discriminate.
  - vm_compute. discriminate.
  - vm_compute. reflexivity.
Defined.

(** ** Where [findMiddleSnake] splits a rectangle *)

Section Progress.

Variable data : Interface.
Variable eqb : Z -> Z -> bool.
Variables aoffset boffset alimit blimit : Z.

Hypothesis Heq : forall i j,
  aoffset <= i < alimit -> boffset <= j < blimit ->
  Equal data i j = Ok (eqb i j).
Hypothesis Ha : aoffset < alimit.
Hypothesis Hb : boffset < blimit.

(** A meeting is never at the start of the rectangle: in round 0 the two
    searches meet only after a snake. *)
Lemma meets_leaves_start (d : nat) (k : Z) :
  meets data aoffset boffset alimit blimit d k ->
  aoffset + boffset < 2 * FW data aoffset boffset alimit blimit d k - k.
Proof.
  intros Hm.
  pose proof (meets_after_start data eqb aoffset boffset alimit blimit Heq
                d k Hm) as (A1 & A2 & A3).
  destruct d as [|d]; [|lia].
  destruct Hm as (_ & [(i & Hi & -> & Hh)|(_ & i & Hi & -> & Hh)]).
  - unfold hitF in Hh.
    apply andb_true_iff in Hh. destruct Hh as [Hh _].
    apply andb_true_iff in Hh. destruct Hh as [Hh E2].
    apply andb_true_iff in Hh. destruct Hh as [_ E1].
    rewrite Z.gtb_ltb in E1. apply Z.ltb_lt in E1, E2. lia.
  - unfold hitR in Hh.
    apply andb_true_iff in Hh. destruct Hh as [Hh E3].
    apply andb_true_iff in Hh. destruct Hh as [Hh E2].
    apply andb_true_iff in Hh. destruct Hh as [_ E1].
    rewrite Z.geb_leb in E1. apply Z.leb_le in E1, E2, E3.
    assert (Hk : kr alimit blimit 0 i = aoffset - boffset)
      by (unfold kr in *; lia).
    assert (Hmid : alimit - blimit = aoffset - boffset)
      by (unfold kr in *; lia).
    rewrite Hk in *. clear Hk E1 E2 A1 A2 A3.
    revert E3. cbn [FW RW]. unfold fpre, rpre. rewrite Hmid. cmp.
    destruct (snake_down_spec data eqb aoffset boffset alimit blimit Heq
                (Z.to_nat (alimit - aoffset)) aoffset boffset
                ltac:(lia) ltac:(lia) ltac:(lia))
      as (j & Hj & E & _ & _ & Hend).
    destruct (snake_up_spec data eqb aoffset boffset alimit blimit Heq
                (Z.to_nat (alimit - aoffset)) alimit blimit
                ltac:(lia) ltac:(lia) ltac:(lia))
      as (j' & Hj' & E' & Hin' & Hall' & _).
    unfold slide_down, slide_up.
    replace (aoffset - (aoffset - boffset)) with boffset by lia.
    replace (alimit - (aoffset - boffset)) with blimit by lia.
    rewrite E, E'. intros E3.
    destruct (Z.eq_dec j 0) as [->|]; [exfalso|lia].
    rewrite !Z.add_0_r in *.
    specialize (Hend Ha Hb).
    assert (j' = alimit - aoffset) by lia. subst j'.
    specialize (Hall' (alimit - aoffset - 1) ltac:(lia)).
    replace (alimit - (alimit - aoffset - 1) - 1) with aoffset in Hall' by lia.
    replace (blimit - (alimit - aoffset - 1) - 1) with boffset in Hall' by lia.
    congruence.
Qed.

End Progress.

(** The point of the split, and what the call leaves as it is. *)
Lemma findMiddleSnake_splits (data : Interface) (eqb : Z -> Z -> bool)
    (aoffset boffset alimit blimit : Z) (c c' : context) (x y : Z) :
  aoffset < alimit -> boffset < blimit ->
  (forall i j, aoffset <= i < alimit -> boffset <= j < blimit ->
     Equal data i j = Ok (eqb i j)) ->
  sized c ->
  alimit - aoffset + (blimit - boffset) < max c ->
  findMiddleSnake data aoffset boffset alimit blimit c = Ok (c', (x, y)) ->
  aoffset <= x /\ boffset <= y /\
  aoffset + boffset < x + y /\ x + y <= alimit + blimit /\
  max c' = max c /\ flags c' = flags c.
Proof.
  intros Ha Hb Heq Hs Hsz E.
  pose proof (maxd_bound (alimit - aoffset + blimit - boffset)
                (alimit - aoffset + blimit - boffset)
                ltac:(lia) ltac:(lia)) as Hmaxd.
  destruct (findMiddleSnake_allocated _ _ _ _ _ _ _ _ Hs E)
    as (Hmx & Hfl & _).
  destruct (findMiddleSnake_refine data eqb aoffset boffset alimit blimit
              (max c) (flags c) Heq ltac:(lia) c Hs eq_refl eq_refl
              ltac:(lia))
    as [(c1 & d & k & _ & Hm & E1 & _)|[E1 _]]; rewrite E1 in E;
    [|discriminate E].
  inversion E; subst c1 x y. clear E.
  destruct (meets_after_start data eqb aoffset boffset alimit blimit Heq
              d k Hm) as (A1 & A2 & _).
  pose proof (meets_leaves_start data eqb aoffset boffset alimit blimit
                Heq Ha Hb d k Hm).
  pose proof (meets_before_end data eqb aoffset boffset alimit blimit
                Heq Ha Hb d k Hm).
  repeat split; trivial; lia.
Qed.

(** X3. On a rectangle with two non-empty sides, with buffers of the size
    [Diff] gives them, the point [(x, y)] that [findMiddleSnake] returns
    lies at or after the start of the rectangle in both coordinates and is
    not the start; in sum it lies at or before the end.  (A single
    coordinate can lie beyond the end.)  The call leaves [max] and the
    flags as they are. *)
Theorem findMiddleSnake_position (data : Interface) (eqb : Z -> Z -> bool)
    (aoffset boffset alimit blimit : Z) (c c' : context) (x y : Z) :
  aoffset < alimit -> boffset < blimit ->
  (forall i j, aoffset <= i < alimit -> boffset <= j < blimit ->
     Equal data i j = Ok (eqb i j)) ->
  sized c ->
  alimit - aoffset + (blimit - boffset) < max c ->
  findMiddleSnake data aoffset boffset alimit blimit c = Ok (c', (x, y)) ->
  aoffset <= x /\ boffset <= y /\
  aoffset + boffset < x + y /\ x + y <= alimit + blimit /\
  max c' = max c /\ flags c' = flags c.
Proof.
  exact (findMiddleSnake_splits data eqb aoffset boffset alimit blimit
           c c' x y).
Qed.

Lemma findMiddleSnake_position_witness :
  0 <= 3 /\ 0 <= 4 /\ 0 + 0 < 3 + 4 /\ 3 + 4 <= 4 + 3 /\
  max (mkContext [0; 0; 0; 0] 8
         (Some [0; 0; 0; 0; 0; 2; 2; 3; 2; 1; 3; 0; 0; 0; 0; 0])
         (Some [0; 0; 0; 0; 0; 0; 0; 3; 3; 4; 3; 0; 0; 0; 0; 0]))
    = max (initial (Ints [1; 1; 0; 0] [0; 1; 1]) [0; 0; 0; 0]) /\
  flags (mkContext [0; 0; 0; 0] 8
           (Some [0; 0; 0; 0; 0; 2; 2; 3; 2; 1; 3; 0; 0; 0; 0; 0])
           (Some [0; 0; 0; 0; 0; 0; 0; 3; 3; 4; 3; 0; 0; 0; 0; 0]))
    = flags (initial (Ints [1; 1; 0; 0] [0; 1; 1]) [0; 0; 0; 0]).
Proof.
  apply (findMiddleSnake_position (Ints [1; 1; 0; 0] [0; 1; 1])
           (fun i j => rd [1; 1; 0; 0] i =? rd [0; 1; 1] j) 0 0 4 3
           (initial (Ints [1; 1; 0; 0] [0; 1; 1]) [0; 0; 0; 0])).
  - lia.
  - lia.
  - intros i j Hi Hj. apply Ints_Equal; unfold len; simpl; lia.
  - left. split; reflexivity.
  - vm_compute. reflexivity.
  - vm_compute. reflexivity.
Defined.

(** ** What a run leaves untouched *)

(** [mark] leaves the flags before its range as they are. *)
Lemma mark_below (bit : Z) : forall fuel fl lo hi fl',
  0 <= lo -> mark fuel bit fl lo hi = Ok fl' ->
  forall i, 0 <= i < lo -> rd fl' i = rd fl i.
Proof.
  induction fuel as [|fuel IH]; intros fl lo hi fl' Hlo H i Hi;
    cbn [mark] in H;
    (destruct (lo <? hi); [|inversion H; reflexivity]);
    inv_bind H; inv_bind H; [discriminate|].
  rewrite (IH _ (lo + 1) _ _ ltac:(lia) H i ltac:(lia)).
  unfold store in E0. destruct (in_range fl lo); inversion E0.
  apply rd_update_other; lia.
Qed.

Lemma findMiddleSnake_corner (data : Interface) (eqb : Z -> Z -> bool)
    (aoffset boffset alimit blimit S : Z) (c c' : context) (x y : Z) :
  (forall i j, Equal data i j = Ok (eqb i j)) ->
  1 <= S -> sized c -> max c = S + 1 ->
  alimit - aoffset + (blimit - boffset) <= S ->
  findMiddleSnake data aoffset boffset alimit blimit c = Ok (c', (x, y)) ->
  aoffset <= x /\ boffset <= y /\ x + y - (aoffset + boffset) <= S.
Proof.
  intros Heq HS Hs Hmx Hsz E.
  destruct (findMiddleSnake_split data eqb aoffset boffset alimit blimit S c
              Heq HS Hs Hmx Hsz) as [(c1 & x1 & y1 & E1 & _ & B)|E1];
    rewrite E1 in E; [|discriminate E].
  inversion E; subst c1 x1 y1. clear E.
  pose proof (maxd_bound (alimit - aoffset + blimit - boffset) S HS
                ltac:(lia)) as Hmaxd.
  assert (Heq' : forall i j, aoffset <= i < alimit -> boffset <= j < blimit ->
                             Equal data i j = Ok (eqb i j))
    by (intros; apply Heq).
  destruct (findMiddleSnake_refine data eqb aoffset boffset alimit blimit
              (S + 1) (flags c) Heq' ltac:(lia) c Hs Hmx eq_refl ltac:(lia))
    as [(c2 & d & k & _ & Hm & E2 & _)|[E2 _]]; rewrite E2 in E1;
    [|discriminate E1].
  inversion E1; subst.
  destruct (meets_after_start data eqb aoffset boffset alimit blimit Heq'
              d k Hm) as (A1 & A2 & _).
  repeat split; trivial.
Qed.

(** A run of [compare] leaves the flags before its rectangle, and those of
    a common prefix of the rectangle, as they are. *)
Lemma compare_keeps_below (data : Interface) (eqb : Z -> Z -> bool) (S : Z) :
  (forall i j, Equal data i j = Ok (eqb i j)) -> 1 <= S ->
  forall fuel c aoffset boffset alimit blimit c' p,
    sized c -> max c = S + 1 ->
    alimit - aoffset + (blimit - boffset) <= S ->
    0 <= aoffset -> 0 <= boffset -> 0 <= p ->
    (forall t, 0 <= t < p -> eqb (aoffset + t) (boffset + t) = true) ->
    p = 0 \/ (aoffset + p <= alimit /\ boffset + p <= blimit) ->
    compare data fuel c aoffset boffset alimit blimit = Ok c' ->
    forall i, 0 <= i -> i < aoffset + p -> i < boffset + p ->
      rd (flags c') i = rd (flags c) i.
Proof.
  intros Heq HS.
  induction fuel as [|fuel IH];
    intros c ao bo al bl c' p Hs Hmx Hsz Hao Hbo Hp Hpre Hpab H i Hi Hia Hib;
    [discriminate H|].
  cbn [compare] in H.
  destruct (snake_down_spec data eqb ao bo al bl
              ltac:(intros; apply Heq) (Z.to_nat (al - ao)) ao bo
              ltac:(lia) ltac:(lia) ltac:(lia))
    as (j & Hj & E & Hin & _ & Hend).
  rewrite E in H. cbn [bind] in H.
  assert (Hpj : p <= j).
  { destruct (Z_le_gt_dec p j) as [|Hlt]; trivial.
    rewrite Hpre in Hend by lia. discriminate Hend; lia. }
  destruct (snake_up_spec data eqb (ao + j) (bo + j) al bl
              ltac:(intros; apply Heq) (Z.to_nat (al - (ao + j))) al bl
              ltac:(lia) ltac:(lia) ltac:(lia)) as (t & Ht & E' & Hin' & _).
  rewrite E' in H. cbn [bind] in H.
  destruct (ao + j =? al - t).
  { inv_bind H. inversion H; subst c'. cbn [set_flags flags].
    refine (mark_below _ _ _ _ _ _ _ E0 i _); lia. }
  destruct (bo + j =? bl - t).
  { inv_bind H. inversion H; subst c'. cbn [set_flags flags].
    refine (mark_below _ _ _ _ _ _ _ E0 i _); lia. }
  inv_bind H. destruct v as [c1 [x y]]. inv_bind H. rename v into c0.
  destruct (findMiddleSnake_corner data eqb (ao + j) (bo + j) (al - t)
              (bl - t) S c c1 x y Heq HS Hs Hmx ltac:(lia) E0)
    as (Hx & Hy & Hxy).
  pose proof (findMiddleSnake_allocated _ _ _ _ _ _ _ _ Hs E0) as Hal.
  destruct (allocated_sized _ _ _ Hal) as [Hs1 Hm1].
  destruct Hal as (_ & Hfl1 & _).
  destruct (compare_sized data _ _ _ _ _ _ _ Hs1 E1) as (Hs2 & Hm2 & _).
  rewrite (IH c0 x y (al - t) (bl - t) c' 0 Hs2 ltac:(congruence) ltac:(lia)
             ltac:(lia) ltac:(lia) ltac:(lia) ltac:(intros; lia)
             ltac:(now left) H i Hi ltac:(lia) ltac:(lia)).
  rewrite (IH c1 (ao + j) (bo + j) x y c0 0 Hs1 ltac:(congruence) ltac:(lia)
             ltac:(lia) ltac:(lia) ltac:(lia) ltac:(intros; lia)
             ltac:(now left) E1 i Hi ltac:(lia) ltac:(lia)).
  now rewrite Hfl1.
Qed.

(** A run that returns is the run over [total data]. *)
Lemma follows_Ok (data : Interface) {T : Type} (r r' : outcome T) (v : T) :
  follows data r r' -> r = Ok v -> r' = Ok v.
Proof.
  intros [->|(i & j & Hf)] E; trivial.
  exfalso. unfold fails_as in Hf. rewrite E in Hf.
  destruct (Equal data i j); [exact Hf|discriminate Hf|discriminate Hf].
Qed.

(** The parts of a run of [Diff] that returns. *)
Lemma Diff_parts (data : Interface) (cs : list Change) :
  0 <= N data -> 0 <= M data -> Diff data = Ok cs ->
  exists c',
    compare data (Z.to_nat (N data + M data + 1))
      (initial data (repeat 0 (Z.to_nat (Z.max (N data) (M data)))))
      0 0 (N data) (M data) = Ok c' /\
    len (flags c') = Z.max (N data) (M data) /\
    result c' (N data) (M data) = Ok cs.
Proof.
  intros HN HM H. unfold Diff in H. cbv zeta in H.
  assert (Hfl :
    (if N data >? M data then make (N data) else make (M data))
    = Ok (repeat 0 (Z.to_nat (Z.max (N data) (M data))))).
  { destruct (N data >? M data) eqn:Eg; rewrite Z.gtb_ltb in Eg;
      [apply Z.ltb_lt in Eg|apply Z.ltb_ge in Eg];
      rewrite make_ok by lia; do 3 f_equal; lia. }
  rewrite Hfl in H. cbn [bind] in H.
  change (mkContext (repeat 0 (Z.to_nat (Z.max (N data) (M data))))
            (N data + M data + 1) None None)
    with (initial data (repeat 0 (Z.to_nat (Z.max (N data) (M data))))) in H.
  inv_bind H. exists v. split; [reflexivity|]. split; [|exact H].
  apply compare_sized in E; [|left; split; reflexivity].
  destruct E as (_ & _ & Hl). rewrite Hl. cbn [initial flags].
  rewrite len_repeat. lia.
Qed.

Lemma path_from (n m : Z) (cs : list Change) : forall x y x0 y0,
  x0 <= x -> y0 <= y -> path n m x y cs ->
  Forall (fun c => x0 <= A c /\ y0 <= B c) cs.
Proof.
  induction cs as [|c cs IH]; intros x y x0 y0 Hx Hy H; [constructor|].
  cbn [path] in H. destruct H as (H1 & H2 & H3 & H4 & _ & _ & _ & H).
  constructor; [lia|].
  apply (IH (A c + Del c) (B c + Ins c) x0 y0 ltac:(lia) ltac:(lia) H).
Qed.

Lemma reads_zero_prefix (fl : list Z) (n m p : Z) (cs : list Change) :
  reads fl n m 0 0 cs ->
  (forall i, 0 <= i < p -> rd fl i = 0) -> p <= n -> p <= m ->
  Forall (fun c => p <= A c /\ p <= B c) cs.
Proof.
  intros H Hz Hn Hm. destruct cs as [|c cs]; [constructor|].
  pose proof (reads_path _ _ _ _ _ _ H) as Hp.
  cbn [reads] in H.
  destruct H as (H1 & H2 & _ & H4 & H5 & H6 & _ & _ & H9 & H10 & _).
  assert (Hc : p <= A c).
  { destruct (Z_le_gt_dec p (A c)) as [|Hlt]; trivial. exfalso.
    destruct (Z_lt_ge_dec 0 (Del c)) as [Hd|Hd].
    - apply (H9 (A c)); [lia|lia|]. now rewrite Hz by lia.
    - apply (H10 (B c)); [lia|lia|]. now rewrite Hz by lia. }
  cbn [path] in Hp. destruct Hp as (_ & _ & _ & _ & _ & _ & _ & Hp).
  constructor; [lia|].
  apply (path_from _ _ _ (A c + Del c) (B c + Ins c) p p
           ltac:(lia) ltac:(lia) Hp).
Qed.

(** X4. A list that [Diff] returns is a path from [(0, 0)] to [(N, M)]:
    its changes come in order and do not overlap, each deletes or inserts
    at least one element, none reaches beyond [N] or [M], and the stretches
    between the changes have the same length in both sequences. *)
Theorem Diff_returns_path (data : Interface) (cs : list Change) :
  0 <= N data -> 0 <= M data -> Diff data = Ok cs ->
  path (N data) (M data) 0 0 cs.
Proof.
  intros HN HM H.
  destruct (Diff_parts data cs HN HM H) as (c' & _ & Hl & Er).
  unfold result in Er.
  destruct (result_loop_reads (flags c') (N data) (M data)
              ltac:(lia) ltac:(lia) (Z.to_nat (N data + M data)) 0 0 []
              ltac:(lia) ltac:(lia) ltac:(lia)) as (cs' & Er' & Hr).
  rewrite Er in Er'. inversion Er'. subst cs'.
  now apply reads_path with (fl := flags c').
Qed.

Lemma Diff_returns_path_witness :
  path (N (Ints [1; 1; 0; 0; 1; 0] [0; 1; 1; 1; 0]))
       (M (Ints [1; 1; 0; 0; 1; 0] [0; 1; 1; 1; 0])) 0 0
       [mkChange 0 0 0 2; mkChange 2 4 2 0; mkChange 5 5 1 0].
Proof.
  apply (Diff_returns_path (Ints [1; 1; 0; 0; 1; 0] [0; 1; 1; 1; 0])).
  - vm_compute. discriminate.
  - vm_compute. discriminate.
  - vm_compute. reflexivity.
Defined.

(** X5. A common prefix is never reported as changed: when the first [p]
    elements of the two sequences are pairwise equal, every change of the
    list that [Diff] returns lies at or after [p] in both sequences. *)
Theorem Diff_keeps_common_prefix (data : Interface) (p : Z)
    (cs : list Change) :
  0 <= p <= N data -> p <= M data ->
  (forall i, 0 <= i < p -> Equal data i i = Ok true) ->
  Diff data = Ok cs ->
  Forall (fun c => p <= A c /\ p <= B c) cs.
Proof.
  intros HpN HpM Hpre H.
  destruct (Diff_parts data cs ltac:(lia) ltac:(lia) H)
    as (c' & Ec & Hl & Er).
  unfold result in Er.
  destruct (result_loop_reads (flags c') (N data) (M data)
              ltac:(lia) ltac:(lia) (Z.to_nat (N data + M data)) 0 0 []
              ltac:(lia) ltac:(lia) ltac:(lia)) as (cs' & Er' & Hr).
  rewrite Er in Er'. inversion Er'. subst cs'. clear Er'.
  apply (reads_zero_prefix _ _ _ _ _ Hr); try lia.
  intros i Hi.
  destruct (Z.eq_dec (N data + M data) 0) as [Hz|Hz]; [lia|].
  apply (follows_Ok data _ _ _ (compare_follows data _ _ _ _ _ _)) in Ec.
  rewrite (compare_keeps_below (total data) (eqb_of data) (N data + M data)
             ltac:(reflexivity) ltac:(lia) (Z.to_nat (N data + M data + 1))
             (initial data (repeat 0 (Z.to_nat (Z.max (N data) (M data)))))
             0 0 (N data) (M data) c' p
             ltac:(left; split; reflexivity) ltac:(reflexivity) ltac:(lia)
             ltac:(lia) ltac:(lia) ltac:(lia)
             ltac:(intros t Ht; unfold eqb_of; cbn [Z.add];
                   now rewrite Hpre by lia)
             ltac:(right; lia) Ec i ltac:(lia) ltac:(lia) ltac:(lia)).
  cbn [initial flags]. apply rd_repeat.
Qed.

Lemma Diff_keeps_common_prefix_witness :
  Forall (fun c => 2 <= A c /\ 2 <= B c) [mkChange 2 2 2 1].
Proof.
  apply (Diff_keeps_common_prefix (Ints [1; 2; 3; 4] [1; 2; 5]) 2).
  - vm_compute. split; discriminate.
  - vm_compute. discriminate.
  - intros i Hi. assert (i = 0 \/ i = 1) as [-> | ->] by lia; reflexivity.
  - vm_compute. reflexivity.
Defined.

(** ** What a run flags *)

Lemma land_lor_keep (a b c : Z) : Z.land a b <> 0 -> Z.land (Z.lor a c) b <> 0.
Proof.
  intros H H0. rewrite Z.land_lor_distr_l in H0.
  apply Z.lor_eq_0_iff in H0. tauto.
Qed.

(** A successful [store] is an [update] within the slice. *)
Lemma store_inv (l l' : list Z) (i v : Z) :
  store l i v = Ok l' -> 0 <= i < len l /\ l' = update l (Z.to_nat i) v.
Proof.
  unfold store, in_range. intros H.
  destruct (0 <=? i) eqn:E1; [|discriminate H].
  destruct (i <? len l) eqn:E2; [|discriminate H].
  apply Z.leb_le in E1. apply Z.ltb_lt in E2. inversion H. split; [lia|trivial].
Qed.

Lemma index_inv (l : list Z) (i v : Z) : index l i = Ok v -> v = rd l i.
Proof.
  unfold index. destruct (in_range l i); intros H; inversion H; reflexivity.
Qed.

(** [mark] only sets bits. *)
Lemma mark_keeps (bit : Z) : forall fuel fl lo hi fl',
  mark fuel bit fl lo hi = Ok fl' ->
  forall i b, 0 <= i -> Z.land (rd fl i) b <> 0 -> Z.land (rd fl' i) b <> 0.
Proof.
  induction fuel as [|fuel IH]; intros fl lo hi fl' H i b Hi Hb;
    cbn [mark] in H;
    (destruct (lo <? hi); [|inversion H; subst; exact Hb]);
    inv_bind H; inv_bind H; [discriminate|].
  apply (IH _ _ _ _ H i b Hi).
  apply index_inv in E. apply store_inv in E0. destruct E0 as [Hr ->].
  destruct (Z.eq_dec i lo) as [->|Hne].
  - rewrite rd_update_same by lia. subst v. now apply land_lor_keep.
  - rewrite rd_update_other by lia. exact Hb.
Qed.

(** [mark] sets its bit at the start of a non-empty range. *)
Lemma mark_first (bit : Z) (fuel : nat) (fl : list Z) (lo hi : Z)
    (fl' : list Z) :
  bit <> 0 -> lo < hi -> mark fuel bit fl lo hi = Ok fl' ->
  Z.land (rd fl' lo) bit <> 0.
Proof.
  intros Hbit Hlt H. destruct fuel as [|fuel]; cbn [mark] in H;
    (replace (lo <? hi) with true in H by (symmetry; now apply Z.ltb_lt));
    inv_bind H; inv_bind H; [discriminate|].
  apply store_inv in E0. destruct E0 as [Hr ->].
  rewrite (mark_below _ _ _ (lo + 1) _ _ ltac:(lia) H lo ltac:(lia)).
  rewrite rd_update_same by lia.
  rewrite Z.land_lor_distr_l, Z.land_diag. intros H0.
  apply Z.lor_eq_0_iff in H0. tauto.
Qed.

(** A run of [compare] only sets bits. *)
Lemma compare_keeps_flags (data : Interface) :
  forall fuel c aoffset boffset alimit blimit c',
    sized c -> compare data fuel c aoffset boffset alimit blimit = Ok c' ->
    forall i b, 0 <= i ->
      Z.land (rd (flags c) i) b <> 0 -> Z.land (rd (flags c') i) b <> 0.
Proof.
  induction fuel as [|fuel IH]; intros c ao bo al bl c' Hs H i b Hi Hb;
    [discriminate H|].
  cbn [compare] in H.
  inv_bind H. destruct v as [ao' bo']. inv_bind H. destruct v as [al' bl'].
  destruct (ao' =? al').
  { inv_bind H. inversion H; subst c'. cbn [set_flags flags].
    exact (mark_keeps _ _ _ _ _ _ E1 i b Hi Hb). }
  destruct (bo' =? bl').
  { inv_bind H. inversion H; subst c'. cbn [set_flags flags].
    exact (mark_keeps _ _ _ _ _ _ E1 i b Hi Hb). }
  inv_bind H. destruct v as [c1 [x y]]. inv_bind H. rename v into c2.
  pose proof (findMiddleSnake_allocated _ _ _ _ _ _ _ _ Hs E1) as Hal.
  destruct (allocated_sized _ _ _ Hal) as [Hs1 _].
  destruct Hal as (_ & Hfl1 & _).
  destruct (compare_sized data _ _ _ _ _ _ _ Hs1 E2) as (Hs2 & _ & _).
  apply (IH _ _ _ _ _ _ Hs2 H i b Hi).
  apply (IH _ _ _ _ _ _ Hs1 E2 i b Hi).
  now rewrite Hfl1.
Qed.

(** A run of [compare] on a rectangle that its two loops do not trim to
    nothing flags the first element after the common prefix, in one
    sequence or in the other. *)
Lemma compare_marks_start (data : Interface) (eqb : Z -> Z -> bool) (S : Z) :
  (forall i j, Equal data i j = Ok (eqb i j)) -> 1 <= S ->
  forall fuel c aoffset boffset alimit blimit c' p,
    sized c -> max c = S + 1 ->
    alimit - aoffset + (blimit - boffset) <= S ->
    0 <= aoffset -> 0 <= boffset -> 0 <= p ->
    (forall t, 0 <= t < p -> eqb (aoffset + t) (boffset + t) = true) ->
    aoffset + p <= alimit -> boffset + p <= blimit ->
    aoffset + p < alimit \/ boffset + p < blimit ->
    (aoffset + p < alimit -> boffset + p < blimit ->
     eqb (aoffset + p) (boffset + p) = false) ->
    compare data fuel c aoffset boffset alimit blimit = Ok c' ->
    Z.land (rd (flags c') (aoffset + p)) 1 <> 0 \/
    Z.land (rd (flags c') (boffset + p)) 2 <> 0.
Proof.
  intros Heq HS.
  induction fuel as [|fuel IH];
    intros c ao bo al bl c' p Hs Hmx Hsz Hao Hbo Hp Hpre Hpa Hpb Hne Hstop H;
    [discriminate H|].
  cbn [compare] in H.
  destruct (snake_down_spec data eqb ao bo al bl
              ltac:(intros; apply Heq) (Z.to_nat (al - ao)) ao bo
              ltac:(lia) ltac:(lia) ltac:(lia))
    as (j & Hj & E & Hin & Hall & Hend).
  rewrite E in H. cbn [bind] in H.
  assert (j = p).
  { destruct (Z.lt_trichotomy j p) as [Hlt|[Heq'|Hgt]]; trivial; exfalso.
    - rewrite Hpre in Hend by lia. discriminate Hend; lia.
    - specialize (Hall p ltac:(lia)). rewrite Hstop in Hall by lia.
      discriminate Hall. }
  subst j. clear Hin Hall Hend.
  destruct (snake_up_spec data eqb (ao + p) (bo + p) al bl
              ltac:(intros; apply Heq) (Z.to_nat (al - (ao + p))) al bl
              ltac:(lia) ltac:(lia) ltac:(lia))
    as (t & Ht & E' & Hin' & Hall' & _).
  rewrite E' in H. cbn [bind] in H.
  assert (Hcorner : ao + p <= al - t /\ bo + p <= bl - t /\
                    (ao + p < al - t \/ bo + p < bl - t)).
  { destruct (Z.eq_dec t 0) as [->|Ht0]; [lia|].
    destruct Hin' as [|[H1 H2]]; [lia|]. split; [lia|]. split; [lia|].
    destruct (Z.eq_dec (al - t) (ao + p)) as [Ea|]; [|lia].
    destruct (Z.eq_dec (bl - t) (bo + p)) as [Eb|]; [|lia].
    exfalso. specialize (Hall' (t - 1) ltac:(lia)).
    replace (al - (t - 1) - 1) with (ao + p) in Hall' by lia.
    replace (bl - (t - 1) - 1) with (bo + p) in Hall' by lia.
    rewrite Hstop in Hall' by lia. discriminate Hall'. }
  destruct Hcorner as (Hx' & Hy' & Hne').
  destruct (ao + p =? al - t) eqn:Ea.
  { apply Z.eqb_eq in Ea. inv_bind H. inversion H; subst c'.
    cbn [set_flags flags]. right.
    refine (mark_first 2 _ _ _ _ _ _ _ E0); lia. }
  apply Z.eqb_neq in Ea.
  destruct (bo + p =? bl - t) eqn:Eb.
  { apply Z.eqb_eq in Eb. inv_bind H. inversion H; subst c'.
    cbn [set_flags flags]. left.
    refine (mark_first 1 _ _ _ _ _ _ _ E0); lia. }
  apply Z.eqb_neq in Eb.
  inv_bind H. destruct v as [c1 [x y]]. inv_bind H. rename v into c2.
  destruct (findMiddleSnake_splits data eqb (ao + p) (bo + p) (al - t)
              (bl - t) c c1 x y ltac:(lia) ltac:(lia)
              ltac:(intros; apply Heq) Hs ltac:(lia) E0)
    as (Hx & Hy & Hlo & Hhi & Hm1 & Hfl1).
  pose proof (findMiddleSnake_allocated _ _ _ _ _ _ _ _ Hs E0) as Hal.
  destruct (allocated_sized _ _ _ Hal) as [Hs1 _].
  destruct (compare_sized data _ _ _ _ _ _ _ Hs1 E1) as (Hs2 & _ & _).
  assert (Hmid : Z.land (rd (flags c2) (ao + p)) 1 <> 0 \/
                 Z.land (rd (flags c2) (bo + p)) 2 <> 0).
  { pose proof (IH c1 (ao + p) (bo + p) x y c2 0 Hs1 ltac:(congruence)
                  ltac:(lia) ltac:(lia) ltac:(lia) ltac:(lia)
                  ltac:(intros; lia) ltac:(lia) ltac:(lia) ltac:(lia)
                  ltac:(rewrite !Z.add_0_r; intros; apply Hstop; lia) E1)
      as IH1.
    now rewrite !Z.add_0_r in IH1. }
  destruct Hmid as [Hmid|Hmid]; [left|right];
    apply (compare_keeps_flags data _ _ _ _ _ _ _ Hs2 H); trivial; lia.
Qed.

(** X6. [Diff] returns the empty list only for equal sequences: then
    [N = M] and every element of the first sequence is [Equal] to the
    element of the second at the same position. *)
Theorem Diff_empty_only_if_equal (data : Interface) :
  0 <= N data -> 0 <= M data -> Diff data = Ok [] ->
  N data = M data /\
  forall i, 0 <= i < N data -> Equal data i i = Ok true.
Proof.
  intros HN HM H.
  destruct (Diff_parts data [] HN HM H) as (c' & Ec & Hl & Er).
  unfold result in Er.
  destruct (result_loop_reads (flags c') (N data) (M data)
              ltac:(lia) ltac:(lia) (Z.to_nat (N data + M data)) 0 0 []
              ltac:(lia) ltac:(lia) ltac:(lia)) as (cs' & Er' & Hr).
  rewrite Er in Er'. inversion Er'. subst cs'. clear Er'.
  cbn [reads] in Hr. destruct Hr as (_ & Hnm & Hkept).
  split; [lia|].
  destruct (Z.eq_dec (N data + M data) 0) as [Hz|Hz]; [intros; lia|].
  apply (follows_Ok data _ _ _ (compare_follows data _ _ _ _ _ _)) in Ec.
  destruct (snake_down_spec (total data) (eqb_of data) 0 0 (N data) (M data)
              ltac:(reflexivity) (Z.to_nat (N data)) 0 0
              ltac:(lia) ltac:(lia) ltac:(lia))
    as (j & Hj & _ & Hin & Hall & Hend).
  cbn [Z.add] in *.
  assert (Hjn : j <= N data) by lia.
  destruct (Z.eq_dec j (N data)) as [->|Hlt].
  - intros i Hi. specialize (Hall i Hi). unfold eqb_of in Hall.
    destruct (Equal data i i) as [[|]| |]; trivial; discriminate Hall.
  - exfalso.
    destruct (compare_marks_start (total data) (eqb_of data)
                (N data + M data) ltac:(reflexivity) ltac:(lia)
                (Z.to_nat (N data + M data + 1))
                (initial data (repeat 0 (Z.to_nat (Z.max (N data) (M data)))))
                0 0 (N data) (M data) c' j
                ltac:(left; split; reflexivity) ltac:(reflexivity)
                ltac:(lia) ltac:(lia) ltac:(lia) Hj
                ltac:(intros; cbn [Z.add]; now apply Hall)
                ltac:(lia) ltac:(lia) ltac:(lia)
                ltac:(cbn [Z.add]; intros; apply Hend; lia) Ec)
      as [Hf|Hf]; cbn [Z.add] in Hf;
      destruct (Hkept j ltac:(lia)) as [K1 K2]; cbn [Z.add] in K1, K2;
      contradiction.
Qed.

Lemma Diff_empty_only_if_equal_witness :
  N (Ints [3; 1; 4] [3; 1; 4]) = M (Ints [3; 1; 4] [3; 1; 4]) /\
  forall i, 0 <= i < N (Ints [3; 1; 4] [3; 1; 4]) ->
    Equal (Ints [3; 1; 4] [3; 1; 4]) i i = Ok true.
Proof.
  apply (Diff_empty_only_if_equal (Ints [3; 1; 4] [3; 1; 4])).
  - vm_compute. discriminate.
  - vm_compute. discriminate.
  - vm_compute. reflexivity.
Defined.

(** ** Sequences that differ by one block *)

Lemma list_ext (l1 l2 : list Z) :
  len l1 = len l2 -> (forall i, 0 <= i < len l1 -> rd l1 i = rd l2 i) ->
  l1 = l2.
Proof.
  intros Hl H. apply nth_ext with (d := 0) (d' := 0).
  - unfold len in Hl. lia.
  - intros k Hk. specialize (H (Z.of_nat k)). unfold rd in H.
    rewrite Nat2Z.id in H. apply H. unfold len. lia.
Qed.

Lemma len_firstn (n : Z) (l : list Z) :
  0 <= n <= len l -> len (firstn (Z.to_nat n) l) = n.
Proof. unfold len. intros H. rewrite length_firstn. lia. Qed.

Lemma len_skipn (n : Z) (l : list Z) :
  0 <= n <= len l -> len (skipn (Z.to_nat n) l) = len l - n.
Proof. unfold len. intros H. rewrite length_skipn. lia. Qed.

Lemma rd_firstn (n : Z) (l : list Z) (i : Z) :
  0 <= i < n -> rd (firstn (Z.to_nat n) l) i = rd l i.
Proof.
  intros H. unfold rd. rewrite nth_firstn.
  now replace (Z.to_nat i <? Z.to_nat n)%nat with true
    by (symmetry; apply Nat.ltb_lt; lia).
Qed.

Lemma rd_skipn (n : Z) (l : list Z) (i : Z) :
  0 <= n -> 0 <= i -> rd (skipn (Z.to_nat n) l) i = rd l (n + i).
Proof.
  intros Hn Hi. unfold rd. rewrite nth_skipn. f_equal. lia.
Qed.

(** A change that replaces [k] elements of [a] at [p] by [l] elements of
    [b] at [p] turns [a] into [b] when the two agree before [p] and, shifted
    by [l - k], after the change. *)
Lemma apply_one_change (a b : list Z) (p k l : Z) :
  0 <= p -> 0 <= k -> 0 <= l ->
  p + k <= len a -> len b = len a - k + l ->
  (forall i, 0 <= i < p -> rd a i = rd b i) ->
  (forall i, p + k <= i < len a -> rd a i = rd b (i - k + l)) ->
  apply_changes [mkChange p p k l] a b = b.
Proof.
  intros Hp Hk Hl Ha Hb Hpre Hsuf.
  unfold apply_changes. cbn [apply_from A B Del Ins].
  rewrite Z.sub_0_r. change (Z.to_nat 0) with 0%nat. cbn [skipn].
  apply list_ext.
  - rewrite !len_app, !len_firstn, len_skipn; try lia.
    rewrite len_skipn; lia.
  - intros i Hi.
    rewrite !len_app, !len_firstn, len_skipn in Hi; try lia;
      [|rewrite len_skipn; lia].
    destruct (Z_lt_ge_dec i p) as [H1|H1].
    + rewrite rd_app_l by (rewrite len_firstn; lia).
      rewrite rd_firstn by lia. apply Hpre. lia.
    + rewrite rd_app_r by (rewrite len_firstn; lia).
      rewrite len_firstn by lia.
      destruct (Z_lt_ge_dec i (p + l)) as [H2|H2].
      * rewrite rd_app_l by (rewrite len_firstn; [|rewrite len_skipn]; lia).
        rewrite rd_firstn by lia. rewrite rd_skipn by lia. f_equal. lia.
      * rewrite rd_app_r by (rewrite len_firstn; [|rewrite len_skipn]; lia).
        rewrite len_firstn by (rewrite len_skipn; lia).
        rewrite rd_skipn by lia. rewrite Hsuf by lia. f_equal. lia.
Qed.

(** X7. When one sequence is the other with one block [mid] of consecutive
    elements removed, [Diff] returns a single change, in either direction:
    a deletion of [len mid] elements from the longer sequence, an insertion
    of [len mid] elements into the shorter one, at a position [p] at or
    after the place of the block that the common prefix of the two
    sequences reaches; applying the change to the first sequence gives the
    second. *)
Theorem Diff_one_block_exact (pre mid suf : list Z) :
  mid <> [] ->
  exists p,
    len pre <= p <= len pre + len suf /\
    Diff (Ints (pre ++ mid ++ suf) (pre ++ suf))
      = Ok [mkChange p p (len mid) 0] /\
    Diff (Ints (pre ++ suf) (pre ++ mid ++ suf))
      = Ok [mkChange p p 0 (len mid)] /\
    apply_changes [mkChange p p (len mid) 0]
      (pre ++ mid ++ suf) (pre ++ suf) = pre ++ suf /\
    apply_changes [mkChange p p 0 (len mid)]
      (pre ++ suf) (pre ++ mid ++ suf) = pre ++ mid ++ suf.
Proof.
  intros Hmid.
  set (a := pre ++ mid ++ suf). set (b := pre ++ suf).
  pose proof (len_nonneg pre) as HP. pose proof (len_nonneg mid) as HK.
  pose proof (len_nonneg suf) as HS.
  assert (HK' : 0 < len mid).
  { destruct mid; [congruence|]. unfold len. cbn [List.length]. lia. }
  assert (Ea : len a = len pre + len mid + len suf)
    by (unfold a; rewrite !len_app; lia).
  assert (Eb : len b = len pre + len suf)
    by (unfold b; rewrite !len_app; lia).
  assert (Hpre : forall i, 0 <= i < len pre -> rd a i = rd b i).
  { intros i Hi. unfold a, b. now rewrite !rd_app_l by lia. }
  assert (Hshift : forall i, len pre <= i < len b ->
                     rd a (i + len mid) = rd b i).
  { intros i Hi. unfold a, b.
    rewrite rd_app_r by lia. rewrite rd_app_r by lia.
    rewrite (rd_app_r pre suf) by lia. f_equal. lia. }
  assert (Hsuf : forall t, 0 <= t < len suf ->
                   rd a (len a - 1 - t) = rd b (len b - 1 - t)).
  { intros t Ht. rewrite <- Hshift by lia. f_equal. lia. }
  assert (Hab : forall i j, 0 <= i < len a -> 0 <= j < len b ->
                  Equal (Ints a b) i j = Ok (rd a i =? rd b j))
    by (intros; now apply Ints_Equal).
  assert (Hba : forall i j, 0 <= i < len b -> 0 <= j < len a ->
                  Equal (Ints b a) i j = Ok (rd b i =? rd a j))
    by (intros; now apply Ints_Equal).
  destruct (trim_one_block (Ints a b) (fun i j => rd a i =? rd b j)
              (len pre) (len mid) 0 (len suf) HP HK (Z.le_refl 0) HS
              (or_intror eq_refl) Ea ltac:(cbn [M Ints]; lia) Hab
              ltac:(intros i Hi; apply Z.eqb_eq; now apply Hpre)
              ltac:(intros t Ht; apply Z.eqb_eq; now apply Hsuf))
    as (p & Hp & Ed & Eu & Hall & Hend).
  destruct (trim_one_block (Ints b a) (fun i j => rd b i =? rd a j)
              (len pre) 0 (len mid) (len suf) HP (Z.le_refl 0) HK HS
              (or_introl eq_refl) ltac:(cbn [N Ints]; lia) Ea Hba
              ltac:(intros i Hi; apply Z.eqb_eq; symmetry; now apply Hpre)
              ltac:(intros t Ht; apply Z.eqb_eq; symmetry; now apply Hsuf))
    as (q & Hq & Ed' & Eu' & Hall' & Hend').
  cbn beta in *.
  assert (q = p).
  { destruct (Z.lt_trichotomy q p) as [H|[H|H]]; trivial.
    - specialize (Hall q ltac:(lia)). rewrite Z.eqb_sym, Hend' in Hall by lia.
      discriminate.
    - specialize (Hall' p ltac:(lia)). rewrite Z.eqb_sym, Hend in Hall' by lia.
      discriminate. }
  subst q.
  assert (Hsame : forall i, 0 <= i < p -> rd a i = rd b i)
    by (intros i Hi; apply Z.eqb_eq; now apply Hall).
  exists p. split; [exact Hp|]. split; [|split; [|split]].
  - replace [mkChange p p (len mid) 0]
      with (if 0 <? len mid + 0 then [mkChange p p (len mid) 0] else [])
      by (now replace (0 <? len mid + 0) with true
            by (symmetry; apply Z.ltb_lt; lia)).
    apply Diff_one_block; cbn [N M Ints]; try lia; trivial.
  - replace [mkChange p p 0 (len mid)]
      with (if 0 <? 0 + len mid then [mkChange p p 0 (len mid)] else [])
      by (now replace (0 <? 0 + len mid) with true
            by (symmetry; apply Z.ltb_lt; lia)).
    apply Diff_one_block; cbn [N M Ints]; try lia; trivial.
  - apply apply_one_change; try lia; trivial.
    intros i Hi. rewrite <- Hshift by lia. f_equal. lia.
  - apply apply_one_change; try lia.
    + intros i Hi. symmetry. now apply Hsame.
    + intros i Hi. rewrite <- Hshift by lia. f_equal. lia.
Qed.

Lemma Diff_one_block_exact_witness :
  exists p,
    len [1; 2] <= p <= len [1; 2] + len [3; 4] /\
    Diff (Ints ([1; 2] ++ [3; 7] ++ [3; 4]) ([1; 2] ++ [3; 4]))
      = Ok [mkChange p p (len [3; 7]) 0] /\
    Diff (Ints ([1; 2] ++ [3; 4]) ([1; 2] ++ [3; 7] ++ [3; 4]))
      = Ok [mkChange p p 0 (len [3; 7])] /\
    apply_changes [mkChange p p (len [3; 7]) 0]
      ([1; 2] ++ [3; 7] ++ [3; 4]) ([1; 2] ++ [3; 4]) = [1; 2] ++ [3; 4] /\
    apply_changes [mkChange p p 0 (len [3; 7])]
      ([1; 2] ++ [3; 4]) ([1; 2] ++ [3; 7] ++ [3; 4])
      = [1; 2] ++ [3; 7] ++ [3; 4].
Proof.
  apply (Diff_one_block_exact [1; 2] [3; 7] [3; 4]).
  discriminate.
Defined.

(** ** Rectangles without a pair of equal elements *)

Section Disjoint.

Variable data : Interface.
Variables aoffset boffset alimit blimit : Z.

Hypothesis Hfalse : forall i j,
  aoffset <= i < alimit -> boffset <= j < blimit ->
  Equal data i j = Ok false.

Local Abbreviation fmid := (aoffset - boffset).
Local Abbreviation rmid := (alimit - blimit).
Local Abbreviation FWd := (FW data aoffset boffset alimit blimit).
Local Abbreviation RWd := (RW data aoffset boffset alimit blimit).
Local Abbreviation kfd := (kf aoffset boffset).
Local Abbreviation krd := (kr alimit blimit).

(** No snake is followed. *)
Lemma slide_down_fixed (x k : Z) :
  aoffset <= x -> boffset <= x - k -> slide_down data alimit blimit x k = x.
Proof.
  intros Hx Hy. unfold slide_down.
  destruct (Z.to_nat (alimit - x)); cbn [snake_down];
    (destruct ((x <? alimit) && (x - k <? blimit)) eqn:E; [|reflexivity]);
    apply andb_true_iff in E; destruct E as [E1 E2];
    apply Z.ltb_lt in E1, E2; rewrite Hfalse by lia; reflexivity.
Qed.

Lemma slide_up_fixed (x k : Z) :
  x <= alimit -> x - k <= blimit -> slide_up data aoffset boffset x k = x.
Proof.
  intros Hx Hy. unfold slide_up.
  destruct (Z.to_nat (x - aoffset)); cbn [snake_up];
    (destruct ((x >? aoffset) && (x - k >? boffset)) eqn:E; [|reflexivity]);
    apply andb_true_iff in E; destruct E as [E1 E2];
    rewrite Z.gtb_ltb in E1, E2; apply Z.ltb_lt in E1, E2;
    rewrite Hfalse by lia; reflexivity.
Qed.

(** The entries of round [d] are the points [d] steps from the start, and
    [d] steps from the end: whichever neighbour a rule chooses, the entry is
    the same. *)
Lemma FW_disjoint (d : nat) : forall i,
  0 <= i <= Z.of_nat d -> FWd d (kfd d i) = aoffset + i.
Proof.
  induction d as [|d IH]; intros i Hi; rewrite FW_eq; cbn [prevF].
  - assert (i = 0) by lia. subst i. unfold fpre, kf. cbn [Z.of_nat]. cmp.
    rewrite slide_down_fixed; lia.
  - destruct (fpre_kf aoffset boffset (FWd d) d i Hi) as [[Hi' E]|[Hi' E]];
      rewrite E, IH by lia; rewrite slide_down_fixed; unfold kf; lia.
Qed.

Lemma RW_disjoint (d : nat) : forall j,
  0 <= j <= Z.of_nat d -> RWd d (krd d j) = alimit - Z.of_nat d + j.
Proof.
  induction d as [|d IH]; intros j Hj; rewrite RW_eq; cbn [prevR].
  - assert (j = 0) by lia. subst j. unfold rpre, kr. cbn [Z.of_nat]. cmp.
    rewrite slide_up_fixed; lia.
  - destruct (rpre_kr alimit blimit (RWd d) d j Hj) as [[Hj' E]|[Hj' E]];
      rewrite E, IH by lia; rewrite slide_up_fixed; unfold kr; lia.
Qed.

Hypothesis Ha : aoffset < alimit.
Hypothesis Hb : boffset < blimit.

(** The two searches meet strictly inside the rectangle's sum range, at a
    point of the rectangle. *)
Lemma disjoint_meets (d : nat) (k : Z) :
  meets data aoffset boffset alimit blimit d k ->
  Z.of_nat d <= Z.quot (alimit - aoffset + blimit - boffset + 2) 2 ->
  aoffset <= FWd d k <= alimit /\
  boffset <= FWd d k - k <= blimit /\
  aoffset + boffset < 2 * FWd d k - k < alimit + blimit.
Proof.
  intros (Hq & Hm) Hd.
  rewrite (Z.quot_div_nonneg _ 2) in Hd by lia.
  pose proof (Z.div_mod (alimit - aoffset + blimit - boffset + 2) 2
                ltac:(lia)) as Hdm.
  pose proof (Z.mod_pos_bound (alimit - aoffset + blimit - boffset + 2) 2
                ltac:(lia)) as Hmb.
  destruct Hm as [(i & Hi & -> & Hh)|(_ & j & Hj & -> & Hh)].
  - unfold hitF in Hh.
    apply andb_true_iff in Hh. destruct Hh as [Hh E3].
    apply andb_true_iff in Hh. destruct Hh as [Hh E2].
    apply andb_true_iff in Hh. destruct Hh as [Eo E1].
    rewrite Z.gtb_ltb in E1. apply Z.ltb_lt in E1, E2. apply Z.leb_le in E3.
    destruct (odd_delta_true _ _ _ _ Eo) as (e & He).
    destruct d as [|d]; [lia|]. cbn [pred] in E3.
    replace (kfd (S d) i) with (krd d (i - e - 1)) in E3 at 1
      by (unfold kf, kr; lia).
    rewrite RW_disjoint in E3 by (unfold kf in *; lia).
    rewrite FW_disjoint in * by lia.
    unfold kf in *. lia.
  - unfold hitR in Hh.
    apply andb_true_iff in Hh. destruct Hh as [Hh E3].
    apply andb_true_iff in Hh. destruct Hh as [Hh E2].
    apply andb_true_iff in Hh. destruct Hh as [Eo E1].
    apply negb_true_iff in Eo.
    rewrite Z.geb_leb in E1. apply Z.leb_le in E1, E2, E3.
    destruct (odd_delta_false _ _ _ _ Eo) as (e & He).
    rewrite RW_disjoint in E3 by lia.
    replace (krd d j) with (kfd d (j + e)) in * by (unfold kf, kr; lia).
    rewrite FW_disjoint in * by (unfold kf in *; lia).
    assert (Hle : Z.of_nat d <= alimit - aoffset - e).
    { destruct (Z_le_gt_dec (Z.of_nat d) (alimit - aoffset - e)) as [|Hgt];
        trivial. exfalso.
      destruct d as [|d]; [lia|].
      destruct (Hq d ltac:(lia)) as [_ HqR].
      set (j0 := Z.max 0 (- e)).
      specialize (HqR j0 ltac:(unfold j0; lia)).
      unfold hitR in HqR. rewrite Eo in HqR.
      replace (krd d j0 >=? fmid - Z.of_nat d) with true in HqR
        by (symmetry; unfold kr, j0; cmp; reflexivity).
      replace (krd d j0 <=? fmid + Z.of_nat d) with true in HqR
        by (symmetry; unfold kr, j0; cmp; reflexivity).
      cbn [negb andb] in HqR. apply Z.leb_gt in HqR.
      rewrite RW_disjoint in HqR by (unfold j0; lia).
      replace (krd d j0) with (kfd d (j0 + e)) in HqR
        by (unfold kf, kr; lia).
      rewrite FW_disjoint in HqR by (unfold j0; lia).
      lia. }
    unfold kf in *. lia.
Qed.

End Disjoint.

Lemma snake_down_false (data : Interface) (fuel : nat) (alimit blimit x y : Z) :
  (x < alimit -> y < blimit -> Equal data x y = Ok false) ->
  snake_down data fuel alimit blimit x y = Ok (x, y).
Proof.
  intros H. destruct fuel; cbn [snake_down];
    (destruct ((x <? alimit) && (y <? blimit)) eqn:E; [|reflexivity]);
    apply andb_true_iff in E; destruct E as [E1 E2];
    apply Z.ltb_lt in E1, E2; rewrite H by lia; reflexivity.
Qed.

Lemma snake_up_false (data : Interface) (fuel : nat)
    (aoffset boffset x y : Z) :
  (aoffset < x -> boffset < y -> Equal data (x - 1) (y - 1) = Ok false) ->
  snake_up data fuel aoffset boffset x y = Ok (x, y).
Proof.
  intros H. destruct fuel; cbn [snake_up];
    (destruct ((x >? aoffset) && (y >? boffset)) eqn:E; [|reflexivity]);
    apply andb_true_iff in E; destruct E as [E1 E2];
    rewrite Z.gtb_ltb in E1, E2; apply Z.ltb_lt in E1, E2;
    rewrite H by lia; reflexivity.
Qed.

(** The two flag bits do not disturb each other. *)
Lemma land_lor_other (v a b : Z) :
  Z.land a b = 0 -> Z.land (Z.lor v a) b = Z.land v b.
Proof.
  intros H. now rewrite Z.land_lor_distr_l, H, Z.lor_0_r.
Qed.

Lemma land_lor_same (v a : Z) : a <> 0 -> Z.land (Z.lor v a) a <> 0.
Proof.
  intros H H0. rewrite Z.land_lor_distr_l, Z.land_diag in H0.
  apply Z.lor_eq_0_iff in H0. tauto.
Qed.

(** On a rectangle without a pair of equal elements, [compare] flags every
    element of the rectangle, in both sequences, and nothing else. *)
Lemma compare_disjoint (data : Interface) (n m la ha lb hb : Z) :
  0 <= la -> ha <= n -> 0 <= lb -> hb <= m ->
  (forall i j, la <= i < ha -> lb <= j < hb -> Equal data i j = Ok false) ->
  forall fuel c aoffset boffset alimit blimit,
    la <= aoffset <= alimit -> alimit <= ha ->
    lb <= boffset <= blimit -> blimit <= hb ->
    sized c -> n + m < max c ->
    n <= len (flags c) -> m <= len (flags c) ->
    (Z.to_nat (alimit - aoffset + (blimit - boffset)) < fuel)%nat ->
    exists c',
      compare data fuel c aoffset boffset alimit blimit = Ok c' /\
      sized c' /\ max c' = max c /\ len (flags c') = len (flags c) /\
      forall i, 0 <= i ->
        (Z.land (rd (flags c') i) 1 = 0 <->
         Z.land (rd (flags c) i) 1 = 0 /\ ~ aoffset <= i < alimit) /\
        (Z.land (rd (flags c') i) 2 = 0 <->
         Z.land (rd (flags c) i) 2 = 0 /\ ~ boffset <= i < blimit).
Proof.
  intros Hla Hha Hlb Hhb Hfalse.
  induction fuel as [|fuel IH];
    intros c ao bo al bl Hao Hal Hbo Hbl Hs Hmx Hn Hm Hf; [lia|].
  cbn [compare].
  rewrite snake_down_false by (intros; apply Hfalse; lia). cbn [bind].
  rewrite snake_up_false by (intros; apply Hfalse; lia). cbn [bind].
  destruct (ao =? al) eqn:Ea.
  { apply Z.eqb_eq in Ea.
    destruct (mark_ok 2 (Z.to_nat (bl - bo)) (flags c) bo bl
                ltac:(lia) ltac:(lia) ltac:(lia)) as (fl' & E & Hl & Hrd).
    rewrite E. cbn [bind]. eexists. split; [reflexivity|].
    cbn [set_flags flags max]. split; [exact Hs|]. split; [reflexivity|].
    split; [exact Hl|]. intros i Hi. rewrite Hrd by lia.
    destruct ((bo <=? i) && (i <? bl)) eqn:Ei.
    - apply andb_true_iff in Ei. destruct Ei as [E1 E2].
      apply Z.leb_le in E1. apply Z.ltb_lt in E2.
      rewrite (land_lor_other _ 2 1) by reflexivity.
      pose proof (land_lor_same (rd (flags c) i) 2 ltac:(lia)).
      split; split; intros H0; try tauto; try lia; try (split; [tauto|lia]).
    - apply andb_false_iff in Ei.
      assert (~ bo <= i < bl)
        by (destruct Ei as [E1|E1];
            [apply Z.leb_gt in E1|apply Z.ltb_ge in E1]; lia).
      split; split; intros H0; try tauto; try lia; try (split; [tauto|lia]). }
  apply Z.eqb_neq in Ea.
  destruct (bo =? bl) eqn:Eb.
  { apply Z.eqb_eq in Eb.
    destruct (mark_ok 1 (Z.to_nat (al - ao)) (flags c) ao al
                ltac:(lia) ltac:(lia) ltac:(lia)) as (fl' & E & Hl & Hrd).
    rewrite E. cbn [bind]. eexists. split; [reflexivity|].
    cbn [set_flags flags max]. split; [exact Hs|]. split; [reflexivity|].
    split; [exact Hl|]. intros i Hi. rewrite Hrd by lia.
    destruct ((ao <=? i) && (i <? al)) eqn:Ei.
    - apply andb_true_iff in Ei. destruct Ei as [E1 E2].
      apply Z.leb_le in E1. apply Z.ltb_lt in E2.
      rewrite (land_lor_other _ 1 2) by reflexivity.
      pose proof (land_lor_same (rd (flags c) i) 1 ltac:(lia)).
      split; split; intros H0; try tauto; try lia; try (split; [tauto|lia]).
    - apply andb_false_iff in Ei.
      assert (~ ao <= i < al)
        by (destruct Ei as [E1|E1];
            [apply Z.leb_gt in E1|apply Z.ltb_ge in E1]; lia).
      split; split; intros H0; try tauto; try lia; try (split; [tauto|lia]). }
  apply Z.eqb_neq in Eb.
  assert (Heq : forall i j, ao <= i < al -> bo <= j < bl ->
                  Equal data i j = Ok ((fun _ _ => false) i j))
    by (intros; apply Hfalse; lia).
  pose proof (maxd_bound (al - ao + bl - bo) (n + m) ltac:(lia) ltac:(lia))
    as Hmaxd.
  destruct (findMiddleSnake_refine data (fun _ _ => false) ao bo al bl
              (max c) (flags c) Heq ltac:(lia) c Hs eq_refl eq_refl
              ltac:(lia))
    as [(c1 & d & k & Hd & Hmeet & E & Halloc & _)|(_ & Hquiet)].
  2:{ exfalso.
      destruct (some_round_meets data (fun _ _ => false) ao bo al bl
                  Heq ltac:(lia) ltac:(lia)) as (d & Hd & Hnq).
      apply Hnq. apply Hquiet. exact Hd. }
  rewrite E. cbn [bind].
  destruct (disjoint_meets data ao bo al bl ltac:(intros; apply Hfalse; lia)
              ltac:(lia) ltac:(lia) d k Hmeet Hd) as (Hx & Hy & Hsum).
  set (x := FW data ao bo al bl d k) in *.
  destruct (allocated_sized _ _ _ Halloc) as [Hs1 Hm1].
  destruct Halloc as (_ & Hfl1 & _).
  destruct (IH c1 ao bo x (x - k) ltac:(lia) ltac:(lia) ltac:(lia) ltac:(lia)
              Hs1 ltac:(lia) ltac:(rewrite Hfl1; lia) ltac:(rewrite Hfl1; lia)
              ltac:(lia))
    as (c2 & E2 & Hs2 & Hm2 & Hl2 & Hrd2).
  rewrite E2. cbn [bind].
  destruct (IH c2 x (x - k) al bl ltac:(lia) ltac:(lia) ltac:(lia) ltac:(lia)
              Hs2 ltac:(lia) ltac:(rewrite Hl2, Hfl1; lia)
              ltac:(rewrite Hl2, Hfl1; lia) ltac:(lia))
    as (c3 & E3 & Hs3 & Hm3 & Hl3 & Hrd3).
  exists c3. split; [exact E3|]. split; [exact Hs3|].
  split; [congruence|]. split; [congruence|].
  intros i Hi. destruct (Hrd3 i Hi) as [R1 R2].
  destruct (Hrd2 i Hi) as [Q1 Q2]. rewrite Hfl1 in Q1, Q2.
  split; [rewrite R1, Q1|rewrite R2, Q2]; split; intros H0;
    repeat split; try tauto; lia.
Qed.

(** X8. Two non-empty sequences without a pair of equal elements: [Diff]
    returns one change that deletes all of the first sequence and inserts
    all of the second. *)
Theorem Diff_disjoint (data : Interface) :
  0 < N data -> 0 < M data ->
  (forall i j, 0 <= i < N data -> 0 <= j < M data ->
     Equal data i j = Ok false) ->
  Diff data = Ok [mkChange 0 0 (N data) (M data)].
Proof.
  intros HN HM Hfalse. unfold Diff. cbv zeta.
  assert (Hfl :
    (if N data >? M data then make (N data) else make (M data))
    = Ok (repeat 0 (Z.to_nat (Z.max (N data) (M data))))).
  { destruct (N data >? M data) eqn:Eg; rewrite Z.gtb_ltb in Eg;
      [apply Z.ltb_lt in Eg|apply Z.ltb_ge in Eg];
      rewrite make_ok by lia; do 3 f_equal; lia. }
  rewrite Hfl. cbn [bind].
  set (fl := repeat 0 (Z.to_nat (Z.max (N data) (M data)))).
  assert (Lfl : len fl = Z.max (N data) (M data))
    by (unfold fl; rewrite len_repeat; lia).
  destruct (compare_disjoint data (N data) (M data) 0 (N data) 0 (M data)
              ltac:(lia) ltac:(lia) ltac:(lia) ltac:(lia) Hfalse
              (Z.to_nat (N data + M data + 1))
              (mkContext fl (N data + M data + 1) None None)
              0 0 (N data) (M data) ltac:(lia) ltac:(lia) ltac:(lia)
              ltac:(lia) ltac:(left; split; reflexivity)
              ltac:(cbn [max]; lia) ltac:(cbn [flags]; lia)
              ltac:(cbn [flags]; lia) ltac:(lia))
    as (c' & E & _ & _ & Hl & Hrd).
  rewrite E. cbn [bind]. cbn [flags] in Hl, Hrd. unfold result.
  rewrite (result_block (flags c') (N data) (M data) ltac:(lia) ltac:(lia)
             0 (N data) (M data) 0); try lia.
  - now replace (0 <? N data + M data) with true
      by (symmetry; apply Z.ltb_lt; lia).
  - intros i Hi. destruct (Hrd i ltac:(lia)) as [R _].
    unfold fl in R. rewrite rd_repeat in R. split; intros H0.
    + intros H1. apply R in H1. tauto.
    + lia.
  - intros j Hj. destruct (Hrd j ltac:(lia)) as [_ R].
    unfold fl in R. rewrite rd_repeat in R. split; intros H0.
    + intros H1. apply R in H1. tauto.
    + lia.
Qed.

Lemma Diff_disjoint_witness :
  Diff (Ints [0; 1; 2; 3; 4; 5; 6; 7; 8; 9] [10; 11; 12; 13; 14])
  = Ok [mkChange 0 0
          (N (Ints [0; 1; 2; 3; 4; 5; 6; 7; 8; 9] [10; 11; 12; 13; 14]))
          (M (Ints [0; 1; 2; 3; 4; 5; 6; 7; 8; 9] [10; 11; 12; 13; 14]))].
Proof.
  apply (Diff_disjoint (Ints [0; 1; 2; 3; 4; 5; 6; 7; 8; 9]
                             [10; 11; 12; 13; 14])).
  - vm_compute. reflexivity.
  - vm_compute. reflexivity.
  - intros i j Hi Hj. rewrite Ints_Equal by exact Hi || exact Hj.
    f_equal. apply Z.eqb_neq.
    change (N (Ints [0; 1; 2; 3; 4; 5; 6; 7; 8; 9] [10; 11; 12; 13; 14]))
      with 10 in Hi.
    change (M (Ints [0; 1; 2; 3; 4; 5; 6; 7; 8; 9] [10; 11; 12; 13; 14]))
      with 5 in Hj.
    assert (Ei : i = 0 \/ i = 1 \/ i = 2 \/ i = 3 \/ i = 4 \/ i = 5 \/
                 i = 6 \/ i = 7 \/ i = 8 \/ i = 9) by lia.
    assert (Ej : j = 0 \/ j = 1 \/ j = 2 \/ j = 3 \/ j = 4) by lia.
    repeat (destruct Ei as [->|Ei]); try subst i;
      repeat (destruct Ej as [->|Ej]); try subst j; discriminate.
Defined.

(** ** One replaced block *)

(** A call of [compare] is the call on the rectangle its two loops trim
    to. *)
Lemma compare_trimmed (data : Interface) (fuel : nat) (c : context)
    (ao bo al bl ao' bo' al' bl' : Z) :
  snake_down data (Z.to_nat (al - ao)) al bl ao bo = Ok (ao', bo') ->
  snake_up data (Z.to_nat (al - ao')) ao' bo' al bl = Ok (al', bl') ->
  snake_down data (Z.to_nat (al' - ao')) al' bl' ao' bo' = Ok (ao', bo') ->
  snake_up data (Z.to_nat (al' - ao')) ao' bo' al' bl' = Ok (al', bl') ->
  compare data (S fuel) c ao bo al bl
  = compare data (S fuel) c ao' bo' al' bl'.
Proof.
  intros E1 E2 E3 E4. cbn [compare].
  rewrite E1. cbn [bind]. rewrite E2. cbn [bind].
  rewrite E3. cbn [bind]. rewrite E4. reflexivity.
Qed.

Lemma rd_In (l : list Z) (i : Z) : 0 <= i < len l -> In (rd l i) l.
Proof. intros H. unfold rd. apply nth_In. unfold len in H. lia. Qed.

Lemma len_pos (l : list Z) : l <> [] -> 0 < len l.
Proof.
  destruct l; [congruence|]. intros _. unfold len. cbn [List.length]. lia.
Qed.

(** X9. Two sequences that differ in one block, [da] in the first and [db]
    in the second, both non-empty and without a common element: [Diff]
    returns the one change that replaces [da] by [db], and applying it to
    the first sequence gives the second. *)
Theorem Diff_replaced_block (pre da db suf : list Z) :
  da <> [] -> db <> [] ->
  (forall x y, In x da -> In y db -> x <> y) ->
  Diff (Ints (pre ++ da ++ suf) (pre ++ db ++ suf))
    = Ok [mkChange (len pre) (len pre) (len da) (len db)] /\
  apply_changes [mkChange (len pre) (len pre) (len da) (len db)]
    (pre ++ da ++ suf) (pre ++ db ++ suf) = pre ++ db ++ suf.
Proof.
  intros Hda Hdb Hdis.
  set (a := pre ++ da ++ suf). set (b := pre ++ db ++ suf).
  pose proof (len_nonneg pre) as HP. pose proof (len_nonneg suf) as HS.
  pose proof (len_pos da Hda) as HK. pose proof (len_pos db Hdb) as HL.
  assert (Ea : len a = len pre + len da + len suf)
    by (unfold a; rewrite !len_app; lia).
  assert (Eb : len b = len pre + len db + len suf)
    by (unfold b; rewrite !len_app; lia).
  assert (Hpre : forall i, 0 <= i < len pre -> rd a i = rd b i).
  { intros i Hi. unfold a, b. now rewrite !rd_app_l by lia. }
  assert (Hrest : forall i, len pre + len da <= i < len a ->
                    rd a i = rd b (i - len da + len db)).
  { intros i Hi. unfold a, b.
    rewrite rd_app_r by lia. rewrite rd_app_r by lia.
    rewrite (rd_app_r pre) by lia. rewrite rd_app_r by lia. f_equal. lia. }
  assert (Hne : forall i j, len pre <= i < len pre + len da ->
                  len pre <= j < len pre + len db -> rd a i <> rd b j).
  { intros i j Hi Hj. unfold a, b.
    rewrite rd_app_r by lia. rewrite rd_app_l by lia.
    rewrite (rd_app_r pre) by lia. rewrite rd_app_l by lia.
    apply Hdis; apply rd_In; lia. }
  assert (Hab : forall i j, 0 <= i < len a -> 0 <= j < len b ->
                  Equal (Ints a b) i j = Ok (rd a i =? rd b j))
    by (intros; now apply Ints_Equal).
  split; [|apply apply_one_change; try lia; trivial].
  (* the two loops of [compare] trim exactly [pre] and [suf] *)
  destruct (snake_down_spec (Ints a b) (fun i j => rd a i =? rd b j)
              0 0 (len a) (len b) Hab (Z.to_nat (len a - 0)) 0 0
              ltac:(lia) ltac:(lia) ltac:(lia))
    as (j & Hj & Ed & Hin & Hall & Hend).
  cbn [Z.add] in *. cbn beta in *.
  assert (j = len pre).
  { destruct (Z.lt_trichotomy j (len pre)) as [H|[H|H]]; trivial; exfalso.
    - specialize (Hend ltac:(lia) ltac:(lia)). apply Z.eqb_neq in Hend.
      apply Hend. apply Hpre. lia.
    - specialize (Hall (len pre) ltac:(lia)). apply Z.eqb_eq in Hall.
      apply (Hne (len pre) (len pre)); trivial; lia. }
  subst j. clear Hin Hall Hend.
  destruct (snake_up_spec (Ints a b) (fun i j => rd a i =? rd b j)
              (len pre) (len pre) (len a) (len b)
              ltac:(intros; apply Hab; lia)
              (Z.to_nat (len a - len pre)) (len a) (len b)
              ltac:(lia) ltac:(lia) ltac:(lia))
    as (t & Ht & Eu & Hin & Hall & Hend).
  cbn beta in *.
  assert (t = len suf).
  { destruct (Z.lt_trichotomy t (len suf)) as [H|[H|H]]; trivial; exfalso.
    - specialize (Hend ltac:(lia) ltac:(lia)). apply Z.eqb_neq in Hend.
      apply Hend. rewrite Hrest by lia. f_equal. lia.
    - specialize (Hall (len suf) ltac:(lia)). apply Z.eqb_eq in Hall.
      apply (Hne (len a - len suf - 1) (len b - len suf - 1)); trivial; lia. }
  subst t. clear Hin Hall Hend.
  replace (len a - len suf) with (len pre + len da) in Eu by lia.
  replace (len b - len suf) with (len pre + len db) in Eu by lia.
  assert (Hfalse : forall i j, len pre <= i < len pre + len da ->
                     len pre <= j < len pre + len db ->
                     Equal (Ints a b) i j = Ok false).
  { intros i j Hi' Hj'. rewrite Hab by lia. f_equal. apply Z.eqb_neq.
    now apply Hne. }
  (* the run *)
  unfold Diff. cbv zeta. cbn [N M Ints].
  assert (Hfl :
    (if len a >? len b then make (len a) else make (len b))
    = Ok (repeat 0 (Z.to_nat (Z.max (len a) (len b))))).
  { destruct (len a >? len b) eqn:Eg; rewrite Z.gtb_ltb in Eg;
      [apply Z.ltb_lt in Eg|apply Z.ltb_ge in Eg];
      rewrite make_ok by lia; do 3 f_equal; lia. }
  rewrite Hfl. cbn [bind].
  set (fl := repeat 0 (Z.to_nat (Z.max (len a) (len b)))).
  assert (Lfl : len fl = Z.max (len a) (len b))
    by (unfold fl; rewrite len_repeat; lia).
  replace (Z.to_nat (len a + len b + 1))
    with (S (Z.to_nat (len a + len b))) by lia.
  rewrite (compare_trimmed (Ints a b) _ _ 0 0 (len a) (len b)
             (len pre) (len pre) (len pre + len da) (len pre + len db)
             Ed Eu
             ltac:(apply snake_down_false; intros; apply Hfalse; lia)
             ltac:(apply snake_up_false; intros; apply Hfalse; lia)).
  destruct (compare_disjoint (Ints a b) (len a) (len b)
              (len pre) (len pre + len da) (len pre) (len pre + len db)
              ltac:(lia) ltac:(lia) ltac:(lia) ltac:(lia) Hfalse
              (S (Z.to_nat (len a + len b)))
              (mkContext fl (len a + len b + 1) None None)
              (len pre) (len pre) (len pre + len da) (len pre + len db)
              ltac:(lia) ltac:(lia) ltac:(lia) ltac:(lia)
              ltac:(left; split; reflexivity)
              ltac:(cbn [max]; lia) ltac:(cbn [flags]; lia)
              ltac:(cbn [flags]; lia) ltac:(lia))
    as (c' & E & _ & _ & Hl & Hrd).
  rewrite E. cbn [bind]. cbn [flags] in Hl, Hrd. unfold result.
  rewrite (result_block (flags c') (len a) (len b) ltac:(lia) ltac:(lia)
             (len pre) (len da) (len db) (len suf)); try lia.
  - now replace (0 <? len da + len db) with true
      by (symmetry; apply Z.ltb_lt; lia).
  - intros i Hi. destruct (Hrd i ltac:(lia)) as [R _].
    unfold fl in R. rewrite rd_repeat in R. split; intros H0.
    + intros H1. apply R in H1. tauto.
    + apply R. split; [reflexivity|exact H0].
  - intros i Hi. destruct (Hrd i ltac:(lia)) as [_ R].
    unfold fl in R. rewrite rd_repeat in R. split; intros H0.
    + intros H1. apply R in H1. tauto.
    + apply R. split; [reflexivity|exact H0].
Qed.

Lemma Diff_replaced_block_witness :
  Diff (Ints ([1; 2] ++ [3; 4; 3] ++ [5; 6]) ([1; 2] ++ [7; 8] ++ [5; 6]))
    = Ok [mkChange (len [1; 2]) (len [1; 2]) (len [3; 4; 3]) (len [7; 8])] /\
  apply_changes
    [mkChange (len [1; 2]) (len [1; 2]) (len [3; 4; 3]) (len [7; 8])]
    ([1; 2] ++ [3; 4; 3] ++ [5; 6]) ([1; 2] ++ [7; 8] ++ [5; 6])
    = [1; 2] ++ [7; 8] ++ [5; 6].
Proof.
  apply (Diff_replaced_block [1; 2] [3; 4; 3] [7; 8] [5; 6]).
  - discriminate.
  - discriminate.
  - intros x y Hx Hy. cbn [In] in Hx, Hy.
    destruct Hx as [<-|[<-|[<-|[]]]]; destruct Hy as [<-|[<-|[]]];
      discriminate.
Defined.

(** ** The earlier version and the later one *)

Section Versions.

Variables a b : list Z.

Lemma V1_snake_down : forall fuel alimit blimit x y,
  V1.snake_down a b fuel alimit blimit x y
  = snake_down (Ints a b) fuel alimit blimit x y.
Proof.
  induction fuel as [|fuel IH]; intros; cbn [V1.snake_down snake_down];
    (destruct ((x <? alimit) && (y <? blimit)); [|reflexivity]);
    cbn [Ints Equal];
    (destruct (index a x); cbn [bind]; [|reflexivity|reflexivity]);
    (destruct (index b y); cbn [bind]; [|reflexivity|reflexivity]);
    (destruct (_ =? _); [|reflexivity]).
  - reflexivity.
  - apply IH.
Qed.

Lemma V1_snake_up : forall fuel aoffset boffset x y,
  V1.snake_up a b fuel aoffset boffset x y
  = snake_up (Ints a b) fuel aoffset boffset x y.
Proof.
  induction fuel as [|fuel IH]; intros; cbn [V1.snake_up snake_up];
    (destruct ((x >? aoffset) && (y >? boffset)); [|reflexivity]);
    cbn [Ints Equal];
    (destruct (index a (x - 1)); cbn [bind]; [|reflexivity|reflexivity]);
    (destruct (index b (y - 1)); cbn [bind]; [|reflexivity|reflexivity]);
    (destruct (_ =? _); [|reflexivity]).
  - reflexivity.
  - apply IH.
Qed.

Ltac same_bind :=
  match goal with
  | |- bind ?e _ = bind ?e _ =>
      destruct e; cbn [bind]; [|reflexivity|reflexivity]
  end.

Lemma V1_forward_step (aoffset boffset alimit blimit : Z) c d k :
  V1.forward_step a b aoffset boffset alimit blimit c d k
  = forward_step (Ints a b) aoffset boffset alimit blimit c d k.
Proof.
  unfold V1.forward_step, forward_step. cbv zeta.
  same_bind. same_bind. now rewrite V1_snake_down.
Qed.

Lemma V1_reverse_step (aoffset boffset alimit blimit : Z) c d k :
  V1.reverse_step a b aoffset boffset alimit blimit c d k
  = reverse_step (Ints a b) aoffset boffset alimit blimit c d k.
Proof.
  unfold V1.reverse_step, reverse_step. cbv zeta.
  same_bind. same_bind. now rewrite V1_snake_up.
Qed.

Lemma k_loop_ext
    (step step' : context -> Z -> Z -> outcome (context * option (Z * Z))) :
  (forall c d k, step c d k = step' c d k) ->
  forall fuel mid c d k,
    k_loop step fuel mid c d k = k_loop step' fuel mid c d k.
Proof.
  intros Hstep.
  induction fuel as [|fuel IH]; intros; cbn [k_loop];
    (destruct (k <=? mid + d); [|reflexivity]);
    rewrite Hstep;
    (destruct (step' c d k) as [[c' [p|]]| |]; cbn [bind]; try reflexivity).
  apply IH.
Qed.

Lemma V1_d_loop (aoffset boffset alimit blimit : Z) : forall fuel c d,
  V1.d_loop a b aoffset boffset alimit blimit fuel c d
  = d_loop (Ints a b) aoffset boffset alimit blimit fuel c d.
Proof.
  induction fuel as [|fuel IH]; intros; cbn [V1.d_loop d_loop];
    (destruct (d <=? _); [|reflexivity]);
    rewrite (k_loop_ext _ _
               (V1_forward_step aoffset boffset alimit blimit));
    (destruct (k_loop _ _ _ c d _) as [[c' [p|]]| |]; cbn [bind];
       try reflexivity);
    rewrite (k_loop_ext _ _
               (V1_reverse_step aoffset boffset alimit blimit));
    (destruct (k_loop _ _ _ c' d _) as [[c'' [p|]]| |]; cbn [bind];
       try reflexivity).
  apply IH.
Qed.

Lemma V1_findMiddleSnake (aoffset boffset alimit blimit : Z) c :
  V1.findMiddleSnake a b aoffset boffset alimit blimit c
  = findMiddleSnake (Ints a b) aoffset boffset alimit blimit c.
Proof.
  unfold V1.findMiddleSnake, findMiddleSnake.
  same_bind. same_bind. same_bind. apply V1_d_loop.
Qed.

Lemma V1_compare : forall fuel c aoffset boffset alimit blimit,
  V1.compare a b fuel c aoffset boffset alimit blimit
  = compare (Ints a b) fuel c aoffset boffset alimit blimit.
Proof.
  induction fuel as [|fuel IH]; intros; cbn [V1.compare compare];
    [reflexivity|].
  rewrite V1_snake_down.
  destruct (snake_down _ _ _ _ _ _) as [[ao bo]| |]; cbn [bind];
    try reflexivity.
  rewrite V1_snake_up.
  destruct (snake_up _ _ _ _ _ _) as [[al bl]| |]; cbn [bind];
    try reflexivity.
  destruct (ao =? al); [reflexivity|].
  destruct (bo =? bl); [reflexivity|].
  rewrite V1_findMiddleSnake.
  destruct (findMiddleSnake _ _ _ _ _ _) as [[c1 [x y]]| |]; cbn [bind];
    try reflexivity.
  rewrite IH.
  destruct (compare _ _ _ _ _ _ _) as [c2| |]; cbn [bind]; try reflexivity.
  apply IH.
Qed.

End Versions.

(** X10. The earlier [Diff(a, b []int)] and the later [Diff] on
    [&Ints{a, b}] agree on every input: they return the same list, or end
    in the same panic. *)
Theorem V1_Diff_agrees (a b : list Z) : V1.Diff a b = Diff (Ints a b).
Proof.
  unfold V1.Diff, Diff. cbv zeta. cbn [N M Ints].
  destruct (if len a >? len b then make (len a) else make (len b));
    cbn [bind]; try reflexivity.
  rewrite V1_compare.
  destruct (compare _ _ _ _ _ _ _); cbn [bind]; reflexivity.
Qed.

(** ** The length of what a script produces *)

Lemma path_apply_len (a b : list Z) (cs : list Change) : forall x y,
  0 <= x -> 0 <= y -> path (len a) (len b) x y cs ->
  len (apply_from x cs a b) = len b - y.
Proof.
  induction cs as [|c cs IH]; intros x y Hx Hy H; cbn [path apply_from] in *.
  - rewrite len_skipn by lia. lia.
  - destruct H as (H1 & H2 & H3 & H4 & H5 & H6 & H7 & H).
    rewrite !len_app.
    rewrite (IH (A c + Del c) (B c + Ins c) ltac:(lia) ltac:(lia) H).
    rewrite (len_firstn (A c - x)) by (rewrite len_skipn; lia).
    rewrite (len_firstn (Ins c)) by (rewrite len_skipn; lia).
    lia.
Qed.

(** X11. Applying a list that [Diff] returns for two int sequences to the
    first sequence gives a sequence as long as the second, whatever its
    elements are. *)
Theorem Diff_script_length (a b : list Z) (cs : list Change) :
  Diff (Ints a b) = Ok cs -> len (apply_changes cs a b) = len b.
Proof.
  intros H. unfold apply_changes.
  destruct (Diff_parts (Ints a b) cs (len_nonneg a) (len_nonneg b) H)
    as (c' & _ & Hl & Er).
  cbn [N M Ints] in Hl, Er. unfold result in Er.
  destruct (result_loop_reads (flags c') (len a) (len b)
              ltac:(lia) ltac:(lia) (Z.to_nat (len a + len b)) 0 0 []
              ltac:(pose proof (len_nonneg a); lia)
              ltac:(pose proof (len_nonneg b); lia) ltac:(lia))
    as (cs' & Er' & Hr).
  rewrite Er in Er'. inversion Er'. subst cs'.
  apply reads_path in Hr.
  rewrite (path_apply_len a b cs 0 0 ltac:(lia) ltac:(lia) Hr). lia.
Qed.

Lemma Diff_script_length_witness :
  len (apply_changes [mkChange 0 0 0 2; mkChange 2 4 2 0; mkChange 5 5 1 0]
         [1; 1; 0; 0; 1; 0] [0; 1; 1; 1; 0])
  = len [0; 1; 1; 1; 0].
Proof.
  apply (Diff_script_length [1; 1; 0; 0; 1; 0] [0; 1; 1; 1; 0]).
  vm_compute. reflexivity.
Defined.

(** ** The flags as bytes

    The flags are bytes in the source; the only values a run gives them are
    0, 1, 2 and 3. *)

Lemma lor_flag (v bit : Z) :
  0 <= v <= 3 -> bit = 1 \/ bit = 2 -> 0 <= Z.lor v bit <= 3.
Proof.
  intros Hv Hb.
  assert (Ev : v = 0 \/ v = 1 \/ v = 2 \/ v = 3) by lia.
  destruct Hb as [->| ->]; destruct Ev as [->|[->|[->| ->]]]; cbn; lia.
Qed.

Lemma mark_range (bit : Z) : forall fuel fl lo hi fl',
  bit = 1 \/ bit = 2 ->
  mark fuel bit fl lo hi = Ok fl' ->
  (forall i, 0 <= i -> 0 <= rd fl i <= 3) ->
  forall i, 0 <= i -> 0 <= rd fl' i <= 3.
Proof.
  induction fuel as [|fuel IH]; intros fl lo hi fl' Hb H Hr;
    cbn [mark] in H;
    (destruct (lo <? hi); [|inversion H; subst; exact Hr]);
    inv_bind H; inv_bind H; [discriminate|].
  apply (IH _ _ _ _ Hb H).
  apply index_inv in E. apply store_inv in E0. destruct E0 as [Hlo ->].
  intros i Hi. destruct (Z.eq_dec i lo) as [->|Hne].
  - rewrite rd_update_same by lia. subst v. apply lor_flag; trivial.
    apply Hr. lia.
  - rewrite rd_update_other by lia. now apply Hr.
Qed.

(** X12. A run of [compare] keeps every flag within 0..3: no flag byte can
    overflow, and no bit other than 1 and 2 is ever set. *)
Theorem compare_flags_stay_bytes (data : Interface) :
  forall fuel c aoffset boffset alimit blimit c',
    sized c ->
    (forall i, 0 <= i -> 0 <= rd (flags c) i <= 3) ->
    compare data fuel c aoffset boffset alimit blimit = Ok c' ->
    forall i, 0 <= i -> 0 <= rd (flags c') i <= 3.
Proof.
  induction fuel as [|fuel IH]; intros c ao bo al bl c' Hs Hr H;
    [discriminate H|].
  cbn [compare] in H.
  inv_bind H. destruct v as [ao' bo']. inv_bind H. destruct v as [al' bl'].
  destruct (ao' =? al').
  { inv_bind H. inversion H; subst c'. cbn [set_flags flags].
    exact (mark_range 2 _ _ _ _ _ ltac:(now right) E1 Hr). }
  destruct (bo' =? bl').
  { inv_bind H. inversion H; subst c'. cbn [set_flags flags].
    exact (mark_range 1 _ _ _ _ _ ltac:(now left) E1 Hr). }
  inv_bind H. destruct v as [c1 [x y]]. inv_bind H. rename v into c2.
  pose proof (findMiddleSnake_allocated _ _ _ _ _ _ _ _ Hs E1) as Hal.
  destruct (allocated_sized _ _ _ Hal) as [Hs1 _].
  destruct Hal as (_ & Hfl1 & _).
  destruct (compare_sized data _ _ _ _ _ _ _ Hs1 E2) as (Hs2 & _ & _).
  apply (IH _ _ _ _ _ _ Hs2 (IH _ _ _ _ _ _ Hs1
           ltac:(rewrite Hfl1; exact Hr) E2) H).
Qed.

Lemma compare_flags_stay_bytes_witness :
  0 <= rd (flags (mkContext [3; 3; 2; 0] 6
                    (Some [0; 0; 0; 0; 0; 0; 1; 2; 3; 0; 0; 0])
                    (Some [0; 0; 0; 0; 0; 1; 1; 2; 1; 0; 0; 0]))) 1 <= 3.
Proof.
  apply (compare_flags_stay_bytes (Ints [1; 2] [2; 3; 4]) 6
           (initial (Ints [1; 2] [2; 3; 4]) [0; 0; 0; 0]) 0 0 2 3).
  - left. split; reflexivity.
  - intros i Hi. cbn [initial flags]. unfold rd.
    destruct (Z.to_nat i) as [|[|[|[|[|k]]]]]; cbn; lia.
  - vm_compute. reflexivity.
  - lia.
Defined.

(** ** The tests *)

(** X13. Run in the order of the source, [TestDiffAB] and then
    [TestDiffBA] report no failure.  [TestDiffBA] leaves the table of test
    cases changed: it has overwritten the expected list of the last case,
    and [TestDiffAB] run on the table it leaves reports three failures for
    that case. *)
Theorem tests_depend_on_order :
  exists tbl,
    Tests.TestDiffAB Tests.tests = Ok (Tests.tests, []) /\
    Tests.TestDiffBA Tests.tests = Ok (tbl, []) /\
    Tests.TestDiffAB tbl
    = Ok (tbl,
          [Tests.WrongChange "paper fig. 1"
             (mkChange 0 0 2 0) (mkChange 0 0 1 1);
           Tests.WrongChange "paper fig. 1"
             (mkChange 3 1 1 0) (mkChange 2 2 1 0);
           Tests.WrongChange "paper fig. 1"
             (mkChange 5 2 0 1) (mkChange 5 4 1 0)]).
Proof.
  eexists. split; [vm_compute; reflexivity|].
  split; vm_compute; reflexivity.
Qed.

(** ** What the buffers hold after a call *)

Lemma same_outside_refl (w : Z) (c : context) : same_outside w c c.
Proof. split; [|split]; trivial. intros; split; reflexivity. Qed.

Lemma same_outside_trans (w : Z) (c1 c2 c3 : context) :
  same_outside w c1 c2 -> same_outside w c2 c3 -> same_outside w c1 c3.
Proof.
  intros (M1 & F1 & H1) (M2 & F2 & H2).
  split; [congruence|]. split; [congruence|].
  intros i Hi Ho. destruct (H1 i Hi Ho) as [A1 B1].
  rewrite M1 in H2. destruct (H2 i Hi Ho) as [A2 B2].
  split; congruence.
Qed.

Lemma same_outside_mono (w w' : Z) (c c' : context) :
  w <= w' -> same_outside w c c' -> same_outside w' c c'.
Proof.
  intros Hw (M1 & F1 & H1). split; [|split]; trivial.
  intros i Hi Ho. apply H1; trivial. lia.
Qed.

Section Written.

Variable data : Interface.
Variables aoffset boffset alimit blimit : Z.

Local Abbreviation fmid := (aoffset - boffset).
Local Abbreviation rmid := (alimit - blimit).
Local Abbreviation maxd :=
  (Z.quot (alimit - aoffset + blimit - boffset + 2) 2).
Local Abbreviation at_return := (meets_at aoffset boffset alimit blimit).

(** A turn of the forward loop stores one entry of the forward buffer, at
    the index of its diagonal. *)
Lemma forward_step_outside c d k c' r :
  forward_step data aoffset boffset alimit blimit c d k = Ok (c', r) ->
  fmid - d <= k <= fmid + d -> same_outside d c c'.
Proof.
  intros H Hk. unfold forward_step in H.
  inv_bind H. inv_bind H. inv_bind H. destruct v1 as [x y]. inv_bind H.
  apply store_inv in E2. destruct E2 as [Hr ->].
  assert (Hc : same_outside d c
                 (set_forward c
                    (update (slice (forward c))
                       (Z.to_nat (max c - fmid + k)) x))).
  { split; [reflexivity|]. split; [reflexivity|].
    intros i Hi Ho. cbn [set_forward forward reverse slice].
    split; [|reflexivity]. apply rd_update_other; lia. }
  destruct (_ && _ && _) in H.
  - inv_bind H. inv_bind H. destruct (_ <=? _) in H; inversion H; subst; exact Hc.
  - inversion H; subst; exact Hc.
Qed.

Lemma reverse_step_outside c d k c' r :
  reverse_step data aoffset boffset alimit blimit c d k = Ok (c', r) ->
  rmid - d <= k <= rmid + d -> same_outside d c c'.
Proof.
  intros H Hk. unfold reverse_step in H.
  inv_bind H. inv_bind H. inv_bind H. destruct v1 as [x y]. inv_bind H.
  apply store_inv in E2. destruct E2 as [Hr ->].
  assert (Hc : same_outside d c
                 (set_reverse c
                    (update (slice (reverse c))
                       (Z.to_nat (max c - rmid + k)) x))).
  { split; [reflexivity|]. split; [reflexivity|].
    intros i Hi Ho. cbn [set_reverse forward reverse slice].
    split; [reflexivity|]. apply rd_update_other; lia. }
  destruct (_ && _ && _) in H.
  - inv_bind H. inv_bind H.
    destruct (_ <=? _) in H; inversion H; subst; exact Hc.
  - inversion H; subst; exact Hc.
Qed.

Lemma k_loop_outside step (mid d : Z) :
  (forall c k c' r, step c d k = Ok (c', r) -> mid - d <= k <= mid + d ->
                    same_outside d c c') ->
  forall fuel c k c' r,
    mid - d <= k -> k_loop step fuel mid c d k = Ok (c', r) ->
    same_outside d c c'.
Proof.
  intros Hstep.
  induction fuel as [|fuel IH]; intros c k c' r Hk H; cbn [k_loop] in H;
    (destruct (k <=? mid + d) eqn:E;
       [apply Z.leb_le in E|inversion H; subst; apply same_outside_refl]);
    inv_bind H; destruct v as [c1 [p|]];
    try (inversion H; subst; eapply Hstep; [eassumption|lia]).
  - discriminate H.
  - apply same_outside_trans with c1; [eapply Hstep; [eassumption|lia]|].
    apply (IH c1 (k + 2) c' r ltac:(lia) H).
Qed.

Lemma d_loop_outside : forall fuel c d c' p,
  0 <= d ->
  d_loop data aoffset boffset alimit blimit fuel c d = Ok (c', p) ->
  same_outside maxd c c'.
Proof.
  assert (HF : forall d fuel c c' r, 0 <= d <= maxd ->
    k_loop (forward_step data aoffset boffset alimit blimit) fuel fmid c d
      (fmid - d) = Ok (c', r) -> same_outside maxd c c').
  { intros d fuel c c' r Hd H. apply same_outside_mono with d; [lia|].
    refine (k_loop_outside _ fmid d _ fuel c (fmid - d) c' r _ H); [|lia].
    intros; eapply forward_step_outside; eassumption. }
  assert (HR : forall d fuel c c' r, 0 <= d <= maxd ->
    k_loop (reverse_step data aoffset boffset alimit blimit) fuel rmid c d
      (rmid - d) = Ok (c', r) -> same_outside maxd c c').
  { intros d fuel c c' r Hd H. apply same_outside_mono with d; [lia|].
    refine (k_loop_outside _ rmid d _ fuel c (rmid - d) c' r _ H); [|lia].
    intros; eapply reverse_step_outside; eassumption. }
  induction fuel as [|fuel IH]; intros c d c' p Hd H; cbn [d_loop] in H;
    (destruct (d <=? _) eqn:E; [apply Z.leb_le in E|discriminate H]);
    inv_bind H; destruct v as [c1 [q|]];
    try (inversion H; subst; eapply HF; [|eassumption]; lia);
    (assert (H1 : same_outside maxd c c1) by (eapply HF; [|eassumption]; lia));
    inv_bind H; destruct v as [c2 [q|]];
    try (inversion H; subst; apply same_outside_trans with c1; trivial;
         eapply HR; [|eassumption]; lia);
    (assert (H2 : same_outside maxd c1 c2)
       by (eapply HR; [|eassumption]; lia)).
  - discriminate H.
  - apply same_outside_trans with c1; trivial.
    apply same_outside_trans with c2; trivial.
    apply (IH c2 (d + 1) c' p ltac:(lia) H).
Qed.

(** A turn that returns leaves the returned point in the forward buffer,
    and an entry at or before it in the reverse buffer. *)
Lemma forward_step_meets c d k c' p :
  forward_step data aoffset boffset alimit blimit c d k = Ok (c', Some p) ->
  at_return c' p.
Proof.
  intros H. unfold forward_step in H.
  inv_bind H. inv_bind H. inv_bind H. destruct v1 as [x y]. inv_bind H.
  apply store_inv in E2. destruct E2 as [Hr ->].
  destruct (_ && _ && _) in H; [|discriminate H].
  inv_bind H. inv_bind H. apply index_inv in E2, E3.
  destruct (v1 <=? v2) eqn:El; [|discriminate H].
  apply Z.leb_le in El. inversion H; subst c' p. clear H.
  cbn [set_forward forward reverse slice max] in *.
  rewrite rd_update_same in E3 by lia. subst v2.
  unfold meets_at. cbn [fst snd set_forward forward reverse slice max].
  replace (x - (x - k)) with k by lia.
  rewrite rd_update_same by lia. split; [reflexivity|]. now subst v1.
Qed.

Lemma reverse_step_meets c d k c' p :
  reverse_step data aoffset boffset alimit blimit c d k = Ok (c', Some p) ->
  at_return c' p.
Proof.
  intros H. unfold reverse_step in H.
  inv_bind H. inv_bind H. inv_bind H. destruct v1 as [x y]. inv_bind H.
  destruct (_ && _ && _) in H; [|discriminate H].
  inv_bind H. inv_bind H. apply index_inv in E3, E4.
  destruct (v2 <=? v3) eqn:El; [|discriminate H].
  apply Z.leb_le in El. cbn [bind] in H.
  inversion H; subst c' p. clear H.
  unfold meets_at. cbn [fst snd].
  replace (v3 - (v3 - k)) with k by lia.
  cbn [set_reverse forward reverse slice max] in *.
  split; [now subst v3|]. subst. lia.
Qed.

Lemma k_loop_meets step :
  (forall c d k c' p, step c d k = Ok (c', Some p) -> at_return c' p) ->
  forall fuel mid c d k c' p,
    k_loop step fuel mid c d k = Ok (c', Some p) -> at_return c' p.
Proof.
  intros Hstep.
  induction fuel as [|fuel IH]; intros mid c d k c' p H; cbn [k_loop] in H;
    (destruct (k <=? mid + d); [|discriminate H]);
    inv_bind H; destruct v as [c1 [q|]];
    first [ discriminate H
          | inversion H; subst; eapply Hstep; eassumption
          | eapply IH; eassumption ].
Qed.

Lemma d_loop_meets : forall fuel c d c' p,
  d_loop data aoffset boffset alimit blimit fuel c d = Ok (c', p) ->
  at_return c' p.
Proof.
  induction fuel as [|fuel IH]; intros c d c' p H; cbn [d_loop] in H;
    (destruct (d <=? _); [|discriminate H]);
    inv_bind H; destruct v as [c1 [q|]];
    try (inversion H; subst;
         eapply (k_loop_meets _ forward_step_meets); eassumption);
    inv_bind H; destruct v as [c2 [q|]];
    first [ discriminate H
          | inversion H; subst;
            eapply (k_loop_meets _ reverse_step_meets); eassumption
          | eapply IH; eassumption ].
Qed.

End Written.

Lemma rd_nil (i : Z) : rd [] i = 0.
Proof. unfold rd. destruct (Z.to_nat i); reflexivity. Qed.

(** A call of [findMiddleSnake] leaves the returned point in the buffers,
    and writes within [max - maxd .. max + maxd] and at [max + 1] (forward)
    and [max - 1] (reverse) only; buffers that were nil hold zero
    elsewhere. *)
Lemma findMiddleSnake_writes (data : Interface)
    (aoffset boffset alimit blimit : Z) (c c' : context) (p : Z * Z) :
  sized c ->
  findMiddleSnake data aoffset boffset alimit blimit c = Ok (c', p) ->
  meets_at aoffset boffset alimit blimit c' p /\
  forall i, 0 <= i ->
    i < max c - Z.quot (alimit - aoffset + blimit - boffset + 2) 2 \/
    max c + Z.quot (alimit - aoffset + blimit - boffset + 2) 2 < i ->
    (i <> max c + 1 ->
     rd (slice (forward c')) i = rd (slice (forward c)) i) /\
    (i <> max c - 1 ->
     rd (slice (reverse c')) i = rd (slice (reverse c)) i).
Proof.
  intros Hs H. unfold findMiddleSnake in H.
  assert (Hc0 : forall c0,
    (match forward c with
     | None => f <- make (2 * max c) ;; r <- make (2 * max c) ;;
               Ok (mkContext (flags c) (max c) (Some f) (Some r))
     | Some _ => Ok c
     end) = Ok c0 ->
    max c0 = max c /\
    forall i, rd (slice (forward c0)) i = rd (slice (forward c)) i /\
              rd (slice (reverse c0)) i = rd (slice (reverse c)) i).
  { intros c0 H0. destruct Hs as [[Hf Hr]|(f & r & Hf & Hr & _)].
    - rewrite Hf in H0. inv_bind H0. inversion H0; subst c0.
      split; [reflexivity|]. intros i. rewrite Hf, Hr.
      cbn [forward reverse slice]. unfold make in E.
      destruct (2 * max c <? 0); inversion E.
      now rewrite rd_repeat, rd_nil.
    - rewrite Hf in H0. inversion H0; subst c0.
      split; [reflexivity|]. intros; split; reflexivity. }
  inv_bind H. destruct (Hc0 _ eq_refl) as (Hmx & Hsame). clear Hc0.
  inv_bind H. inv_bind H.
  apply store_inv in E0, E1. destruct E0 as [R0 ->]. destruct E1 as [R1 ->].
  cbn [set_forward forward reverse slice max] in *.
  split; [exact (d_loop_meets _ _ _ _ _ _ _ _ _ _ H)|].
  apply d_loop_outside in H; [|lia].
  destruct H as (_ & _ & H).
  cbn [set_reverse set_forward forward reverse slice max] in H.
  intros i Hi Ho. rewrite Hmx in *.
  destruct (H i Hi Ho) as [HF HR].
  destruct (Hsame i) as [SF SR].
  split; intros Hne.
  - rewrite HF, <- SF. apply rd_update_other; lia.
  - rewrite HR, <- SR. apply rd_update_other; lia.
Qed.

(** Buffers that are allocated stay allocated through a run. *)
Lemma compare_not_nil (data : Interface) :
  forall fuel c aoffset boffset alimit blimit c',
    sized c -> forward c <> None ->
    compare data fuel c aoffset boffset alimit blimit = Ok c' ->
    forward c' <> None.
Proof.
  induction fuel as [|fuel IH]; intros c ao bo al bl c' Hs Hf H;
    [discriminate H|].
  cbn [compare] in H.
  inv_bind H. destruct v as [ao' bo']. inv_bind H. destruct v as [al' bl'].
  destruct (ao' =? al').
  { inv_bind H. inversion H; subst c'. exact Hf. }
  destruct (bo' =? bl').
  { inv_bind H. inversion H; subst c'. exact Hf. }
  inv_bind H. destruct v as [c1 [x y]]. inv_bind H. rename v into c2.
  pose proof (findMiddleSnake_allocated _ _ _ _ _ _ _ _ Hs E1) as Hal.
  destruct (allocated_sized _ _ _ Hal) as [Hs1 _].
  destruct Hal as (_ & _ & f & r & Hf1 & _).
  destruct (compare_sized data _ _ _ _ _ _ _ Hs1 E2) as (Hs2 & _ & _).
  apply (IH _ _ _ _ _ _ Hs2 (IH _ _ _ _ _ _ Hs1
           ltac:(rewrite Hf1; discriminate) E2) H).
Qed.

Lemma sized_allocated (c : context) :
  sized c -> forward c <> None ->
  exists f r, forward c = Some f /\ reverse c = Some r /\
              len f = 2 * max c /\ len r = 2 * max c.
Proof. intros [[Hf _]|H] Hne; [contradiction|exact H]. Qed.

(** C7 (as amended).  The two buffers have [2*max] entries, with
    [max = N+M+1] fixed by [Diff]; they are allocated by the first call of
    [findMiddleSnake] that a run makes, and kept from then on.

    - A run of [compare] from the context of [Diff]: at its end [max] is
      [N+M+1] and the buffers are both nil or both of [2*(N+M+1)]
      entries.
    - A call of [compare], with [(ao', bo')] and [(al', bl')] the corners
      that its two loops trim the rectangle to: [max] is unchanged; when
      the trimmed rectangle has an empty side (no middle snake is searched)
      the call returns with the buffers it was given, nil if they were nil;
      otherwise it returns with both buffers allocated with [2*max]
      entries; buffers that were allocated are allocated at the end, with
      the length they had.
    - A call of [findMiddleSnake] that returns [(x, y)]: [max] and the
      flags are unchanged; both buffers are allocated with [2*max] entries;
      the forward buffer holds [x] at index [max - (aoffset-boffset) + k]
      for the diagonal [k = x - y] of the point, and the reverse buffer an
      entry at or before [x] at index [max - (alimit-blimit) + k]; and at
      every index outside of [max-maxd .. max+maxd], except [max+1] in the
      forward and [max-1] in the reverse buffer, the buffers hold what they
      held before the call (zero if they were nil): a buffer that is
      allocated is written to, not made anew. *)
Theorem C7_buffer_length (data : Interface) :
  (forall fuel fl c',
     compare data fuel (initial data fl) 0 0 (N data) (M data) = Ok c' ->
     max c' = N data + M data + 1 /\
     ((forward c' = None /\ reverse c' = None) \/
      (exists f r, forward c' = Some f /\ reverse c' = Some r /\
                   len f = 2 * (N data + M data + 1) /\
                   len r = 2 * (N data + M data + 1)))) /\
  (forall fuel c ao bo al bl c' ao' bo' al' bl',
     sized c ->
     snake_down data (Z.to_nat (al - ao)) al bl ao bo = Ok (ao', bo') ->
     snake_up data (Z.to_nat (al - ao')) ao' bo' al bl = Ok (al', bl') ->
     compare data (S fuel) c ao bo al bl = Ok c' ->
     max c' = max c /\
     (ao' = al' \/ bo' = bl' ->
      forward c' = forward c /\ reverse c' = reverse c) /\
     (ao' <> al' -> bo' <> bl' ->
      exists f r, forward c' = Some f /\ reverse c' = Some r /\
                  len f = 2 * max c /\ len r = 2 * max c) /\
     (forall f r, forward c = Some f -> reverse c = Some r ->
        exists f' r', forward c' = Some f' /\ reverse c' = Some r' /\
                      len f' = len f /\ len r' = len r)) /\
  (forall ao bo al bl c c' x y,
     sized c ->
     findMiddleSnake data ao bo al bl c = Ok (c', (x, y)) ->
     max c' = max c /\ flags c' = flags c /\
     exists f r,
       forward c' = Some f /\ reverse c' = Some r /\
       len f = 2 * max c /\ len r = 2 * max c /\
       rd f (max c - (ao - bo) + (x - y)) = x /\
       rd r (max c - (al - bl) + (x - y)) <= x /\
       forall i, 0 <= i ->
         i < max c - Z.quot (al - ao + bl - bo + 2) 2 \/
         max c + Z.quot (al - ao + bl - bo + 2) 2 < i ->
         (i <> max c + 1 -> rd f i = rd (slice (forward c)) i) /\
         (i <> max c - 1 -> rd r i = rd (slice (reverse c)) i)).
Proof.
  split; [|split].
  - intros fuel fl c' H. apply compare_sized in H.
    + destruct H as (Hs & Hm & _). cbn [initial max] in Hm. split; trivial.
      unfold sized in Hs. now rewrite Hm in Hs.
    + left. split; reflexivity.
  - intros fuel c ao bo al bl c' ao' bo' al' bl' Hs E1 E2 H.
    destruct (compare_sized data _ _ _ _ _ _ _ Hs H) as (Hs' & Hm' & _).
    split; [exact Hm'|].
    assert (Hkeep : forward c <> None -> forward c' <> None)
      by (intros Hf; exact (compare_not_nil data _ _ _ _ _ _ _ Hs Hf H)).
    cbn [compare] in H. rewrite E1 in H. cbn [bind] in H.
    rewrite E2 in H. cbn [bind] in H.
    split; [|split].
    + intros Hempty. destruct (ao' =? al') eqn:Ea.
      * inv_bind H. inversion H; subst c'. split; reflexivity.
      * apply Z.eqb_neq in Ea. destruct Hempty as [|Eb]; [contradiction|].
        rewrite (proj2 (Z.eqb_eq bo' bl') Eb) in H.
        inv_bind H. inversion H; subst c'. split; reflexivity.
    + intros Ha Hb.
      rewrite (proj2 (Z.eqb_neq ao' al') Ha) in H.
      rewrite (proj2 (Z.eqb_neq bo' bl') Hb) in H.
      inv_bind H. destruct v as [c1 [x y]]. inv_bind H. rename v into c2.
      pose proof (findMiddleSnake_allocated _ _ _ _ _ _ _ _ Hs E) as Hal.
      destruct (allocated_sized _ _ _ Hal) as [Hs1 _].
      destruct Hal as (_ & _ & f1 & r1 & Hf1 & _).
      destruct (compare_sized data _ _ _ _ _ _ _ Hs1 E0) as (Hs2 & _ & _).
      assert (Hne : forward c' <> None).
      { apply (compare_not_nil data _ _ _ _ _ _ _ Hs2
                 (compare_not_nil data _ _ _ _ _ _ _ Hs1
                    ltac:(rewrite Hf1; discriminate) E0) H). }
      destruct (sized_allocated c' Hs' Hne) as (f & r & Hf & Hr & Lf & Lr).
      exists f, r. rewrite <- Hm'. now split; [|split; [|split]].
    + intros f r Hf Hr.
      destruct (sized_allocated c Hs ltac:(rewrite Hf; discriminate))
        as (f0 & r0 & Hf0 & Hr0 & Lf0 & Lr0).
      destruct (sized_allocated c' Hs'
                  (Hkeep ltac:(rewrite Hf; discriminate)))
        as (f' & r' & Hf' & Hr' & Lf' & Lr').
      exists f', r'. split; [exact Hf'|]. split; [exact Hr'|].
      assert (f0 = f) by congruence. assert (r0 = r) by congruence.
      subst f0 r0. lia.
  - intros ao bo al bl c c' x y Hs H.
    destruct (findMiddleSnake_allocated _ _ _ _ _ _ _ _ Hs H)
      as (Hmx & Hfl & f & r & Hf & Hr & Lf & Lr).
    destruct (findMiddleSnake_writes _ _ _ _ _ _ _ _ Hs H) as [Hat Hout].
    split; [exact Hmx|]. split; [exact Hfl|].
    exists f, r. unfold meets_at in Hat. rewrite Hf, Hr, Hmx in Hat.
    rewrite Hf, Hr in Hout. cbn [slice fst snd] in *.
    destruct Hat as [Hat1 Hat2].
    now split; [|split; [|split; [|split; [|split; [|split]]]]].
Qed.

Lemma C7_buffer_length_witness :
  (exists c',
     compare (Ints [1] [2]) 3 (initial (Ints [1] [2]) [0]) 0 0
       (N (Ints [1] [2])) (M (Ints [1] [2])) = Ok c' /\
     max c' = N (Ints [1] [2]) + M (Ints [1] [2]) + 1 /\
     ((forward c' = None /\ reverse c' = None) \/
      (exists f r, forward c' = Some f /\ reverse c' = Some r /\
                   len f = 2 * (N (Ints [1] [2]) + M (Ints [1] [2]) + 1) /\
                   len r = 2 * (N (Ints [1] [2]) + M (Ints [1] [2]) + 1)))) /\
  (exists c' f r,
     findMiddleSnake (Ints [1] [2]) 0 0 1 1
       (mkContext [0] 3 (Some [7; 7; 7; 7; 7; 7]) (Some [9; 9; 9; 9; 9; 9]))
     = Ok (c', (0, 1)) /\
     forward c' = Some f /\ reverse c' = Some r /\
     len f = 6 /\ len r = 6 /\
     rd f (3 - (0 - 0) + (0 - 1)) = 0 /\ rd f 0 = 7 /\ rd r 0 = 9) /\
  (exists c' f r,
     compare (Ints [1] [2]) 3 (initial (Ints [1] [2]) [0]) 0 0 1 1 = Ok c' /\
     max c' = 3 /\ forward c' = Some f /\ reverse c' = Some r /\
     len f = 2 * 3 /\ len r = 2 * 3).
Proof.
  split; [|split].
  - eexists. split.
    + vm_compute. reflexivity.
    + apply (proj1 (C7_buffer_length (Ints [1] [2])) 3%nat [0]).
      vm_compute. reflexivity.
  - assert (E : findMiddleSnake (Ints [1] [2]) 0 0 1 1
                  (mkContext [0] 3 (Some [7; 7; 7; 7; 7; 7])
                     (Some [9; 9; 9; 9; 9; 9]))
                = Ok (mkContext [0] 3 (Some [7; 7; 0; 0; 1; 7])
                        (Some [9; 9; 0; 1; 9; 9]), (0, 1)))
      by (vm_compute; reflexivity).
    destruct (proj2 (proj2 (C7_buffer_length (Ints [1] [2]))) 0 0 1 1
                (mkContext [0] 3 (Some [7; 7; 7; 7; 7; 7])
                   (Some [9; 9; 9; 9; 9; 9])) _ 0 1
                ltac:(right; exists [7; 7; 7; 7; 7; 7], [9; 9; 9; 9; 9; 9];
                      repeat split; reflexivity) E)
      as (_ & _ & f & r & Hf & Hr & Lf & Lr & Hx & _ & Hout).
    eexists. exists f, r. split; [exact E|].
    destruct (Hout 0 ltac:(lia) ltac:(left; vm_compute; reflexivity))
      as [H1 H2].
    split; [exact Hf|]. split; [exact Hr|].
    split; [exact Lf|]. split; [exact Lr|]. split; [exact Hx|].
    split; [apply H1|apply H2]; discriminate.
  - assert (E : compare (Ints [1] [2]) 3 (initial (Ints [1] [2]) [0]) 0 0 1 1
                = Ok (mkContext [3] 3 (Some [0; 0; 0; 0; 1; 0])
                        (Some [0; 0; 0; 1; 0; 0])))
      by (vm_compute; reflexivity).
    destruct (proj1 (proj2 (C7_buffer_length (Ints [1] [2]))) 2%nat
                (initial (Ints [1] [2]) [0]) 0 0 1 1 _ 0 0 1 1
                ltac:(left; split; reflexivity)
                ltac:(vm_compute; reflexivity)
                ltac:(vm_compute; reflexivity) E)
      as (Hm & _ & Hall & _).
    destruct (Hall ltac:(discriminate) ltac:(discriminate))
      as (f & r & Hf & Hr & Lf & Lr).
    eexists. exists f, r. split; [exact E|].
    split; [exact Hm|]. split; [exact Hf|]. split; [exact Hr|].
    split; [exact Lf|exact Lr].
Defined.
